(** * Exact game-tree search: the number-selection game and the placement game

  A shallow embedding of
    - [gaming/464_Can_I_Win_AlphaBeta.py]   (class [Solution]), and
    - [gaming/02_connect_n_gym/connect_n_gym/PlannedStrategy.py]
      (class [PlannedMinimaxStrategy]),
  together with the properties their specification states about them.

  Python integers are unbounded, so they are [Z]; the bit operations
  [>>], [<<], [&], [|] are [Z.shiftr], [Z.shiftl], [Z.land], [Z.lor].
  The memo list [self.dp] is a [list (option num)] indexed the way Python
  indexes lists, the memo dictionary [self.dpMap] is a [gmap].  A Python
  exception is the result [Raise e]; recursion is bounded by a fuel
  counter and running out of it is the separate result [OutOfFuel]. *)

From Stdlib Require Import ZArith List Bool Lia.
From stdpp Require Import base option list gmap.

(** ** Python values and results *)

(** The numbers the search computes with: Python [int]s and the two floats
    [-math.inf] and [math.inf]. *)
Inductive num : Type :=
  | NegInf
  | Int (z : Z)
  | PosInf.

#[global] Instance num_eq_dec : EqDecision num.
Proof. solve_decision. Defined.

(** [a < b] on Python numbers. *)
Definition num_ltb (a b : num) : bool :=
  match a, b with
  | NegInf, NegInf => false
  | NegInf, _ => true
  | Int _, NegInf => false
  | Int x, Int y => (x <? y)%Z
  | Int _, PosInf => true
  | PosInf, _ => false
  end.

(** [a >= b]. *)
Definition num_geb (a b : num) : bool := negb (num_ltb a b).

(** [a == b]. *)
Definition num_eqb (a b : num) : bool := bool_decide (a = b).

(** Python's [max(a, b)]: [b] when [b > a], else [a]. *)
Definition py_max (a b : num) : num := if num_ltb a b then b else a.

(** Python's [min(a, b)]: [b] when [b < a], else [a]. *)
Definition py_min (a b : num) : num := if num_ltb b a then b else a.

Inductive exn : Type :=
  | IndexError
  | KeyError
  | TypeError
  | AssertionError.

Inductive res (A : Type) : Type :=
  | Ok (a : A)
  | Raise (e : exn)
  | OutOfFuel.
Arguments Ok {A} a.
Arguments Raise {A} e.
Arguments OutOfFuel {A}.

(** Sequencing: a statement that raises ends the whole computation. *)
#[global] Instance res_bind : MBind res := fun A B (k : A -> res B) m =>
  match m with
  | Ok a => k a
  | Raise e => Raise e
  | OutOfFuel => OutOfFuel
  end.

(** [range(lo, hi)]. *)
Definition range (lo hi : Z) : list Z :=
  map (fun k => (lo + Z.of_nat k)%Z) (seq 0 (Z.to_nat (hi - lo))).

(** ** The number-selection game ([464_Can_I_Win_AlphaBeta.py]) *)

Module CanIWin.

Local Open Scope Z_scope.

(** [self.dp]: a Python list whose entries are [None] or a number. *)
Abbreviation memo := (list (option num)).

(** The position a Python list subscript [l[i]] denotes: [i] itself when
    [0 <= i < len(l)], [len(l) + i] when [-len(l) <= i < 0], and no position
    (an [IndexError]) otherwise. *)
Definition py_index {A : Type} (l : list A) (i : Z) : option nat :=
  let n := Z.of_nat (length l) in
  if (0 <=? i) && (i <? n) then Some (Z.to_nat i)
  else if (- n <=? i) && (i <? 0) then Some (Z.to_nat (n + i))
  else None.

(** [self.dp[status]] read. *)
Definition dp_get (dp : memo) (status : Z) : res (option num) :=
  match py_index dp status with
  | Some k =>
      match dp !! k with
      | Some e => Ok e
      | None => Raise IndexError
      end
  | None => Raise IndexError
  end.

(** [self.dp[status] = v]. *)
Definition dp_set (dp : memo) (status : Z) (v : num) : res memo :=
  match py_index dp status with
  | Some k => Ok (<[k := Some v]> dp)
  | None => Raise IndexError
  end.

(** [not (status >> i & 1)]. *)
Definition unused (status i : Z) : bool :=
  Z.land (Z.shiftr status i) 1 =? 0.

(** [1 << i | status]. *)
Definition new_status (status i : Z) : Z :=
  Z.lor (Z.shiftl 1 i) status.

Section Minimax.

(** The fields of [self] that [minimax] only reads. *)
Variables (maxChoosableInteger desiredTotal allUsed : Z).

(** The type of [self.minimax], with the memo list threaded through. *)
Definition search : Type :=
  memo -> Z -> Z -> bool -> num -> num -> res (num * memo).

(** The [for] loop of the maximizing branch (lines 17-30), from the
    integers [cands] still to be tried on; [rec] is the recursive call. *)
Fixpoint max_loop (rec : search) (status currentTotal : Z)
    (isMaxPlayer : bool) (cands : list Z) (value alpha beta : num)
    (dp : memo) : res (num * memo) :=
  match cands with
  | [] =>
      dp' ← dp_set dp status value;
      Ok (value, dp')
  | i :: rest =>
      if unused status i then
        if currentTotal + i >=? desiredTotal then
          dp' ← dp_set dp status (Int 1);
          Ok (Int 1, dp')
        else
          '(r, dp1) ← rec dp (new_status status i) (currentTotal + i)
                           (negb isMaxPlayer) alpha beta;
          let value := py_max value r in
          let alpha := py_max alpha value in
          if num_geb alpha beta then
            dp2 ← dp_set dp1 status value;
            Ok (value, dp2)
          else
            max_loop rec status currentTotal isMaxPlayer rest
                     value alpha beta dp1
      else
        max_loop rec status currentTotal isMaxPlayer rest
                 value alpha beta dp
  end.

(** The [for] loop of the minimizing branch (lines 33-45). *)
Fixpoint min_loop (rec : search) (status currentTotal : Z)
    (isMaxPlayer : bool) (cands : list Z) (value alpha beta : num)
    (dp : memo) : res (num * memo) :=
  match cands with
  | [] =>
      dp' ← dp_set dp status value;
      Ok (value, dp')
  | i :: rest =>
      if unused status i then
        if currentTotal + i >=? desiredTotal then
          dp' ← dp_set dp status (Int (-1));
          Ok (Int (-1), dp')
        else
          '(r, dp1) ← rec dp (new_status status i) (currentTotal + i)
                           (negb isMaxPlayer) alpha beta;
          let value := py_min value r in
          let beta := py_min beta value in
          if num_geb alpha beta then
            dp2 ← dp_set dp1 status value;
            Ok (value, dp2)
          else
            min_loop rec status currentTotal isMaxPlayer rest
                     value alpha beta dp1
      else
        min_loop rec status currentTotal isMaxPlayer rest
                 value alpha beta dp
  end.

(** What the two loops share, for the proofs: they differ in the value
    of the shortcut and in how a child's value [r] updates [value],
    [alpha] and [beta]. *)
Fixpoint loop (shortcut : num)
    (step : num -> num -> num -> num -> num * num * num)
    (rec : search) (status currentTotal : Z)
    (isMaxPlayer : bool) (cands : list Z) (value alpha beta : num)
    (dp : memo) : res (num * memo) :=
  match cands with
  | [] =>
      dp' ← dp_set dp status value;
      Ok (value, dp')
  | i :: rest =>
      if unused status i then
        if currentTotal + i >=? desiredTotal then
          dp' ← dp_set dp status shortcut;
          Ok (shortcut, dp')
        else
          '(r, dp1) ← rec dp (new_status status i) (currentTotal + i)
                           (negb isMaxPlayer) alpha beta;
          let '(value, alpha, beta) := step value r alpha beta in
          if num_geb alpha beta then
            dp2 ← dp_set dp1 status value;
            Ok (value, dp2)
          else
            loop shortcut step rec status currentTotal isMaxPlayer rest
                 value alpha beta dp1
      else
        loop shortcut step rec status currentTotal isMaxPlayer rest
             value alpha beta dp
  end.

Definition step_max (value r alpha beta : num) : num * num * num :=
  let value := py_max value r in (value, py_max alpha value, beta).

Definition step_min (value r alpha beta : num) : num * num * num :=
  let value := py_min value r in (value, alpha, py_min beta value).

(** The body of [Solution.minimax] (lines 8-45); [rec] is the recursive
    call. *)
Definition minimax_body (rec : search) (dp : memo)
    (status currentTotal : Z) (isMaxPlayer : bool) (alpha beta : num)
  : res (num * memo) :=
  e ← dp_get dp status;
  match e with
  | Some v => Ok (v, dp)
  | None =>
      if status =? allUsed then Ok (Int 0, dp)
      else if isMaxPlayer then
        max_loop rec status currentTotal isMaxPlayer
                 (range 1 (maxChoosableInteger + 1)) NegInf alpha beta dp
      else
        min_loop rec status currentTotal isMaxPlayer
                 (range 1 (maxChoosableInteger + 1)) PosInf alpha beta dp
  end.

(** [Solution.minimax]. *)
Fixpoint minimax (fuel : nat) (dp : memo) (status currentTotal : Z)
    (isMaxPlayer : bool) (alpha beta : num) : res (num * memo) :=
  match fuel with
  | O => OutOfFuel
  | S fuel' =>
      minimax_body (minimax fuel') dp status currentTotal isMaxPlayer
                   alpha beta
  end.

(** The integers of [1..maxChoosableInteger] whose bit is set in
    [status], their number and their sum, and the number of those whose
    bit is clear. *)
Definition used (status : Z) : list Z :=
  List.filter (fun i => Z.testbit status i)
              (range 1 (maxChoosableInteger + 1)).
Definition count_used (status : Z) : nat := length (used status).
Definition sum_used (status : Z) : Z := fold_right Z.add 0 (used status).
Definition count_free (status : Z) : nat :=
  length (List.filter (unused status) (range 1 (maxChoosableInteger + 1))).

(** The sum of all the integers of the game. *)
Definition sum_all : Z :=
  fold_right Z.add 0 (range 1 (maxChoosableInteger + 1)).

(** [minimax] with one more statement at its head,
    [assert currentTotal == sum(used) and isMaxPlayer == (len(used) % 2 == 0)]. *)
Fixpoint minimax_asserting (fuel : nat) (dp : memo)
    (status currentTotal : Z) (isMaxPlayer : bool) (alpha beta : num)
  : res (num * memo) :=
  match fuel with
  | O => OutOfFuel
  | S fuel' =>
      if (currentTotal =? sum_used status)
         && Bool.eqb isMaxPlayer (Nat.even (count_used status))
      then minimax_body (minimax_asserting fuel') dp status currentTotal
                        isMaxPlayer alpha beta
      else Raise AssertionError
  end.

(** A status of the game: a bit mask over the integers
    [1..maxChoosableInteger]. *)
Definition valid (status : Z) : Prop :=
  0 <= status /\
  forall k, Z.testbit status k = true -> 1 <= k <= maxChoosableInteger.

End Minimax.

(** The value [self.allUsed] has after the loop of lines 51-53. *)
Definition all_used (maxChoosableInteger : Z) : Z :=
  fold_left (fun acc i => Z.lor (Z.shiftl 1 i) acc)
            (range 1 (maxChoosableInteger + 1)) 0.

(** [[None] * (self.allUsed + 1)]. *)
Definition fresh_dp (maxChoosableInteger : Z) : memo :=
  replicate (Z.to_nat (all_used maxChoosableInteger + 1)) None.

(** The root call [self.minimax(0, 0, True, -1, 1)] of [canIWin], with the
    memo list it leaves behind. *)
Definition solve_root (fuel : nat) (maxChoosableInteger desiredTotal : Z)
  : res (num * memo) :=
  minimax maxChoosableInteger desiredTotal (all_used maxChoosableInteger)
          fuel (fresh_dp maxChoosableInteger) 0 0 true (Int (-1)) (Int 1).

(** [Solution.canIWin]. *)
Definition canIWin (fuel : nat) (maxChoosableInteger desiredTotal : Z)
  : res bool :=
  '(v, _) ← solve_root fuel maxChoosableInteger desiredTotal;
  Ok (num_eqb v (Int 1)).

(** Every key bound in [dp] is bound to the same value in [dp']. *)
Definition memo_extends (dp dp' : memo) : Prop :=
  forall k x, dp !! k = Some (Some x) -> dp' !! k = Some (Some x).

(** [dp'] has the length of [dp] and the same entries below [status]. *)
Definition memo_frame (status : Z) (dp dp' : memo) : Prop :=
  length dp' = length dp /\
  forall k, (k < Z.to_nat status)%nat -> dp' !! k = dp !! k.

End CanIWin.

(** ** Exhaustive reference search for the number game *)

Module Reference.

Local Open Scope Z_scope.

Section Exhaustive.

Variables (maxChoosableInteger desiredTotal : Z).

(** Following the spec's words (sections 4.1 and 4.2): the moves
    available from a state are the integers of [1..maxChoosableInteger]
    not yet used. *)
Definition availableMoves (status : Z) : list Z :=
  List.filter (fun i => negb (Z.testbit status i))
              (range 1 (maxChoosableInteger + 1)).

(** The Value for the player who has just won. *)
Definition win (activePlayerIsMax : bool) : Z :=
  if activePlayerIsMax then 1 else -1.

(** The running extremum over the children's Values. *)
Definition best (activePlayerIsMax : bool) (v : Z) (vs : list Z) : Z :=
  fold_left (if activePlayerIsMax then Z.max else Z.min) vs v.

(** The Value of the child reached by choosing [i]: a move that brings
    the running total to the target or beyond is an immediate win for the
    player who made it; any other move is valued by the search [rec] on
    the resulting state, with the opponent to move. *)
Definition child (rec : Z -> Z -> bool -> option Z) (status total : Z)
    (activePlayerIsMax : bool) (i : Z) : option Z :=
  if total + i >=? desiredTotal then Some (win activePlayerIsMax)
  else rec (Z.setbit status i) (total + i) (negb activePlayerIsMax).

(** Full minimax without pruning and without a memo table: a state with
    no available move is a draw; otherwise the state's Value is the
    maximum (minimum) of the Values of all its children. *)
Fixpoint exhaustive (fuel : nat) (status total : Z)
    (activePlayerIsMax : bool) : option Z :=
  match fuel with
  | O => None
  | S fuel' =>
      match availableMoves status with
      | [] => Some 0
      | m :: ms =>
          v ← child (exhaustive fuel') status total activePlayerIsMax m;
          vs ← mapM (child (exhaustive fuel') status total activePlayerIsMax)
                    ms;
          Some (best activePlayerIsMax v vs)
      end
  end.

End Exhaustive.

End Reference.

(** ** Invariants of the number game's memo list *)

Module CanIWinInv.

Import CanIWin Reference.
Local Open Scope Z_scope.

(** What a completed call on [s] that returned [v] did to the memo list:
    nothing, or one store under its own key, unbound until then, after its
    children are done. *)
Definition one_store (s : Z) (v : num) (dp dp' : memo) : Prop :=
dp' = dp \/
exists dpm, memo_extends dp dpm /\ memo_frame (s + 1) dp dpm /\
            dp_get dpm s = Ok None /\ dp_set dpm s v = Ok dp'.

Section Invariants.

Variables (M T : Z).

(** A memo list that holds nothing but draws. *)
Definition zero_memo (dp : memo) : Prop :=
length dp = Z.to_nat (all_used M + 1) /\
forall k x, dp !! k = Some (Some x) -> x = Int 0.

(** [z] is the exhaustive Value of the state, at any sufficient fuel. *)
Definition ref_value (s t : Z) (b : bool) (z : Z) : Prop :=
forall fr, (count_free M s < fr)%nat -> exhaustive M T fr s t b = Some z.

(** Every entry of the memo list is the exhaustive Value of its key. *)
Definition exact_memo (dp : memo) : Prop :=
length dp = Z.to_nat (all_used M + 1) /\
forall s x, 0 <= s -> dp !! Z.to_nat s = Some (Some x) ->
  exists z, x = Int z /\
            ref_value s (sum_used M s) (Nat.even (count_used M s)) z.

End Invariants.

End CanIWinInv.

(** ** The placement game ([PlannedStrategy.py]) *)

(** What a dictionary entry can hold: a number, or a pair (a 2-tuple) of
    objects. *)
Inductive pyval : Type :=
  | Number (v : num)
  | Pair (a b : pyval).

(** The operand of an arithmetic comparison ([max], [min]): comparing a
    tuple with a number raises [TypeError]. *)
Definition as_num (o : pyval) : res num :=
  match o with
  | Number v => Ok v
  | Pair _ _ => Raise TypeError
  end.

(** The unpacking assignment [a, b = o]: a number cannot be unpacked. *)
Definition unpack2 (o : pyval) : res (pyval * pyval) :=
  match o with
  | Pair a b => Ok (a, b)
  | Number _ => Raise TypeError
  end.

(** A [for] loop without early exit: the body is run on every element in
    turn, threading the loop's state; an exception ends it. *)
Fixpoint for_each {A S : Type} (xs : list A) (body : S -> A -> res S)
    (st : S) : res S :=
  match xs with
  | [] => Ok st
  | x :: xs' => st' ← body st x; for_each xs' body st'
  end.

Module Planned.

Section Strategy.

(** Cell values of the grid; [ConnectNGame.AVAILABLE] marks an empty cell. *)
Context {cell : Type} `{Countable cell}.
Variable AVAILABLE : cell.

(** A status: a tuple of tuples of cell values. *)
Abbreviation board := (list (list cell)).

(** [s[r][c]]. *)
Definition get2 (s : board) (r c : nat) : res cell :=
  match s !! r with
  | Some row =>
      match row !! c with
      | Some x => Ok x
      | None => Raise IndexError
      end
  | None => Raise IndexError
  end.

(** [board[i][j] = x]. *)
Definition set2 (b : board) (i j : nat) (x : cell) : res board :=
  match b !! i with
  | Some row =>
      if decide (j < length row)%nat then Ok (<[i := <[j := x]> row]> b)
      else Raise IndexError
  | None => Raise IndexError
  end.

(** An [N]-by-[N] grid. *)
Definition square (N : nat) (s : board) : Prop :=
  length s = N /\ Forall (fun row => length row = N) s.

(** [PlannedMinimaxStrategy.rotate]. *)
Definition rotate (s : board) : res board :=
  let N := length s in
  let board0 := replicate N (replicate N AVAILABLE) in
  b ← for_each (seq 0 N) (fun b r =>
         for_each (seq 0 N) (fun b c =>
           x ← get2 s r c;
           set2 b c (N - 1 - r) x) b) board0;
  for_each (seq 0 N) (fun rows i =>
    match b !! i with
    | Some row => Ok (rows ++ [row])
    | None => Raise IndexError
    end) [].

(** [PlannedMinimaxStrategy.similarStatus]. *)
Definition similarStatus (status : board) : res (list board) :=
  '(ret, _) ← for_each (seq 0 4) (fun '(ret, rotatedS) _ =>
                 rotatedS' ← rotate rotatedS;
                 Ok (ret ++ [rotatedS'], rotatedS')) ([], status);
  Ok ret.

(** [self.dpMap]. *)
Abbreviation dict := (gmap board pyval).

(** [self.dpMap[s]]. *)
Definition dict_get (dpMap : dict) (s : board) : res pyval :=
  match dpMap !! s with
  | Some v => Ok v
  | None => Raise KeyError
  end.

(** The bound keys are closed under rotation. *)
Definition rotation_closed (dpMap : dict) : Prop :=
  forall k k', is_Some (dpMap !! k) -> rotate k = Ok k' ->
               is_Some (dpMap !! k').

(** [PlannedMinimaxStrategy.updateDP]. *)
Definition updateDP (dpMap : dict) (status : board) (result : pyval)
  : res dict :=
  similarStates ← similarStatus status;
  for_each similarStates (fun dpMap s =>
    match dpMap !! s with
    | Some _ => Ok dpMap
    | None => Ok (<[s := result]> dpMap)
    end) dpMap.

(** The memo lookup that opens [minimax] (lines 49-51): the entry of the
    first of the states that is a key of the dictionary. *)
Fixpoint first_hit (dpMap : dict) (similarStates : list board)
  : option pyval :=
  match similarStates with
  | [] => None
  | s :: rest =>
      match dpMap !! s with
      | Some v => Some v
      | None => first_hit dpMap rest
      end
  end.

(** The game object, [connect_n.ConnectNGame], is not among the sources:
    the strategy is stated over any implementation of the interface it
    uses. *)
Context {game player pos : Type} `{EqDecision player}.
Variable PLAYER_A : player.
Variable getStatus : game -> board.
Variable gameOver : game -> bool.
Variable currentPlayer : game -> player.
Variable getAvailablePositions : game -> list pos.
(** [game.move( *pos )] changes the game and returns [None] or the result. *)
Variable move : game -> pos -> game * option Z.
Variable undo : game -> game.

(** The strategy object: [self.game] and [self.dpMap]. *)
Record self : Type := Self { self_game : game; self_dpMap : dict }.

(** The type of [self.minimax]. *)
Definition search : Type := self -> res (pyval * self).

(** Every entry of the dictionary is a number. *)
Definition numeric (dp : dict) : Prop :=
  forall k v, dp !! k = Some v -> exists n, v = Number n.

(** What a completed call leaves, for the proofs: the bound keys as they
    were, and numbers only if there were numbers only. *)
Definition sound_call (st : self) (v : pyval) (st' : self) : Prop :=
  self_dpMap st ⊆ self_dpMap st' /\
  (numeric (self_dpMap st) ->
   numeric (self_dpMap st') /\ exists n, v = Number n).

(** What the search needs of the game object to run to its end: the
    statuses are [N]-by-[N] grids, and on a game that is not over, for
    each of its available positions, [undo] takes the move back, and a
    move that returns [None] leaves a game that is not over and is
    smaller in [size]. *)
Definition playable (N : nat) (size : game -> nat) : Prop :=
  (forall g, square N (getStatus g)) /\
  forall g p, gameOver g = false -> In p (getAvailablePositions g) ->
    undo (fst (move g p)) = g /\
    (snd (move g p) = None ->
     gameOver (fst (move g p)) = false /\
     (size (fst (move g p)) < size g)%nat).

(** What a call that ran to its end gives, for the proofs: a number, the
    game [g], and numbers only in the dictionary. *)
Definition returns (r : res (pyval * self)) (g : game) : Prop :=
  exists n st', r = Ok (Number n, st') /\ self_game st' = g
                /\ numeric (self_dpMap st').

(** One pass of either loop body up to [game.undo()] (lines 62-67 and
    78-83): the child's value as the search got it, and the state after
    the undo. *)
Definition play (rec : search) (st : self) (pos0 : pos)
  : res (pyval * self) :=
  let '(g1, result) := move (self_game st) pos0 in
  '(result, st1) ←
     match result with
     | Some z => Ok (Number (Int z), Self g1 (self_dpMap st))
     | None =>
         if gameOver g1 then Raise AssertionError
         else rec (Self g1 (self_dpMap st))
     end;
  Ok (result, Self (undo (self_game st1)) (self_dpMap st1)).

(** The loop of the [PLAYER_A] branch of [minimax] (lines 61-74).  The
    local [bestMove] is assigned there and never read: it is left out. *)
Fixpoint max_search (rec : search) (thisState : board)
    (positions : list pos) (ret : num) (st : self)
  : res (pyval * self) :=
  match positions with
  | [] =>
      dp ← updateDP (self_dpMap st) thisState (Number ret);
      Ok (Number ret, Self (self_game st) dp)
  | pos0 :: rest =>
      '(result, st1) ← play rec st pos0;
      result ← as_num result;
      let ret := py_max ret result in
      if num_eqb ret (Int 1) then
        dp ← updateDP (self_dpMap st1) thisState (Number ret);
        Ok (Number (Int 1), Self (self_game st1) dp)
      else max_search rec thisState rest ret st1
  end.

(** The loop of the other branch of [minimax] (lines 77-90). *)
Fixpoint min_search (rec : search) (thisState : board)
    (positions : list pos) (ret : num) (st : self)
  : res (pyval * self) :=
  match positions with
  | [] =>
      dp ← updateDP (self_dpMap st) thisState (Number ret);
      Ok (Number ret, Self (self_game st) dp)
  | pos0 :: rest =>
      '(result, st1) ← play rec st pos0;
      result ← as_num result;
      let ret := py_min ret result in
      if num_eqb ret (Int (-1)) then
        dp ← updateDP (self_dpMap st1) thisState (Number ret);
        Ok (Number (Int (-1)), Self (self_game st1) dp)
      else min_search rec thisState rest ret st1
  end.

(** What the two loops share, for the proofs: they differ in the value
    [stop] that ends the search and in how a child's value updates
    [ret]. *)
Fixpoint search_loop (stop : num) (pick : num -> num -> num)
    (rec : search) (thisState : board)
    (positions : list pos) (ret : num) (st : self)
  : res (pyval * self) :=
  match positions with
  | [] =>
      dp ← updateDP (self_dpMap st) thisState (Number ret);
      Ok (Number ret, Self (self_game st) dp)
  | pos0 :: rest =>
      '(result, st1) ← play rec st pos0;
      result ← as_num result;
      let ret := pick ret result in
      if num_eqb ret stop then
        dp ← updateDP (self_dpMap st1) thisState (Number ret);
        Ok (Number stop, Self (self_game st1) dp)
      else search_loop stop pick rec thisState rest ret st1
  end.

(** [PlannedMinimaxStrategy.minimax]; the [print] of line 52 has no
    effect on the state and is left out. *)
Fixpoint minimax (fuel : nat) (st : self) : res (pyval * self) :=
  match fuel with
  | O => OutOfFuel
  | S fuel' =>
      similarStates ← similarStatus (getStatus (self_game st));
      match first_hit (self_dpMap st) similarStates with
      | Some v => Ok (v, st)
      | None =>
          let g := self_game st in
          if gameOver g then Raise AssertionError
          else
            let thisState := getStatus g in
            if decide (currentPlayer g = PLAYER_A) then
              max_search (minimax fuel') thisState
                         (getAvailablePositions g) NegInf st
            else
              min_search (minimax fuel') thisState
                         (getAvailablePositions g) PosInf st
      end
  end.

(** [PlannedMinimaxStrategy.__init__]: the strategy after the
    precomputation, and [self.result]. *)
Definition init (fuel : nat) (g : game) : res (self * pyval) :=
  '(result, st) ← minimax fuel (Self g ∅);
  Ok (st, result).

(** One pass of either loop body of [action] up to [game.undo()]
    (lines 23-26 and 33-36): the looked-up [result] and the game after the
    undo. *)
Definition peek (dpMap : dict) (g : game) (pos0 : pos)
  : res (pyval * game) :=
  let '(g1, _) := move g pos0 in
  e ← dict_get dpMap (getStatus g1);
  '(result, _) ← unpack2 e;
  Ok (result, undo g1).

(** [PlannedMinimaxStrategy.action] on the argument [g]: the returned
    pair [(ret, bestMove)] and the game object after the call. *)
Definition action (dpMap : dict) (g : game)
  : res ((num * option pos) * game) :=
  if gameOver g then Raise AssertionError
  else if decide (currentPlayer g = PLAYER_A) then
    for_each (getAvailablePositions g) (fun '((ret, bestMove), g) pos0 =>
      '(result, g') ← peek dpMap g pos0;
      result ← as_num result;
      let ret := py_max ret result in
      Ok ((ret, if num_eqb ret result then Some pos0 else bestMove), g'))
      ((NegInf, None), g)
  else
    for_each (getAvailablePositions g) (fun '((ret, bestMove), g) pos0 =>
      '(result, g') ← peek dpMap g pos0;
      result ← as_num result;
      let ret := py_min ret result in
      Ok ((ret, if num_eqb ret result then Some pos0 else bestMove), g'))
      ((PosInf, None), g).

End Strategy.

End Planned.

(** ** A concrete game to run the strategy on *)

Module Connect2.

(** Modelled from the spec: [ConnectNGame] itself is not among the sources.
    This is the adapter of section 4.1 for the smallest game with a
    second ply, two in a row on a 2-by-2 grid ([ConnectNGame(N=2,
    board_size=2)]): any two cells of that grid are in a row, so the player
    who places a second stone wins.  The game is its stack of moves, latest
    first; everything else is read off it. *)
Definition game : Type := list (nat * nat).

Definition AVAILABLE : Z := 0.
Definition PLAYER_A : Z := 1.
Definition PLAYER_B : Z := -1.

(** The player to move: players alternate and [PLAYER_A] starts. *)
Definition currentPlayer (g : game) : Z :=
  if Nat.even (length g) then PLAYER_A else PLAYER_B.

(** The stone on cell [p]: that of the player who moved there. *)
Fixpoint stone (g : game) (p : nat * nat) : Z :=
  match g with
  | [] => AVAILABLE
  | q :: g' => if decide (q = p) then currentPlayer g' else stone g' p
  end.

Definition getStatus (g : game) : list (list Z) :=
  map (fun r => map (fun c => stone g (r, c)) [0; 1]%nat) [0; 1]%nat.

Definition getAvailablePositions (g : game) : list (nat * nat) :=
  List.filter (fun p => bool_decide (stone g p = AVAILABLE))
              [(0, 0); (0, 1); (1, 0); (1, 1)]%nat.

(** The third stone is the mover's second one and ends the game. *)
Definition gameOver (g : game) : bool := (3 <=? length g)%nat.

Definition move (g : game) (p : nat * nat) : game * option Z :=
  let g' := p :: g in
  (g', if gameOver g' then Some (currentPlayer g) else None).

Definition undo (g : game) : game := tail g.

(** [PlannedMinimaxStrategy(game)] and [strategy.action(game)]. *)
Definition minimax :=
  Planned.minimax AVAILABLE PLAYER_A getStatus gameOver currentPlayer
                  getAvailablePositions move undo.
Definition init :=
  Planned.init AVAILABLE PLAYER_A getStatus gameOver currentPlayer
               getAvailablePositions move undo.
Definition action :=
  Planned.action PLAYER_A getStatus gameOver currentPlayer
                 getAvailablePositions move undo.

(** The empty grid, and the strategy before any search. *)
Definition empty_grid : list (list Z) := [[0; 0]; [0; 0]]%Z.
Definition start : @Planned.self Z _ _ game := Planned.Self [] ∅.

(** The moves left before the game is over, and the strategy after the
    search from the empty grid. *)
Definition moves_left (g : game) : nat := 3 - length g.
Definition playable :=
  Planned.playable getStatus gameOver getAvailablePositions move undo.
Definition solved : @Planned.self Z _ _ game :=
  match minimax 4 start with
  | Ok (_, st) => st
  | _ => start
  end.

End Connect2.

(** ** More invariants of the two searches *)

Module MoreInv.

Import CanIWin.
Local Open Scope Z_scope.

(** One of the three Values: a loss, a draw or a win of the first player. *)
Definition ternary (v : num) : Prop :=
v = Int (-1) \/ v = Int 0 \/ v = Int 1.

(** A memo list of the right length that holds Values only. *)
Definition ranged_memo (M : Z) (dp : memo) : Prop :=
length dp = Z.to_nat (all_used M + 1) /\
forall k x, dp !! k = Some (Some x) -> ternary x.

(** A result that is a value or an [IndexError]. *)
Definition index_error_only {A : Type} (r : res A) : Prop :=
match r with
| Ok _ => True
| Raise e => e = IndexError
| OutOfFuel => False
end.

(** What the loops of [action] hold after the positions [pre], on the
    game [g] with the looked-up values [val]: the game is [g] again, and
    the running pair is the initial one, or a value of one of [pre] that
    is [better] than all of theirs with that position. *)
Definition best_so_far {game pos : Type} (g : game) (val : pos -> Z)
  (better : Z -> Z -> Prop) (init : num)
  (pre : list pos) (st : num * option pos * game) : Prop :=
snd st = g /\
((pre = [] /\ fst st = (init, None)) \/
 exists z b, fst st = (Int z, Some b) /\ In b pre /\ val b = z /\
             forall p, In p pre -> better z (val p)).

(** A game of [Connect2] after three moves, which is over. *)
Definition finished : Connect2.game := [(1, 1); (0, 1); (0, 0)]%nat.

(** A dictionary of pairs for the four children of the empty grid of
    [Connect2]. *)
Definition pair_value (p : nat * nat) : Z :=
Z.of_nat (fst p) - Z.of_nat (snd p).
Definition pair_table : gmap (list (list Z)) pyval :=
list_to_map
  (map (fun p => (Connect2.getStatus [p],
                  Pair (Number (Int (pair_value p))) (Number (Int 0))))
       (Connect2.getAvailablePositions [])).

End MoreInv.

(** * Properties of the number-selection game *)

Module CanIWinFacts.

Import CanIWin Reference CanIWinInv.
Local Open Scope Z_scope.

(** ** Ranges and bit masks *)

Lemma in_range lo hi i : In i (range lo hi) <-> lo <= i < hi.
Proof.
  unfold range. rewrite in_map_iff. split.
  - intros (k & <- & Hk). apply in_seq in Hk. lia.
  - intros Hi. exists (Z.to_nat (i - lo)). split; [lia|].
    apply in_seq. lia.
Qed.

Lemma in_candidates M i : In i (range 1 (M + 1)) <-> 1 <= i <= M.
Proof. rewrite in_range. lia. Qed.

Lemma NoDup_range lo hi : List.NoDup (range lo hi).
Proof.
  unfold range. apply Finite.Injective_map_NoDup; [|apply seq_NoDup].
  intros a b Hab. lia.
Qed.

Lemma unused_spec s i : 0 <= i -> unused s i = negb (Z.testbit s i).
Proof.
  intros Hi. unfold unused.
  change 1 with (Z.ones 1). rewrite Z.land_ones by lia.
  change (2 ^ 1) with 2. rewrite <- Z.bit0_mod.
  rewrite Z.shiftr_spec by lia. rewrite Z.add_0_l.
  destruct (Z.testbit s i); reflexivity.
Qed.

Lemma new_status_testbit s i k :
  0 <= i -> Z.testbit (new_status s i) k = (i =? k) || Z.testbit s k.
Proof.
  intros Hi. unfold new_status.
  rewrite Z.lor_spec, Z.shiftl_1_l, Z.pow2_bits_eqb by lia. reflexivity.
Qed.

Lemma new_status_setbit s i : new_status s i = Z.setbit s i.
Proof. unfold new_status, Z.setbit. apply Z.lor_comm. Qed.

Lemma new_status_nonneg s i : 0 <= s -> 0 <= new_status s i.
Proof.
  intros Hs. unfold new_status. apply Z.lor_nonneg. split; [|assumption].
  apply Z.shiftl_nonneg. lia.
Qed.

(** Setting a clear bit adds its weight. *)
Lemma new_status_add s i :
  0 <= i -> Z.testbit s i = false -> new_status s i = 2 ^ i + s.
Proof.
  intros Hi Hb. unfold new_status. rewrite Z.shiftl_1_l.
  assert (Hd : Z.land (2 ^ i) s = 0).
  { apply Z.bits_inj'. intros k Hk.
    rewrite Z.land_spec, Z.pow2_bits_eqb, Z.bits_0 by lia.
    destruct (Z.eqb_spec i k) as [->|]; [rewrite Hb|]; reflexivity. }
  rewrite <- Z.lxor_lor by assumption.
  symmetry. apply Z.add_nocarry_lxor. assumption.
Qed.

Lemma new_status_gt s i :
  0 <= i -> Z.testbit s i = false -> s < new_status s i.
Proof.
  intros Hi Hb. rewrite new_status_add by assumption.
  assert (0 < 2 ^ i) by (apply Z.pow_pos_nonneg; lia). lia.
Qed.

Lemma fold_lor_testbit l a k :
  (forall i, In i l -> 0 <= i) ->
  Z.testbit (fold_left (fun acc i => Z.lor (Z.shiftl 1 i) acc) l a) k
  = existsb (fun i => i =? k) l || Z.testbit a k.
Proof.
  revert a. induction l as [|i l IH]; intros a Hl; simpl; [reflexivity|].
  rewrite IH by (intros; apply Hl; right; assumption).
  fold (new_status a i). rewrite new_status_testbit by (apply Hl; left; reflexivity).
  destruct (i =? k), (existsb (fun i0 => i0 =? k) l); reflexivity.
Qed.

Lemma all_used_testbit M k :
  Z.testbit (all_used M) k = (1 <=? k) && (k <=? M).
Proof.
  unfold all_used. rewrite fold_lor_testbit.
  2:{ intros i Hi. apply in_range in Hi. lia. }
  rewrite Z.bits_0, orb_false_r.
  destruct ((1 <=? k) && (k <=? M)) eqn:E.
  - apply existsb_exists. exists k. split; [apply in_range; lia | lia].
  - apply not_true_is_false. intros (i & Hi & Hik)%existsb_exists.
    apply in_range in Hi. lia.
Qed.

Lemma all_used_nonneg M : 0 <= all_used M.
Proof.
  apply Z.bits_iff_nonneg_ex. exists (Z.max M 0). intros k Hk.
  rewrite all_used_testbit. lia.
Qed.

Lemma valid_all_used M : valid M (all_used M).
Proof.
  split; [apply all_used_nonneg|]. intros k. rewrite all_used_testbit. lia.
Qed.

Lemma valid_zero M : valid M 0.
Proof. split; [lia|]. intros k. rewrite Z.bits_0. discriminate. Qed.

Lemma valid_new_status M s i :
  valid M s -> 1 <= i <= M -> valid M (new_status s i).
Proof.
  intros [Hs Hb] Hi. split; [apply new_status_nonneg; assumption|].
  intros k. rewrite new_status_testbit by lia.
  destruct (Z.eqb_spec i k); simpl; [lia | apply Hb].
Qed.

(** A status is at most [allUsed], so it is a position of [self.dp]. *)
Lemma valid_le M s : valid M s -> 0 <= s <= all_used M.
Proof.
  intros [Hs Hb]. split; [assumption|].
  assert (Hd : Z.land s (Z.ldiff (all_used M) s) = 0).
  { apply Z.bits_inj'. intros k Hk.
    rewrite Z.land_spec, Z.ldiff_spec, Z.bits_0.
    destruct (Z.testbit s k); simpl; [apply andb_false_r | reflexivity]. }
  assert (He : Z.lor s (Z.ldiff (all_used M) s) = all_used M).
  { apply Z.bits_inj'. intros k Hk.
    rewrite Z.lor_spec, Z.ldiff_spec, all_used_testbit.
    destruct (Z.testbit s k) eqn:E; simpl.
    - apply Hb in E. lia.
    - apply andb_true_r. }
  rewrite <- Z.lxor_lor in He by assumption.
  rewrite <- Z.add_nocarry_lxor in He by assumption.
  assert (0 <= Z.ldiff (all_used M) s).
  { apply Z.ldiff_nonneg. left. apply all_used_nonneg. }
  lia.
Qed.

(** A status other than [allUsed] leaves an integer to choose. *)
Lemma valid_all_taken M s :
  valid M s ->
  (forall i, In i (range 1 (M + 1)) -> unused s i = false) ->
  s = all_used M.
Proof.
  intros [Hs Hb] Hall. apply Z.bits_inj'. intros k Hk.
  rewrite all_used_testbit.
  destruct ((1 <=? k) && (k <=? M)) eqn:E.
  - specialize (Hall k). rewrite unused_spec in Hall by lia.
    apply negb_false_iff, Hall, in_range. lia.
  - destruct (Z.testbit s k) eqn:E'; [|reflexivity]. apply Hb in E'. lia.
Qed.

(** ** Counting the used and the free integers *)

Lemma filter_ext_away (P Q : Z -> bool) i l :
  ~ In i l -> (forall k, In k l -> k <> i -> Q k = P k) ->
  List.filter Q l = List.filter P l.
Proof.
  intros Hi Hext. apply List.filter_ext_in. intros k Hk. apply Hext; [assumption|].
  intros ->. contradiction.
Qed.

(** Two predicates that differ on one element of a duplicate-free list:
    the filtered lists differ by that element. *)
Lemma filter_flip_length (P Q : Z -> bool) i l :
  List.NoDup l -> In i l -> P i = true -> Q i = false ->
  (forall k, In k l -> k <> i -> Q k = P k) ->
  length (List.filter P l) = S (length (List.filter Q l)).
Proof.
  intros Hnd Hi HP HQ Hext. induction Hnd as [|a l Ha Hnd IH]; [destruct Hi|].
  simpl. destruct Hi as [->|Hi].
  - rewrite HP, HQ. simpl. f_equal. f_equal. symmetry.
    apply filter_ext_away with (i := i); [assumption|].
    intros k Hk. apply Hext. right. assumption.
  - assert (a <> i) by (intros ->; contradiction).
    rewrite (Hext a) by (simpl; auto).
    destruct (P a); simpl; rewrite IH; auto; intros k Hk; apply Hext; right; assumption.
Qed.

Lemma filter_flip_sum (P Q : Z -> bool) i l :
  List.NoDup l -> In i l -> P i = true -> Q i = false ->
  (forall k, In k l -> k <> i -> Q k = P k) ->
  fold_right Z.add 0 (List.filter P l)
  = i + fold_right Z.add 0 (List.filter Q l).
Proof.
  intros Hnd Hi HP HQ Hext. induction Hnd as [|a l Ha Hnd IH]; [destruct Hi|].
  simpl. destruct Hi as [->|Hi].
  - rewrite HP, HQ. simpl. f_equal. f_equal. symmetry.
    apply filter_ext_away with (i := i); [assumption|].
    intros k Hk. apply Hext. right. assumption.
  - assert (a <> i) by (intros ->; contradiction).
    rewrite (Hext a) by (simpl; auto).
    assert (IH' := IH Hi (fun k Hk => Hext k (or_intror Hk))).
    destruct (P a); simpl; rewrite IH'; lia.
Qed.

Lemma filter_sum_le (P : Z -> bool) l :
  (forall k, In k l -> 0 <= k) ->
  fold_right Z.add 0 (List.filter P l) <= fold_right Z.add 0 l.
Proof.
  induction l as [|a l IH]; intros Hl; simpl; [lia|].
  assert (0 <= a) by (apply Hl; left; reflexivity).
  assert (IH' := IH (fun k Hk => Hl k (or_intror Hk))).
  destruct (P a); simpl; lia.
Qed.

Section Counting.

Variable M : Z.

Lemma testbit_child s i k :
  0 <= i -> k <> i -> Z.testbit (new_status s i) k = Z.testbit s k.
Proof.
  intros Hi Hk. rewrite new_status_testbit by assumption.
  destruct (Z.eqb_spec i k); [congruence | reflexivity].
Qed.

Lemma count_free_child s i :
  1 <= i <= M -> unused s i = true ->
  count_free M s = S (count_free M (new_status s i)).
Proof.
  intros Hi Hu. unfold count_free.
  apply filter_flip_length with (i := i);
    [apply NoDup_range | apply in_range; lia | assumption | |].
  - rewrite unused_spec, new_status_testbit, Z.eqb_refl by lia. reflexivity.
  - intros k Hk%in_range Hne.
    rewrite !unused_spec, testbit_child by lia. reflexivity.
Qed.

Lemma count_used_child s i :
  1 <= i <= M -> unused s i = true ->
  count_used M (new_status s i) = S (count_used M s).
Proof.
  intros Hi Hu. rewrite unused_spec in Hu by lia.
  apply negb_true_iff in Hu. unfold count_used, used.
  apply filter_flip_length with (i := i);
    [apply NoDup_range | apply in_range; lia | | assumption |].
  - rewrite new_status_testbit, Z.eqb_refl by lia. reflexivity.
  - intros k Hk%in_range Hne. rewrite testbit_child by lia. reflexivity.
Qed.

Lemma sum_used_child s i :
  1 <= i <= M -> unused s i = true ->
  sum_used M (new_status s i) = sum_used M s + i.
Proof.
  intros Hi Hu. rewrite unused_spec in Hu by lia.
  apply negb_true_iff in Hu.
  transitivity (i + sum_used M s); [|lia]. unfold sum_used, used.
  apply filter_flip_sum;
    [apply NoDup_range | apply in_range; lia | | assumption |].
  - rewrite new_status_testbit, Z.eqb_refl by lia. reflexivity.
  - intros k Hk%in_range Hne. rewrite testbit_child by lia. reflexivity.
Qed.

Lemma sum_used_le s : sum_used M s <= sum_all M.
Proof.
  apply filter_sum_le. intros k Hk%in_range. lia.
Qed.

Lemma sum_used_all_used : sum_used M (all_used M) = sum_all M.
Proof.
  unfold sum_used, used, sum_all. f_equal.
  apply forallb_filter_id. apply forallb_forall.
  intros k Hk%in_range. rewrite all_used_testbit. lia.
Qed.

Lemma sum_used_zero : sum_used M 0 = 0.
Proof.
  unfold sum_used, used.
  induction (range 1 (M + 1)) as [|a l IH]; simpl; [reflexivity|].
  rewrite Z.bits_0. assumption.
Qed.

Lemma count_used_zero : count_used M 0 = O.
Proof.
  unfold count_used, used.
  induction (range 1 (M + 1)) as [|a l IH]; simpl; [reflexivity|].
  rewrite Z.bits_0. assumption.
Qed.

Lemma count_free_le s : (count_free M s <= Z.to_nat M)%nat.
Proof.
  unfold count_free. etransitivity; [apply List.filter_length_le|].
  unfold range. rewrite length_map, length_seq. lia.
Qed.

End Counting.

(** ** The memo list *)

Lemma py_index_nonneg {A} (l : list A) s :
  0 <= s ->
  py_index l s = if s <? Z.of_nat (length l) then Some (Z.to_nat s) else None.
Proof.
  intros Hs. unfold py_index.
  destruct (Z.leb_spec 0 s); [|lia]. simpl.
  destruct (Z.ltb_spec s (Z.of_nat (length l))); [reflexivity|].
  destruct (Z.ltb_spec s 0); [lia|]. rewrite andb_false_r. reflexivity.
Qed.

Lemma dp_get_Ok dp s e :
  0 <= s -> dp_get dp s = Ok e -> dp !! Z.to_nat s = Some e.
Proof.
  intros Hs. unfold dp_get. rewrite py_index_nonneg by assumption.
  destruct (s <? _); [|discriminate].
  destruct (dp !! Z.to_nat s); [|discriminate]. congruence.
Qed.

Lemma dp_get_lookup dp s e :
  0 <= s -> dp !! Z.to_nat s = Some e -> dp_get dp s = Ok e.
Proof.
  intros Hs Hl. unfold dp_get. rewrite py_index_nonneg by assumption.
  apply lookup_lt_Some in Hl as Hlt.
  destruct (Z.ltb_spec s (Z.of_nat (length dp))); [|lia].
  rewrite Hl. reflexivity.
Qed.

Lemma dp_get_in_range dp s :
  0 <= s < Z.of_nat (length dp) -> exists e, dp_get dp s = Ok e.
Proof.
  intros Hs. destruct (lookup_lt_is_Some_2 dp (Z.to_nat s)) as [e He]; [lia|].
  exists e. apply dp_get_lookup; [lia | assumption].
Qed.

Lemma dp_set_Ok dp s v dp' :
  0 <= s -> dp_set dp s v = Ok dp' ->
  dp' = <[Z.to_nat s := Some v]> dp /\ (Z.to_nat s < length dp)%nat.
Proof.
  intros Hs. unfold dp_set. rewrite py_index_nonneg by assumption.
  destruct (Z.ltb_spec s (Z.of_nat (length dp))); [|discriminate].
  intros [= <-]. split; [reflexivity | lia].
Qed.

Lemma dp_set_in_range dp s v :
  0 <= s < Z.of_nat (length dp) ->
  dp_set dp s v = Ok (<[Z.to_nat s := Some v]> dp).
Proof.
  intros Hs. unfold dp_set. rewrite py_index_nonneg by lia.
  destruct (Z.ltb_spec s (Z.of_nat (length dp))); [reflexivity | lia].
Qed.

Lemma memo_extends_refl dp : memo_extends dp dp.
Proof. intros k x Hk. assumption. Qed.

Lemma memo_extends_trans dp1 dp2 dp3 :
  memo_extends dp1 dp2 -> memo_extends dp2 dp3 -> memo_extends dp1 dp3.
Proof. intros H12 H23 k x Hk. apply H23, H12, Hk. Qed.

Lemma memo_frame_refl s dp : memo_frame s dp dp.
Proof. split; reflexivity. Qed.

Lemma memo_frame_trans s dp1 dp2 dp3 :
  memo_frame s dp1 dp2 -> memo_frame s dp2 dp3 -> memo_frame s dp1 dp3.
Proof.
  intros [Hl1 Hf1] [Hl2 Hf2]. split; [congruence|].
  intros k Hk. rewrite Hf2, Hf1 by assumption. reflexivity.
Qed.

Lemma memo_frame_weaken s s' dp dp' :
  s <= s' -> memo_frame s' dp dp' -> memo_frame s dp dp'.
Proof.
  intros Hs [Hl Hf]. split; [assumption|]. intros k Hk. apply Hf. lia.
Qed.

(** ** The two loops are instances of the shared shape *)

Section Loops.

Variables (M T A : Z).

Lemma max_loop_shape rec s t bm cands value alpha beta dp :
  max_loop T rec s t bm cands value alpha beta dp
  = loop T (Int 1) step_max rec s t bm cands value alpha beta dp.
Proof.
  revert value alpha dp. induction cands as [|i rest IH]; intros; simpl;
    [reflexivity|].
  destruct (unused s i); [|apply IH].
  destruct (t + i >=? T); [reflexivity|].
  destruct (rec dp _ _ _ alpha beta) as [[r dp1]| |]; simpl; try reflexivity.
  destruct (num_geb _ beta); [reflexivity | apply IH].
Qed.

Lemma min_loop_shape rec s t bm cands value alpha beta dp :
  min_loop T rec s t bm cands value alpha beta dp
  = loop T (Int (-1)) step_min rec s t bm cands value alpha beta dp.
Proof.
  revert value beta dp. induction cands as [|i rest IH]; intros; simpl;
    [reflexivity|].
  destruct (unused s i); [|apply IH].
  destruct (t + i >=? T); [reflexivity|].
  destruct (rec dp _ _ _ alpha beta) as [[r dp1]| |]; simpl; try reflexivity.
  destruct (num_geb alpha _); [reflexivity | apply IH].
Qed.

(** *** Every store goes to a key that is not bound yet *)

Lemma one_store_extends s v dp dp' :
  0 <= s -> one_store s v dp dp' ->
  memo_extends dp dp' /\ memo_frame s dp dp'.
Proof.
  intros Hs [->|(dpm & Hext & Hfr & Hget & Hset)].
  - split; [apply memo_extends_refl | apply memo_frame_refl].
  - apply dp_get_Ok in Hget; [|assumption].
    apply dp_set_Ok in Hset as [-> Hlt]; [|assumption]. split.
    + intros k x Hk. apply Hext in Hk.
      destruct (decide (k = Z.to_nat s)) as [->|Hne]; [congruence|].
      rewrite list_lookup_insert_ne by congruence. assumption.
    + destruct Hfr as [Hlen Hfr]. split.
      * rewrite length_insert. assumption.
      * intros k Hk. rewrite list_lookup_insert_ne by lia. apply Hfr. lia.
Qed.

Lemma loop_store sc step rec s t bm cands value alpha beta dp v dp' :
  0 <= s ->
  (forall i, In i cands -> 0 <= i) ->
  (forall i dp0 a b r dp1, In i cands -> unused s i = true ->
     rec dp0 (new_status s i) (t + i) (negb bm) a b = Ok (r, dp1) ->
     memo_extends dp0 dp1 /\ memo_frame (new_status s i) dp0 dp1) ->
  loop T sc step rec s t bm cands value alpha beta dp = Ok (v, dp') ->
  exists dpm, memo_extends dp dpm /\ memo_frame (s + 1) dp dpm /\
              dp_set dpm s v = Ok dp'.
Proof.
  intros Hs Hpos Hrec. revert value alpha beta dp.
  induction cands as [|i rest IH]; intros value alpha beta dp Hrun;
    simpl in Hrun.
  - destruct (dp_set dp s value) as [dp2| |] eqn:E; simpl in Hrun;
      try discriminate.
    injection Hrun as <- <-. exists dp.
    auto using memo_extends_refl, memo_frame_refl.
  - assert (IH' := IH (fun k Hk => Hpos k (or_intror Hk))
                      (fun k dp0 a b r dp1 Hk =>
                         Hrec k dp0 a b r dp1 (or_intror Hk))).
    destruct (unused s i) eqn:Hu; [|apply IH' in Hrun; assumption].
    destruct (t + i >=? T).
    { destruct (dp_set dp s sc) as [dp2| |] eqn:E; simpl in Hrun;
        try discriminate.
      injection Hrun as <- <-. exists dp.
      auto using memo_extends_refl, memo_frame_refl. }
    destruct (rec dp _ _ _ alpha beta) as [[r dp1]| |] eqn:Er;
      simpl in Hrun; try discriminate.
    apply Hrec in Er as [Hext Hfr]; [|left; reflexivity|assumption].
    assert (Hfr' : memo_frame (s + 1) dp dp1).
    { apply memo_frame_weaken with (s' := new_status s i); [|assumption].
      assert (s < new_status s i); [|lia].
      apply new_status_gt; [apply Hpos; left; reflexivity|].
      rewrite unused_spec in Hu by (apply Hpos; left; reflexivity).
      apply negb_true_iff. assumption. }
    destruct (step value r alpha beta) as [[value' alpha'] beta'].
    destruct (num_geb alpha' beta').
    { destruct (dp_set dp1 s value') as [dp2| |] eqn:E; simpl in Hrun;
        try discriminate.
      injection Hrun as <- <-. exists dp1. auto. }
    apply IH' in Hrun as (dpm & Hext2 & Hfr2 & Hset).
    exists dpm. split; [|split]; [| |assumption].
    + eapply memo_extends_trans; eassumption.
    + eapply memo_frame_trans; eassumption.
Qed.

Lemma minimax_one_store fuel : forall dp s t bm alpha beta v dp',
  0 <= s ->
  minimax M T A fuel dp s t bm alpha beta = Ok (v, dp') ->
  one_store s v dp dp'.
Proof.
  induction fuel as [|fuel IH]; intros dp s t bm alpha beta v dp' Hs Hrun;
    [discriminate|].
  simpl in Hrun. unfold minimax_body in Hrun.
  destruct (dp_get dp s) as [[x|]| |] eqn:Hget; simpl in Hrun;
    try discriminate.
  { injection Hrun as <- <-. left. reflexivity. }
  destruct (s =? A).
  { injection Hrun as <- <-. left. reflexivity. }
  assert (Hstore : exists dpm, memo_extends dp dpm /\
                     memo_frame (s + 1) dp dpm /\ dp_set dpm s v = Ok dp').
  { destruct bm;
      [rewrite max_loop_shape in Hrun | rewrite min_loop_shape in Hrun];
      (eapply loop_store; [exact Hs | | | exact Hrun]);
      try (intros i Hi%in_range; lia);
      (intros i dp0 a b r dp1 Hi%in_range Hu Hr;
       apply IH in Hr; [|apply new_status_nonneg; assumption];
       apply one_store_extends in Hr;
         [assumption | apply new_status_nonneg; assumption]). }
  destruct Hstore as (dpm & Hext & Hfr & Hset). right. exists dpm.
  split; [|split; [|split]]; try assumption.
  apply dp_get_Ok in Hget; [|assumption].
  apply dp_get_lookup; [assumption|].
  destruct Hfr as [_ Hfr]. rewrite Hfr by lia. assumption.
Qed.

(** *** The loops only call [rec] on children *)

Lemma loop_ext sc step rec1 rec2 s t bm cands value alpha beta dp :
(forall i dp0 a b, In i cands -> unused s i = true ->
   t + i < T ->
   rec1 dp0 (new_status s i) (t + i) (negb bm) a b
   = rec2 dp0 (new_status s i) (t + i) (negb bm) a b) ->
loop T sc step rec1 s t bm cands value alpha beta dp
= loop T sc step rec2 s t bm cands value alpha beta dp.
Proof.
intros Hrec. revert value alpha beta dp.
induction cands as [|i rest IH]; intros value alpha beta dp; simpl;
  [reflexivity|].
assert (IH' := IH (fun k dp0 a b Hk => Hrec k dp0 a b (or_intror Hk))).
destruct (unused s i) eqn:Hu; [|apply IH'].
destruct (Z.geb_spec (t + i) T); [reflexivity|].
rewrite (Hrec i) by (simpl; auto).
destruct (rec2 dp _ _ _ alpha beta) as [[r dp1]| |]; simpl; try reflexivity.
destruct (step value r alpha beta) as [[value' alpha'] beta'].
destruct (num_geb alpha' beta'); [reflexivity | apply IH'].
Qed.

(** *** Termination *)

Lemma loop_terminates sc step rec s t bm cands value alpha beta dp :
0 <= s < Z.of_nat (length dp) ->
(forall i dp0 a b, In i cands -> unused s i = true ->
   length dp0 = length dp ->
   exists r dp1, rec dp0 (new_status s i) (t + i) (negb bm) a b = Ok (r, dp1)
                 /\ length dp1 = length dp0) ->
exists v dp', loop T sc step rec s t bm cands value alpha beta dp = Ok (v, dp')
              /\ length dp' = length dp.
Proof.
intros Hs Hrec. revert value alpha beta dp Hs Hrec.
induction cands as [|i rest IH]; intros value alpha beta dp Hs Hrec; simpl.
- rewrite dp_set_in_range by assumption. simpl.
  eexists _, _. split; [reflexivity | apply length_insert].
- assert (IH' := fun value alpha beta =>
                   IH value alpha beta dp Hs
                      (fun k dp0 a b Hk => Hrec k dp0 a b (or_intror Hk))).
  destruct (unused s i) eqn:Hu; [|apply IH'].
  destruct (t + i >=? T).
  { rewrite dp_set_in_range by assumption. simpl.
    eexists _, _. split; [reflexivity | apply length_insert]. }
  destruct (Hrec i dp alpha beta) as (r & dp1 & -> & Hlen);
    [left; reflexivity | assumption | reflexivity |]. simpl.
  destruct (step value r alpha beta) as [[value' alpha'] beta'].
  destruct (num_geb alpha' beta').
  { rewrite dp_set_in_range by lia. simpl.
    eexists _, _. split; [reflexivity|]. rewrite length_insert. assumption. }
  destruct (IH value' alpha' beta' dp1) as (v & dp' & Hrun & Hlen').
  + lia.
  + intros k dp0 a b Hk Huk Hl. apply Hrec; [right; assumption | assumption | lia].
  + exists v, dp'. split; [assumption | lia].
Qed.

End Loops.

Section Termination.

Variables (M T : Z).

(** A call on a status of the game, with a memo list of the right length
    and more fuel than integers are left to choose, returns. *)
Lemma minimax_terminates fuel : forall dp s t bm alpha beta,
  valid M s -> (count_free M s < fuel)%nat ->
  length dp = Z.to_nat (all_used M + 1) ->
  exists v dp', minimax M T (all_used M) fuel dp s t bm alpha beta = Ok (v, dp')
                /\ length dp' = length dp.
Proof.
induction fuel as [|fuel IH]; intros dp s t bm alpha beta Hv Hfuel Hlen; [lia|].
assert (Hs := valid_le M s Hv).
simpl. unfold minimax_body.
destruct (dp_get_in_range dp s) as [e ->]; [lia|]. simpl.
destruct e as [x|]; [eauto|].
destruct (s =? all_used M); [eauto|].
assert (Hchildren : forall i dp0 a b, In i (range 1 (M + 1)) ->
          unused s i = true -> length dp0 = length dp ->
          exists r dp1,
            minimax M T (all_used M) fuel dp0 (new_status s i) (t + i)
                    (negb bm) a b = Ok (r, dp1)
            /\ length dp1 = length dp0).
{ intros i dp0 a b Hi%in_range Hu Hl. apply IH.
  - apply valid_new_status; [assumption | lia].
  - rewrite (count_free_child M s i) in Hfuel by (assumption || lia). lia.
  - congruence. }
destruct bm; [rewrite max_loop_shape | rewrite min_loop_shape];
  apply loop_terminates; (lia || assumption).
Qed.

End Termination.

(** ** The reference search *)

Section ReferenceFacts.

Variables (M T : Z).

Lemma in_availableMoves s i :
In i (availableMoves M s) <-> 1 <= i <= M /\ unused s i = true.
Proof.
unfold availableMoves. rewrite filter_In, in_range. split.
- intros [Hi Hb]. rewrite unused_spec by lia. split; [lia | assumption].
- intros [Hi Hb]. rewrite unused_spec in Hb by lia. split; [lia | assumption].
Qed.

Lemma availableMoves_count s :
length (availableMoves M s) = count_free M s.
Proof.
unfold availableMoves, count_free. f_equal. apply List.filter_ext_in.
intros i Hi%in_range. rewrite unused_spec by lia. reflexivity.
Qed.

Lemma best_in b v vs : In (best b v vs) (v :: vs).
Proof.
unfold best. revert v. induction vs as [|x vs IH]; intros v; simpl; [auto|].
destruct (IH ((if b then Z.max else Z.min) v x)) as [Heq|Hin]; [|auto].
rewrite <- Heq. destruct b; [destruct (Z.max_spec v x) | destruct (Z.min_spec v x)];
  intuition congruence.
Qed.

Lemma best_max v vs x : In x (v :: vs) -> x <= best true v vs.
Proof.
unfold best. intros Hin.
assert (Hgen : x <= v \/ In x vs) by (destruct Hin as [->|]; [left; lia | auto]).
clear Hin. revert v Hgen. induction vs as [|y vs IH]; intros v Hgen; simpl.
- destruct Hgen as [|[]]. assumption.
- apply IH. destruct Hgen as [Hle|[->|Hin]]; [left; lia | left; lia | auto].
Qed.

Lemma best_min v vs x : In x (v :: vs) -> best false v vs <= x.
Proof.
unfold best. intros Hin.
assert (Hgen : v <= x \/ In x vs) by (destruct Hin as [->|]; [left; lia | auto]).
clear Hin. revert v Hgen. induction vs as [|y vs IH]; intros v Hgen; simpl.
- destruct Hgen as [|[]]. assumption.
- apply IH. destruct Hgen as [Hle|[->|Hin]]; [left; lia | left; lia | auto].
Qed.

(** The Value of a state with moves, from the Values of its children. *)
Lemma exhaustive_node f s t b z :
availableMoves M s <> [] ->
exhaustive M T (S f) s t b = Some z <->
exists v vs,
  Forall2 (fun i y => child T (exhaustive M T f) s t b i = Some y)
          (availableMoves M s) (v :: vs)
  /\ z = best b v vs.
Proof.
intros Hne. simpl. destruct (availableMoves M s) as [|m ms]; [contradiction|].
split.
- destruct (child T _ s t b m) as [v|] eqn:Ev; simpl; [|discriminate].
  destruct (mapM _ ms) as [vs|] eqn:Evs; simpl; [|discriminate].
  intros [= <-]. exists v, vs. split; [|reflexivity].
  constructor; [assumption | apply mapM_Some_1; assumption].
- intros (v & vs & HF & ->). inversion HF as [|? ? ? ? Hv Hvs]; subst.
  rewrite Hv. simpl. apply mapM_Some_2 in Hvs. rewrite Hvs. reflexivity.
Qed.

Lemma Forall2_total {X Y} (R : X -> Y -> Prop) l :
(forall x, In x l -> exists y, R x y) -> exists k, Forall2 R l k.
Proof.
induction l as [|x l IH]; intros Hl; [exists []; constructor|].
destruct (Hl x) as [y Hy]; [left; reflexivity|].
destruct IH as [k Hk]; [intros; apply Hl; right; assumption|].
exists (y :: k). constructor; assumption.
Qed.

Lemma Forall2_In_l {X Y} (R : X -> Y -> Prop) l k x :
Forall2 R l k -> In x l -> exists y, In y k /\ R x y.
Proof.
induction 1 as [|a b l k Hab _ IH]; intros Hin; [destruct Hin|].
destruct Hin as [->|Hin]; [exists b; simpl; auto|].
destruct (IH Hin) as (y & Hy & HR). exists y. simpl. auto.
Qed.

Lemma Forall2_In_r {X Y} (R : X -> Y -> Prop) l k y :
Forall2 R l k -> In y k -> exists x, In x l /\ R x y.
Proof.
induction 1 as [|a b l k Hab _ IH]; intros Hin; [destruct Hin|].
destruct Hin as [->|Hin]; [exists a; simpl; auto|].
destruct (IH Hin) as (x & Hx & HR). exists x. simpl. auto.
Qed.

(** A state all of whose children have a Value has one. *)
Lemma exhaustive_total_node f s t b :
(forall i, In i (availableMoves M s) ->
   exists y, child T (exhaustive M T f) s t b i = Some y) ->
exists z, exhaustive M T (S f) s t b = Some z.
Proof.
intros Hch. destruct (availableMoves M s) as [|m ms] eqn:Em.
- exists 0. simpl. rewrite Em. reflexivity.
- destruct (Forall2_total _ _ Hch) as [k Hk].
  inversion Hk as [|? v ? vs Hv Hvs]; subst.
  exists (best b v vs). apply exhaustive_node; [rewrite Em; discriminate|].
  exists v, vs. rewrite Em. split; [assumption | reflexivity].
Qed.

Lemma Forall2_const {X Y} (R : X -> Y -> Prop) l c :
(forall x, In x l -> R x c) -> Forall2 R l (map (fun _ => c) l).
Proof.
induction l as [|x l IH]; intros Hl; simpl; constructor.
- apply Hl. left. reflexivity.
- apply IH. intros. apply Hl. right. assumption.
Qed.

(** All children have the Value [c]: so has the state. *)
Lemma exhaustive_all_same f s t b c :
availableMoves M s <> [] ->
(forall i, In i (availableMoves M s) ->
   child T (exhaustive M T f) s t b i = Some c) ->
exhaustive M T (S f) s t b = Some c.
Proof.
intros Hne Hch. apply exhaustive_node; [assumption|].
apply (Forall2_const (fun i y => child T (exhaustive M T f) s t b i = Some y))
  in Hch.
destruct (availableMoves M s) as [|m ms]; [contradiction|]. simpl in Hch.
eexists _, _. split; [exact Hch|].
destruct (best_in b c (map (fun _ => c) ms)) as [Heq|Hin]; [congruence|].
apply in_map_iff in Hin as (? & <- & _). reflexivity.
Qed.

(** The children's Values are wins and losses and one of them is a win
    for the player to move: the state is a win for that player. *)
Lemma exhaustive_win f s t b :
(forall i, In i (availableMoves M s) ->
   exists y, child T (exhaustive M T f) s t b i = Some y /\ (y = 1 \/ y = -1)) ->
(exists i, In i (availableMoves M s) /\
   child T (exhaustive M T f) s t b i = Some (win b)) ->
exhaustive M T (S f) s t b = Some (win b).
Proof.
intros Hch (i & Hi & Hwin).
assert (Hne : availableMoves M s <> []) by (intros He; rewrite He in Hi; destruct Hi).
apply exhaustive_node; [assumption|].
destruct (Forall2_total _ _ Hch) as [k Hk].
destruct k as [|v vs]; [inversion Hk; subst; congruence|].
exists v, vs. split.
- eapply Forall2_impl; [exact Hk|]. intros ? ? [? _]. assumption.
- destruct (Forall2_In_l _ _ _ i Hk Hi) as (y & Hy & Hcy & _).
  assert (y = win b) by congruence. subst y.
  destruct (Forall2_In_r _ _ _ (best b v vs) Hk (best_in b v vs))
    as (j & _ & _ & Hrange).
  destruct b; simpl in *.
  + apply best_max in Hy. lia.
  + apply best_min in Hy. lia.
Qed.

Lemma availableMoves_nonempty s :
valid M s -> s <> all_used M -> availableMoves M s <> [].
Proof.
intros Hv Hne He. apply Hne, valid_all_taken; [assumption|].
intros i Hi%in_range. destruct (unused s i) eqn:Hu; [|reflexivity].
assert (Hin : In i (availableMoves M s)) by (apply in_availableMoves; split; [lia | assumption]).
rewrite He in Hin. destruct Hin.
Qed.

(** When the integers do not add up to the target, every state is a draw. *)
Lemma exhaustive_drawn fuel : forall s t b,
sum_all M < T -> valid M s -> t = sum_used M s ->
(count_free M s < fuel)%nat ->
exhaustive M T fuel s t b = Some 0.
Proof.
induction fuel as [|fuel IH]; intros s t b Hsum Hv Ht Hfuel; [lia|].
destruct (availableMoves M s) as [|m ms] eqn:Em; [simpl; rewrite Em; reflexivity|].
apply exhaustive_all_same; [rewrite Em; discriminate|].
intros i Hi. apply in_availableMoves in Hi as [Hi Hu]. unfold child.
assert (Hc := sum_used_child M s i Hi Hu).
assert (Hle := sum_used_le M (new_status s i)).
destruct (Z.geb_spec (t + i) T); [lia|].
rewrite <- new_status_setbit. apply IH.
- assumption.
- apply valid_new_status; assumption.
- lia.
- rewrite (count_free_child M s i) in Hfuel by assumption. lia.
Qed.

(** When they do, every state but the full one is a win or a loss. *)
Lemma exhaustive_decisive fuel : forall s t b,
T <= sum_all M -> valid M s -> t = sum_used M s -> s <> all_used M ->
(count_free M s < fuel)%nat ->
exists z, exhaustive M T fuel s t b = Some z /\ (z = 1 \/ z = -1).
Proof.
induction fuel as [|fuel IH]; intros s t b Hsum Hv Ht Hne Hfuel; [lia|].
assert (Hch : forall i, In i (availableMoves M s) ->
          exists y, child T (exhaustive M T fuel) s t b i = Some y
                    /\ (y = 1 \/ y = -1)).
{ intros i Hi. apply in_availableMoves in Hi as [Hi Hu]. unfold child.
  destruct (Z.geb_spec (t + i) T).
  { exists (win b). split; [reflexivity|]. destruct b; simpl; auto. }
  assert (Hc := sum_used_child M s i Hi Hu).
  rewrite <- new_status_setbit. apply IH.
  - assumption.
  - apply valid_new_status; assumption.
  - lia.
  - intros He. rewrite He, sum_used_all_used in Hc. lia.
  - rewrite (count_free_child M s i) in Hfuel by assumption. lia. }
assert (Hmoves := availableMoves_nonempty s Hv Hne).
destruct (Forall2_total _ _ Hch) as [k Hk].
destruct k as [|v vs]; [inversion Hk; subst; congruence|].
exists (best b v vs). split.
- apply exhaustive_node; [assumption|]. exists v, vs. split; [|reflexivity].
  eapply Forall2_impl; [exact Hk|]. intros ? ? [? _]. assumption.
- destruct (Forall2_In_r _ _ _ (best b v vs) Hk (best_in b v vs))
    as (j & _ & _ & Hrange). assumption.
Qed.

End ReferenceFacts.

(** ** The search computes the exhaustive Value *)

Section Exactness.

Variables (M T : Z).

Local Abbreviation zero_memo := (CanIWinInv.zero_memo M).
Local Abbreviation ref_value := (CanIWinInv.ref_value M T).
Local Abbreviation exact_memo := (CanIWinInv.exact_memo M T).

(** *** Draws *)

Lemma zero_memo_insert dp k :
zero_memo dp -> zero_memo (<[k := Some (Int 0)]> dp).
Proof.
intros [Hlen Hz]. split; [rewrite length_insert; assumption|].
intros j x. destruct (decide (k = j)) as [->|Hne].
- destruct (decide (j < length dp)%nat).
  + rewrite list_lookup_insert_eq by assumption. congruence.
  + rewrite list_insert_ge by lia. apply Hz.
- rewrite list_lookup_insert_ne by assumption. apply Hz.
Qed.

Lemma loop_drawn sc init step (I : memo -> Prop) rec s t bm L :
0 <= s < Z.of_nat L ->
(forall dp, I dp -> length dp = L) ->
(forall value a b, value = init \/ value = Int 0 ->
   exists a' b', step value (Int 0) a b = (Int 0, a', b')) ->
forall cands,
(forall i, In i cands -> unused s i = true -> t + i < T) ->
(forall i dp0 a b, In i cands -> unused s i = true -> I dp0 ->
   exists dp1, rec dp0 (new_status s i) (t + i) (negb bm) a b = Ok (Int 0, dp1)
               /\ I dp1) ->
forall value alpha beta dp,
value = init \/ value = Int 0 -> I dp ->
exists z' dpm,
  loop T sc step rec s t bm cands value alpha beta dp
  = Ok (z', <[Z.to_nat s := Some z']> dpm)
  /\ I dpm
  /\ (z' = Int 0 \/ (z' = value /\ forall i, In i cands -> unused s i = false)).
Proof.
intros Hs HL Hstep cands. induction cands as [|i rest IH];
  intros Hlow Hrec value alpha beta dp Hval HI; simpl.
- rewrite dp_set_in_range by (rewrite (HL dp HI); assumption). simpl.
  exists value, dp. split; [reflexivity|]. split; [assumption|].
  right. split; [reflexivity|]. intros ? [].
- assert (IH' := IH (fun k Hk => Hlow k (or_intror Hk))
                    (fun k dp0 a b Hk => Hrec k dp0 a b (or_intror Hk))).
  destruct (unused s i) eqn:Hu.
  + assert (Hlt := Hlow i (or_introl eq_refl) Hu).
    destruct (Z.geb_spec (t + i) T); [lia|].
    destruct (Hrec i dp alpha beta) as (dp1 & -> & HI1);
      [left; reflexivity | assumption | assumption |]. simpl.
    destruct (Hstep value alpha beta Hval) as (a' & b' & ->).
    destruct (num_geb a' b').
    * rewrite dp_set_in_range by (rewrite (HL dp1 HI1); assumption). simpl.
      exists (Int 0), dp1. auto.
    * destruct (IH' (Int 0) a' b' dp1) as (z' & dpm & -> & HIm & Hz);
        [auto | assumption |].
      exists z', dpm. split; [reflexivity|]. split; [assumption|].
      left. destruct Hz as [|[? _]]; assumption.
  + destruct (IH' value alpha beta dp Hval HI) as (z' & dpm & -> & HIm & Hz).
    exists z', dpm. split; [reflexivity|]. split; [assumption|].
    destruct Hz as [|[-> Hall]]; [auto|]. right. split; [reflexivity|].
    intros k [<-|Hk]; [assumption | apply Hall; assumption].
Qed.

Lemma step_max_drawn value a b :
value = NegInf \/ value = Int 0 ->
exists a' b', step_max value (Int 0) a b = (Int 0, a', b').
Proof. intros [->| ->]; unfold step_max; simpl; eauto. Qed.

Lemma step_min_drawn value a b :
value = PosInf \/ value = Int 0 ->
exists a' b', step_min value (Int 0) a b = (Int 0, a', b').
Proof. intros [->| ->]; unfold step_min; simpl; eauto. Qed.

(** When the integers do not add up to the target, the search returns a
    draw on every state, whatever the window. *)
Lemma minimax_drawn fuel : forall dp s t bm alpha beta,
sum_all M < T -> valid M s -> t = sum_used M s ->
(count_free M s < fuel)%nat -> zero_memo dp ->
exists dp', minimax M T (all_used M) fuel dp s t bm alpha beta = Ok (Int 0, dp')
            /\ zero_memo dp'.
Proof.
induction fuel as [|fuel IH]; intros dp s t bm alpha beta Hsum Hv Ht Hfuel Hz;
  [lia|].
assert (Hs := valid_le M s Hv). destruct Hz as [Hlen Hz].
simpl. unfold minimax_body.
destruct (dp_get_in_range dp s) as [e He]; [lia|]. rewrite He. simpl.
destruct e as [x|].
{ apply dp_get_Ok in He; [|lia]. apply Hz in He as ->.
  exists dp. split; [reflexivity | split; assumption]. }
destruct (Z.eqb_spec s (all_used M)) as [Heq|Hne].
{ exists dp. split; [reflexivity | split; assumption]. }
assert (Hlow : forall i, In i (range 1 (M + 1)) -> unused s i = true -> t + i < T).
{ intros i Hi%in_candidates Hu. assert (Hc := sum_used_child M s i Hi Hu).
  assert (Hle := sum_used_le M (new_status s i)). lia. }
assert (Hrec : forall i dp0 a b, In i (range 1 (M + 1)) -> unused s i = true ->
          zero_memo dp0 ->
          exists dp1, minimax M T (all_used M) fuel dp0 (new_status s i) (t + i)
                              (negb bm) a b = Ok (Int 0, dp1) /\ zero_memo dp1).
{ intros i dp0 a b Hi%in_candidates Hu Hz0. apply IH; try assumption.
  - apply valid_new_status; assumption.
  - rewrite (sum_used_child M s i) by assumption. lia.
  - rewrite (count_free_child M s i) in Hfuel by assumption. lia. }
assert (Hfinish : forall z' dpm (init : num),
          zero_memo dpm ->
          z' = Int 0 \/ (z' = init /\
             forall i, In i (range 1 (M + 1)) -> unused s i = false) ->
          exists dp', Ok (z', <[Z.to_nat s := Some z']> dpm) = Ok (Int 0, dp')
                      /\ zero_memo dp').
{ intros z' dpm init Hzm [->|[_ Hall]].
  - eexists. split; [reflexivity | apply zero_memo_insert; assumption].
  - exfalso. apply Hne, valid_all_taken; assumption. }
destruct bm; [rewrite max_loop_shape | rewrite min_loop_shape].
- destruct (loop_drawn (Int 1) NegInf step_max zero_memo
              (minimax M T (all_used M) fuel) s t true
              (Z.to_nat (all_used M + 1))) with (cands := range 1 (M + 1))
      (value := NegInf) (alpha := alpha) (beta := beta) (dp := dp)
    as (z' & dpm & -> & Hzm & Hcase);
    try (assumption || lia || (split; assumption) || (left; reflexivity)).
  + intros ? [? _]. assumption.
  + apply step_max_drawn.
  + eapply Hfinish; eassumption.
- destruct (loop_drawn (Int (-1)) PosInf step_min zero_memo
              (minimax M T (all_used M) fuel) s t false
              (Z.to_nat (all_used M + 1))) with (cands := range 1 (M + 1))
      (value := PosInf) (alpha := alpha) (beta := beta) (dp := dp)
    as (z' & dpm & -> & Hzm & Hcase);
    try (assumption || lia || (split; assumption) || (left; reflexivity)).
  + intros ? [? _]. assumption.
  + apply step_min_drawn.
  + eapply Hfinish; eassumption.
Qed.

(** *** Wins and losses *)

Lemma exact_memo_insert dp s z :
0 <= s -> exact_memo dp ->
ref_value s (sum_used M s) (Nat.even (count_used M s)) z ->
exact_memo (<[Z.to_nat s := Some (Int z)]> dp).
Proof.
intros Hs [Hlen Hex] Hz. split; [rewrite length_insert; assumption|].
intros s' x Hs'. destruct (decide (Z.to_nat s = Z.to_nat s')) as [Heq|Hne].
- assert (s' = s) by lia. subst s'.
  destruct (decide (Z.to_nat s < length dp)%nat).
  + rewrite list_lookup_insert_eq by assumption. intros [= <-]. eauto.
  + rewrite list_insert_ge by lia. apply Hex. assumption.
- rewrite list_lookup_insert_ne by assumption. apply Hex. assumption.
Qed.

Lemma loop_decisive (w : Z) init step (I : memo -> Prop)
  (cv : Z -> Z -> Prop) rec s t bm L :
0 <= s < Z.of_nat L ->
(forall dp, I dp -> length dp = L) ->
(forall value, value = init \/ value = Int (- w) ->
   step value (Int (- w)) (Int (-1)) (Int 1) = (Int (- w), Int (-1), Int 1)) ->
(forall value, value = init \/ value = Int (- w) ->
   exists a' b', step value (Int w) (Int (-1)) (Int 1) = (Int w, a', b')
                 /\ num_geb a' b' = true) ->
forall cands,
(forall i dp0, In i cands -> unused s i = true -> t + i < T -> I dp0 ->
   exists z dp1,
     rec dp0 (new_status s i) (t + i) (negb bm) (Int (-1)) (Int 1)
     = Ok (Int z, dp1)
     /\ (z = w \/ z = - w) /\ cv i z /\ I dp1) ->
forall value dp,
value = init \/ value = Int (- w) -> I dp ->
exists z' dpm,
  loop T (Int w) step rec s t bm cands value (Int (-1)) (Int 1) dp
  = Ok (z', <[Z.to_nat s := Some z']> dpm)
  /\ I dpm
  /\ ((z' = Int w /\
       exists i, In i cands /\ unused s i = true /\ (T <= t + i \/ cv i w))
      \/ ((forall i, In i cands -> unused s i = true -> t + i < T /\ cv i (- w))
          /\ (z' = Int (- w) \/
              (z' = value /\ forall i, In i cands -> unused s i = false)))).
Proof.
intros Hs HL Hlose Hwin cands. induction cands as [|i rest IH];
  intros Hrec value dp Hval HI; simpl.
- rewrite dp_set_in_range by (rewrite (HL dp HI); assumption). simpl.
  exists value, dp. split; [reflexivity|]. split; [assumption|].
  right. split; [intros ? []|]. right. split; [reflexivity | intros ? []].
- assert (IH' := IH (fun k dp0 Hk => Hrec k dp0 (or_intror Hk))).
  destruct (unused s i) eqn:Hu.
  + destruct (Z.geb_spec (t + i) T) as [Hge|Hlt].
    { rewrite dp_set_in_range by (rewrite (HL dp HI); assumption). simpl.
      exists (Int w), dp. split; [reflexivity|]. split; [assumption|].
      left. split; [reflexivity|]. exists i. simpl. auto. }
    destruct (Hrec i dp) as (z & dp1 & -> & Hz & Hcv & HI1);
      [left; reflexivity | assumption | assumption | assumption |]. simpl.
    destruct Hz as [->| ->].
    * destruct (Hwin value Hval) as (a' & b' & -> & ->).
      rewrite dp_set_in_range by (rewrite (HL dp1 HI1); assumption). simpl.
      exists (Int w), dp1. split; [reflexivity|]. split; [assumption|].
      left. split; [reflexivity|]. exists i. simpl. auto.
    * rewrite (Hlose value Hval). simpl.
      destruct (IH' (Int (- w)) dp1) as (z' & dpm & -> & HIm & Hcase);
        [auto | assumption |].
      exists z', dpm. split; [reflexivity|]. split; [assumption|].
      destruct Hcase as [[-> (j & Hj & Huj & Hcj)]|[Hall Hz']].
      -- left. split; [reflexivity|]. exists j. simpl. auto.
      -- right. split.
         ++ intros k [<-|Hk] Huk; [auto | apply Hall; assumption].
         ++ left. destruct Hz' as [|[? _]]; assumption.
  + destruct (IH' value dp Hval HI) as (z' & dpm & -> & HIm & Hcase).
    exists z', dpm. split; [reflexivity|]. split; [assumption|].
    destruct Hcase as [[-> (j & Hj & Huj & Hcj)]|[Hall Hz']].
    * left. split; [reflexivity|]. exists j. simpl. auto.
    * right. split.
      -- intros k [<-|Hk] Huk; [congruence | apply Hall; assumption].
      -- destruct Hz' as [|[-> Hnone]]; [auto|]. right.
         split; [reflexivity|].
         intros k [<-|Hk]; [assumption | apply Hnone; assumption].
Qed.

Lemma step_max_lose value :
value = NegInf \/ value = Int (- 1) ->
step_max value (Int (- 1)) (Int (-1)) (Int 1) = (Int (- 1), Int (-1), Int 1).
Proof. intros [->| ->]; reflexivity. Qed.

Lemma step_max_win value :
value = NegInf \/ value = Int (- 1) ->
exists a' b', step_max value (Int 1) (Int (-1)) (Int 1) = (Int 1, a', b')
              /\ num_geb a' b' = true.
Proof. intros [->| ->]; eexists _, _; split; reflexivity. Qed.

Lemma step_min_lose value :
value = PosInf \/ value = Int (- -1) ->
step_min value (Int (- -1)) (Int (-1)) (Int 1) = (Int (- -1), Int (-1), Int 1).
Proof. intros [->| ->]; reflexivity. Qed.

Lemma step_min_win value :
value = PosInf \/ value = Int (- -1) ->
exists a' b', step_min value (Int (-1)) (Int (-1)) (Int 1) = (Int (-1), a', b')
              /\ num_geb a' b' = true.
Proof. intros [->| ->]; eexists _, _; split; reflexivity. Qed.

(** What the loop's outcome says about the exhaustive Value of the state. *)
Lemma node_value_decisive s t bm (z' init : num) :
T <= sum_all M -> valid M s -> t = sum_used M s -> s <> all_used M ->
(z' = Int (win bm) /\
 exists i, In i (range 1 (M + 1)) /\ unused s i = true /\
   (T <= t + i \/ ref_value (new_status s i) (t + i) (negb bm) (win bm)))
\/ ((forall i, In i (range 1 (M + 1)) -> unused s i = true ->
       t + i < T /\ ref_value (new_status s i) (t + i) (negb bm) (- win bm))
    /\ (z' = Int (- win bm) \/
        (z' = init /\ forall i, In i (range 1 (M + 1)) -> unused s i = false))) ->
exists z, z' = Int z /\ (z = 1 \/ z = -1) /\ ref_value s t bm z.
Proof.
intros Hsum Hv Ht Hne Hcase.
assert (Hfree : forall i fr, In i (availableMoves M s) ->
          (count_free M s < S fr)%nat ->
          (count_free M (new_status s i) < fr)%nat).
{ intros i fr [Hi Hu]%in_availableMoves Hfr.
  rewrite (count_free_child M s i) in Hfr by assumption. lia. }
destruct Hcase as [[-> (i & Hi%in_candidates & Hu & Hc)]|[Hall Hz']].
- exists (win bm). split; [reflexivity|].
  split; [destruct bm; simpl; auto|].
  intros [|fr] Hfr; [lia|]. apply exhaustive_win.
  + intros j Hj. assert (Hfj := Hfree j fr Hj Hfr).
    apply in_availableMoves in Hj as [Hj Huj]. unfold child.
    destruct (Z.geb_spec (t + j) T).
    { exists (win bm). split; [reflexivity|]. destruct bm; simpl; auto. }
    assert (Hcj := sum_used_child M s j Hj Huj).
    rewrite <- new_status_setbit. apply exhaustive_decisive; try assumption.
    * apply valid_new_status; assumption.
    * lia.
    * intros He. rewrite He, sum_used_all_used in Hcj. lia.
  + exists i. assert (Hin : In i (availableMoves M s))
      by (apply in_availableMoves; auto).
    split; [assumption|]. unfold child.
    destruct (Z.geb_spec (t + i) T); [reflexivity|].
    destruct Hc as [|Hc]; [lia|].
    rewrite <- new_status_setbit. apply Hc. eapply Hfree; eassumption.
- assert (z' = Int (- win bm)) as ->.
  { destruct Hz' as [|[_ Hnone]]; [assumption|].
    exfalso. apply Hne, valid_all_taken; assumption. }
  exists (- win bm). split; [reflexivity|].
  split; [destruct bm; simpl; auto|].
  intros [|fr] Hfr; [lia|]. apply exhaustive_all_same.
  + apply availableMoves_nonempty; assumption.
  + intros j Hj. assert (Hfj := Hfree j fr Hj Hfr).
    apply in_availableMoves in Hj as [Hj Huj].
    destruct (Hall j) as [Hlt Hcv]; [apply in_candidates; assumption | assumption |].
    unfold child. destruct (Z.geb_spec (t + j) T); [lia|].
    rewrite <- new_status_setbit. apply Hcv. assumption.
Qed.

(** When the integers add up to the target, the search called with the
    root's window returns the exhaustive Value of every state but the full
    one, and keeps the memo list exact. *)
Lemma minimax_decisive fuel : forall dp s t bm,
T <= sum_all M -> valid M s -> t = sum_used M s ->
bm = Nat.even (count_used M s) -> s <> all_used M ->
(count_free M s < fuel)%nat -> exact_memo dp ->
exists z dp',
  minimax M T (all_used M) fuel dp s t bm (Int (-1)) (Int 1) = Ok (Int z, dp')
  /\ (z = 1 \/ z = -1) /\ ref_value s t bm z /\ exact_memo dp'.
Proof.
induction fuel as [|fuel IH]; intros dp s t bm Hsum Hv Ht Hbm Hne Hfuel Hex;
  [lia|].
assert (Hs := valid_le M s Hv). assert (Hlen := proj1 Hex).
simpl. unfold minimax_body.
destruct (dp_get_in_range dp s) as [e He]; [lia|]. rewrite He. simpl.
destruct e as [x|].
{ apply dp_get_Ok in He; [|lia].
  apply (proj2 Hex) in He as (z & -> & Hz); [|lia]. rewrite <- Ht, <- Hbm in Hz.
  exists z, dp. split; [reflexivity|]. split; [|split; assumption].
  destruct (exhaustive_decisive M T (S (count_free M s)) s t bm)
    as (z0 & Hz0 & Hr); try assumption; [lia|].
  rewrite Hz in Hz0 by lia. congruence. }
destruct (Z.eqb_spec s (all_used M)) as [|_]; [contradiction|].
assert (Hrec : forall i dp0, In i (range 1 (M + 1)) -> unused s i = true ->
          t + i < T -> exact_memo dp0 ->
          exists z dp1,
            minimax M T (all_used M) fuel dp0 (new_status s i) (t + i)
                    (negb bm) (Int (-1)) (Int 1) = Ok (Int z, dp1)
            /\ (z = 1 \/ z = -1)
            /\ ref_value (new_status s i) (t + i) (negb bm) z
            /\ exact_memo dp1).
{ intros i dp0 Hi%in_candidates Hu Hlt Hex0.
  assert (Hc := sum_used_child M s i Hi Hu). apply IH; try assumption.
  - apply valid_new_status; assumption.
  - lia.
  - rewrite (count_used_child M s i), Nat.even_succ, <- Nat.negb_even
      by assumption. congruence.
  - intros Heq. rewrite Heq, sum_used_all_used in Hc. lia.
  - rewrite (count_free_child M s i) in Hfuel by assumption. lia. }
assert (Hfinish : forall z' dpm init,
          exact_memo dpm ->
          (z' = Int (win bm) /\
           exists i, In i (range 1 (M + 1)) /\ unused s i = true /\
             (T <= t + i \/
              ref_value (new_status s i) (t + i) (negb bm) (win bm)))
          \/ ((forall i, In i (range 1 (M + 1)) -> unused s i = true ->
                 t + i < T /\
                 ref_value (new_status s i) (t + i) (negb bm) (- win bm))
              /\ (z' = Int (- win bm) \/
                  (z' = init /\
                   forall i, In i (range 1 (M + 1)) -> unused s i = false))) ->
          exists z dp',
            Ok (z', <[Z.to_nat s := Some z']> dpm) = Ok (Int z, dp')
            /\ (z = 1 \/ z = -1) /\ ref_value s t bm z /\ exact_memo dp').
{ intros z' dpm init Hexm Hcase.
  destruct (node_value_decisive s t bm z' init) as (z & -> & Hr & Hz);
    try assumption.
  exists z, (<[Z.to_nat s := Some (Int z)]> dpm).
  split; [reflexivity|]. split; [assumption|]. split; [assumption|].
  apply exact_memo_insert; [lia | assumption |]. rewrite <- Ht, <- Hbm.
  assumption. }
destruct bm; [rewrite max_loop_shape | rewrite min_loop_shape].
- destruct (loop_decisive 1 NegInf step_max exact_memo
              (fun i z => ref_value (new_status s i) (t + i) false z)
              (minimax M T (all_used M) fuel) s t true
              (Z.to_nat (all_used M + 1))) with (cands := range 1 (M + 1))
      (value := NegInf) (dp := dp)
    as (z' & dpm & -> & Hexm & Hcase);
    try (assumption || lia || (left; reflexivity)).
  + intros ? [? _]. assumption.
  + apply step_max_lose.
  + apply step_max_win.
  + eapply Hfinish; eassumption.
- destruct (loop_decisive (-1) PosInf step_min exact_memo
              (fun i z => ref_value (new_status s i) (t + i) true z)
              (minimax M T (all_used M) fuel) s t false
              (Z.to_nat (all_used M + 1))) with (cands := range 1 (M + 1))
      (value := PosInf) (dp := dp)
    as (z' & dpm & -> & Hexm & Hcase);
    try (assumption || lia || (left; reflexivity)).
  + intros ? [? _]. assumption.
  + apply step_min_lose.
  + apply step_min_win.
  + intros i dp0 Hi Hu Hlt Hex0.
    destruct (Hrec i dp0 Hi Hu Hlt Hex0) as (z & dp1 & Hrun & Hr & Hz & Hex1).
    exists z, dp1. split; [assumption|]. split; [lia|]. auto.
  + eapply Hfinish; eassumption.
Qed.

(** *** The root call *)

Lemma fresh_dp_length : length (fresh_dp M) = Z.to_nat (all_used M + 1).
Proof. unfold fresh_dp. apply length_replicate. Qed.

Lemma fresh_dp_lookup k x : fresh_dp M !! k = Some (Some x) -> False.
Proof.
unfold fresh_dp. intros [Hx _]%lookup_replicate. discriminate.
Qed.

Lemma fresh_dp_zero : zero_memo (fresh_dp M).
Proof.
split; [apply fresh_dp_length|]. intros k x Hk.
destruct (fresh_dp_lookup k x Hk).
Qed.

Lemma fresh_dp_exact : exact_memo (fresh_dp M).
Proof.
split; [apply fresh_dp_length|]. intros s x _ Hk.
destruct (fresh_dp_lookup _ x Hk).
Qed.

Lemma zero_not_all_used : 1 <= M -> 0 <> all_used M.
Proof.
intros HM He. assert (Hb := all_used_testbit M 1).
rewrite <- He, Z.bits_0 in Hb.
destruct (Z.leb_spec 1 M); [discriminate | lia].
Qed.

Lemma count_free_root fuel :
(Z.to_nat M < fuel)%nat -> (count_free M 0 < fuel)%nat.
Proof. intros Hf. assert (Hle := count_free_le M 0). lia. Qed.

Lemma root_drawn fuel :
sum_all M < T -> (Z.to_nat M < fuel)%nat ->
exists dp', solve_root fuel M T = Ok (Int 0, dp')
            /\ exhaustive M T fuel 0 0 true = Some 0.
Proof.
intros Hsum Hfuel.
destruct (minimax_drawn fuel (fresh_dp M) 0 0 true (Int (-1)) (Int 1))
  as (dp' & Hrun & _);
  auto using valid_zero, count_free_root, fresh_dp_zero.
{ symmetry. apply sum_used_zero. }
exists dp'. split; [exact Hrun|].
apply exhaustive_drawn; auto using valid_zero, count_free_root.
symmetry. apply sum_used_zero.
Qed.

Lemma root_decisive fuel :
1 <= M -> T <= sum_all M -> (Z.to_nat M < fuel)%nat ->
exists z dp', solve_root fuel M T = Ok (Int z, dp')
              /\ (z = 1 \/ z = -1) /\ ref_value 0 0 true z.
Proof.
intros HM Hsum Hfuel.
destruct (minimax_decisive fuel (fresh_dp M) 0 0 true)
  as (z & dp' & Hrun & Hr & Hz & _);
  auto using valid_zero, count_free_root, fresh_dp_exact, zero_not_all_used.
{ symmetry. apply sum_used_zero. }
{ rewrite count_used_zero. reflexivity. }
exists z, dp'. auto.
Qed.

(** The root Value is the exhaustive one. *)
Lemma root_exact fuel :
1 <= M -> (Z.to_nat M < fuel)%nat ->
exists z dp', solve_root fuel M T = Ok (Int z, dp')
              /\ exhaustive M T fuel 0 0 true = Some z.
Proof.
intros HM Hfuel. destruct (Z_le_gt_dec T (sum_all M)) as [Hsum|Hsum].
- destruct (root_decisive fuel HM Hsum Hfuel) as (z & dp' & Hrun & _ & Hz).
  exists z, dp'. split; [assumption|]. apply Hz, count_free_root, Hfuel.
- destruct (root_drawn fuel) as (dp' & Hrun & Href); [lia | assumption |].
  exists 0, dp'. auto.
Qed.

Lemma max_le_sum_all : 1 <= M -> M <= sum_all M.
Proof.
intros HM. assert (Hu : unused 0 M = true).
{ rewrite unused_spec, Z.bits_0 by lia. reflexivity. }
assert (Hc := sum_used_child M 0 M (conj HM (Z.le_refl M)) Hu).
rewrite sum_used_zero in Hc. assert (Hle := sum_used_le M (new_status 0 M)).
lia.
Qed.

(** A target within reach of one pick is a win for the player to move. *)
Lemma root_small_target fuel :
1 <= M -> T <= M -> (Z.to_nat M < fuel)%nat ->
exists dp', solve_root fuel M T = Ok (Int 1, dp').
Proof.
intros HM HT Hfuel. assert (Hsum := max_le_sum_all HM).
destruct (root_decisive fuel HM) as (z & dp' & Hrun & _ & Hz);
  [lia | assumption |].
destruct (node_value_decisive 0 0 true (Int 1) NegInf)
  as (z1 & Heq & _ & Hz1);
  auto using valid_zero, zero_not_all_used; [lia | symmetry; apply sum_used_zero | |].
{ left. split; [reflexivity|]. exists M. split; [apply in_candidates; lia|].
  split; [rewrite unused_spec, Z.bits_0 by lia; reflexivity | left; lia]. }
injection Heq as <-.
assert (Hf := count_free_root _ Hfuel).
specialize (Hz _ Hf). specialize (Hz1 _ Hf).
assert (z = 1) as -> by congruence.
exists dp'. assumption.
Qed.

End Exactness.

(** ** The arguments of every call are determined by its status *)

Lemma asserting_agrees M T A fuel : forall dp s t bm alpha beta,
t = sum_used M s -> bm = Nat.even (count_used M s) ->
minimax_asserting M T A fuel dp s t bm alpha beta
= minimax M T A fuel dp s t bm alpha beta.
Proof.
induction fuel as [|fuel IH]; intros dp s t bm alpha beta Ht Hbm;
  [reflexivity|].
simpl. rewrite <- Ht, <- Hbm, Z.eqb_refl, eqb_reflx. simpl.
unfold minimax_body. destruct (dp_get dp s) as [[x|]| |]; simpl; try reflexivity.
destruct (s =? A); [reflexivity|].
assert (Hch : forall i dp0 a b, In i (range 1 (M + 1)) -> unused s i = true ->
          t + i < T ->
          minimax_asserting M T A fuel dp0 (new_status s i) (t + i) (negb bm) a b
          = minimax M T A fuel dp0 (new_status s i) (t + i) (negb bm) a b).
{ intros i dp0 a b Hi%in_candidates Hu _. apply IH.
  - rewrite (sum_used_child M s i) by assumption. congruence.
  - rewrite (count_used_child M s i), Nat.even_succ, <- Nat.negb_even
      by assumption. congruence. }
destruct bm; rewrite ?max_loop_shape, ?min_loop_shape; apply loop_ext;
  assumption.
Qed.

(** ** The claims about the number-selection game *)

(** C1: for every valid input ([maxChoosableInteger >= 1], any
    [desiredTotal]) the root call of the pruned, memoized search returns,
    and the Value it returns is the one the exhaustive minimax without
    pruning and without memo table computes on the same root state. *)
Theorem pruned_root_value_is_exhaustive (M T : Z) (fuel : nat) :
1 <= M -> (Z.to_nat M < fuel)%nat ->
exists z dp', solve_root fuel M T = Ok (Int z, dp')
              /\ exhaustive M T fuel 0 0 true = Some z.
Proof. apply root_exact. Qed.

Lemma pruned_root_value_is_exhaustive_witness :
1 <= 4 /\ (Z.to_nat 4 < 5)%nat /\
exists z dp', solve_root 5 4 6 = Ok (Int z, dp')
              /\ exhaustive 4 6 5 0 0 true = Some z.
Proof.
split; [lia|]. split; [simpl; lia|].
apply (pruned_root_value_is_exhaustive 4 6 5); [lia | simpl; lia].
Defined.

(** C2, as the code has it: with [maxChoosableInteger = 10] and
    [desiredTotal = 11] the root call [minimax(0, 0, True, -1, 1)]
    evaluates to -1 and [canIWin] returns [False]: whatever the first
    player picks, the second player reaches 11 with the next pick. *)
Theorem canIWin_10_11_is_False (fuel : nat) :
(10 < fuel)%nat ->
canIWin fuel 10 11 = Ok false /\
exists dp', solve_root fuel 10 11 = Ok (Int (-1), dp').
Proof.
intros Hfuel.
destruct (root_decisive 10 11 fuel) as (z & dp' & Hrun & _ & Hz);
  [lia | vm_compute; discriminate | simpl; lia |].
assert (Hz11 : exhaustive 10 11 11 0 0 true = Some z).
{ apply Hz. assert (Hle := count_free_le 10 0). simpl in Hle. lia. }
assert (z = -1) as -> by (vm_compute in Hz11; congruence).
split; [|exists dp'; assumption].
unfold canIWin. rewrite Hrun. reflexivity.
Qed.

Lemma canIWin_10_11_is_False_witness :
(10 < 11)%nat /\
(canIWin 11 10 11 = Ok false /\
 exists dp', solve_root 11 10 11 = Ok (Int (-1), dp')).
Proof. split; [lia | apply (canIWin_10_11_is_False 11); lia]. Defined.

(** C2 as stated fails: [canIWin(10, 11)] returns [False]. *)
Lemma canIWin_10_11_returns_False : canIWin 11 10 11 = Ok false.
Proof. vm_compute. reflexivity. Qed.

(** C4, as the code has it: called on the terminal status [allUsed] while
    that key is unbound, [minimax] returns the draw Value 0 and leaves the
    memo list as it was; the draw is not stored. *)
Theorem terminal_returns_draw_unstored (M T : Z) (fuel : nat) (dp : memo)
  (t : Z) (bm : bool) (alpha beta : num) :
dp_get dp (all_used M) = Ok None ->
minimax M T (all_used M) (S fuel) dp (all_used M) t bm alpha beta
= Ok (Int 0, dp).
Proof.
intros Hget. simpl. unfold minimax_body. rewrite Hget. simpl.
rewrite Z.eqb_refl. reflexivity.
Qed.

Lemma terminal_returns_draw_unstored_witness :
dp_get (fresh_dp 2) (all_used 2) = Ok None /\
minimax 2 50 (all_used 2) 1 (fresh_dp 2) (all_used 2) 3 true (Int 0) (Int 1)
= Ok (Int 0, fresh_dp 2).
Proof.
split; [reflexivity|].
apply (terminal_returns_draw_unstored 2 50 0 (fresh_dp 2) 3 true (Int 0) (Int 1)).
reflexivity.
Defined.

(** C4 as stated fails: in the game with the integers 1 and 2 and the
    target 50, the call on the terminal status returns the draw and the
    memo list it leaves has nothing under that status. *)
Lemma terminal_draw_is_not_stored :
minimax 2 50 (all_used 2) 1 (fresh_dp 2) (all_used 2) 3 true (Int 0) (Int 1)
= Ok (Int 0, fresh_dp 2)
/\ dp_get (fresh_dp 2) (all_used 2) = Ok None.
Proof. split; vm_compute; reflexivity. Qed.

(** C8: the recursion terminates for every valid input.  The status of a
    recursive call has one more used integer than its caller's, so with
    more fuel than [maxChoosableInteger], that is with the depth of the
    recursion let go to [maxChoosableInteger], every call on a status of
    the game returns, and so does [canIWin]. *)
Theorem minimax_terminates_on_valid_input (M T : Z) (fuel : nat) :
1 <= M -> (Z.to_nat M < fuel)%nat ->
(forall s i, 1 <= i <= M -> unused s i = true ->
   count_used M (new_status s i) = S (count_used M s)) /\
(forall dp s t bm alpha beta,
   valid M s -> length dp = Z.to_nat (all_used M + 1) ->
   exists v dp', minimax M T (all_used M) fuel dp s t bm alpha beta
                 = Ok (v, dp')) /\
(exists b, canIWin fuel M T = Ok b).
Proof.
intros HM Hfuel. split; [|split].
- intros s i. apply count_used_child.
- intros dp s t bm alpha beta Hv Hlen.
  destruct (minimax_terminates M T fuel dp s t bm alpha beta)
    as (v & dp' & Hrun & _); [assumption | | assumption | eauto].
  assert (Hle := count_free_le M s). lia.
- destruct (minimax_terminates M T fuel (fresh_dp M) 0 0 true (Int (-1)) (Int 1))
    as (v & dp' & Hrun & _).
  + apply valid_zero.
  + apply count_free_root. assumption.
  + apply fresh_dp_length.
  + exists (num_eqb v (Int 1)). unfold canIWin, solve_root. rewrite Hrun.
    reflexivity.
Qed.

Lemma minimax_terminates_on_valid_input_witness :
1 <= 5 /\ (Z.to_nat 5 < 6)%nat /\
((forall s i, 1 <= i <= 5 -> unused s i = true ->
    count_used 5 (new_status s i) = S (count_used 5 s)) /\
 (forall dp s t bm alpha beta,
    valid 5 s -> length dp = Z.to_nat (all_used 5 + 1) ->
    exists v dp', minimax 5 50 (all_used 5) 6 dp s t bm alpha beta
                  = Ok (v, dp')) /\
 (exists b, canIWin 6 5 50 = Ok b)).
Proof.
split; [lia|]. split; [simpl; lia|].
apply (minimax_terminates_on_valid_input 5 50 6); [lia | simpl; lia].
Defined.

(** C9: in every call reachable from the root call of [canIWin],
    [currentTotal] is the sum of the integers whose bit is set in [status]
    and [isMaxPlayer] says whether their number is even, so that the memo
    key [status] determines the position: the search with that condition
    asserted at the head of every call returns what the search returns. *)
Theorem arguments_determined_by_status (M T : Z) (fuel : nat) :
1 <= M -> (Z.to_nat M < fuel)%nat ->
exists v dp',
  solve_root fuel M T = Ok (v, dp') /\
  minimax_asserting M T (all_used M) fuel (fresh_dp M) 0 0 true
                    (Int (-1)) (Int 1) = Ok (v, dp').
Proof.
intros HM Hfuel.
destruct (minimax_terminates M T fuel (fresh_dp M) 0 0 true (Int (-1)) (Int 1))
  as (v & dp' & Hrun & _).
- apply valid_zero.
- apply count_free_root. assumption.
- apply fresh_dp_length.
- exists v, dp'. split; [exact Hrun|]. rewrite asserting_agrees; [exact Hrun | |].
  + symmetry. apply sum_used_zero.
  + rewrite count_used_zero. reflexivity.
Qed.

Lemma arguments_determined_by_status_witness :
1 <= 4 /\ (Z.to_nat 4 < 5)%nat /\
exists v dp',
  solve_root 5 4 6 = Ok (v, dp') /\
  minimax_asserting 4 6 (all_used 4) 5 (fresh_dp 4) 0 0 true
                    (Int (-1)) (Int 1) = Ok (v, dp').
Proof.
split; [lia|]. split; [simpl; lia|].
apply (arguments_determined_by_status 4 6 5); [lia | simpl; lia].
Defined.

(** C10: for every [maxChoosableInteger >= 1], whenever
    [desiredTotal <= maxChoosableInteger] (also when [desiredTotal <= 0]),
    [canIWin] returns [True]. *)
Theorem canIWin_small_target (M T : Z) (fuel : nat) :
1 <= M -> T <= M -> (Z.to_nat M < fuel)%nat ->
canIWin fuel M T = Ok true.
Proof.
intros HM HT Hfuel.
destruct (root_small_target M T fuel HM HT Hfuel) as (dp' & Hrun).
unfold canIWin. rewrite Hrun. reflexivity.
Qed.

Lemma canIWin_small_target_witness :
1 <= 6 /\ 4 <= 6 /\ (Z.to_nat 6 < 7)%nat /\ canIWin 7 6 4 = Ok true.
Proof.
split; [lia|]. split; [lia|]. split; [simpl; lia|].
apply (canIWin_small_target 6 4 7); [lia | lia | simpl; lia].
Defined.

End CanIWinFacts.

(** * Properties of the placement game *)

Module PlannedFacts.

Import Planned.

(** ** Loops *)

Lemma for_each_seq_from {S : Type} (P : nat -> S -> Prop) n body : forall a st,
P a st ->
(forall k st0, (a <= k < a + n)%nat -> P k st0 ->
   exists st1, body st0 k = Ok st1 /\ P (Datatypes.S k) st1) ->
exists st', for_each (seq a n) body st = Ok st' /\ P (a + n)%nat st'.
Proof.
induction n as [|n IH]; intros a st Hst Hbody; simpl.
- exists st. rewrite Nat.add_0_r. auto.
- destruct (Hbody a st) as (st1 & -> & Hst1); [lia | assumption |]. simpl.
  destruct (IH (Datatypes.S a) st1) as (st' & Hrun & Hst'); [assumption | |].
  + intros k st0 Hk. apply Hbody. lia.
  + exists st'. split; [assumption|].
    replace (a + Datatypes.S n)%nat with (Datatypes.S a + n)%nat by lia.
    assumption.
Qed.

(** A loop over [range(n)] that keeps an invariant indexed by the number
    of rounds done. *)
Lemma for_each_range {S : Type} (P : nat -> S -> Prop) n body st :
P O st ->
(forall k st0, (k < n)%nat -> P k st0 ->
   exists st1, body st0 k = Ok st1 /\ P (Datatypes.S k) st1) ->
exists st', for_each (seq 0 n) body st = Ok st' /\ P n st'.
Proof.
intros Hst Hbody.
apply (for_each_seq_from P n body 0 st Hst).
intros k st0 Hk. apply Hbody. lia.
Qed.

(** ** Rotation *)

Section Rotation.

Context {cell : Type}.
Variable AVAILABLE : cell.

Lemma square_row N (s : list (list cell)) r row :
square N s -> s !! r = Some row -> length row = N.
Proof.
intros [_ Hrows] Hrow.
exact (Forall_lookup_1 (fun row => length row = N) s r row Hrows Hrow).
Qed.

Lemma square_get2 N (s : list (list cell)) r c :
square N s -> (r < N)%nat -> (c < N)%nat -> exists x, get2 s r c = Ok x.
Proof.
intros Hs Hr Hc. assert (Hlen := proj1 Hs). unfold get2.
destruct (lookup_lt_is_Some_2 s r) as [row Hrow]; [lia|]. rewrite Hrow.
assert (Hl := square_row N s r row Hs Hrow).
destruct (lookup_lt_is_Some_2 row c) as [x Hx]; [lia|]. rewrite Hx. eauto.
Qed.

(** [board[i][j] = x] on a grid changes that cell and no other. *)
Lemma square_set2 N (b : list (list cell)) i j x :
square N b -> (i < N)%nat -> (j < N)%nat ->
exists b', set2 b i j x = Ok b' /\ square N b' /\
  get2 b' i j = Ok x /\
  forall i' j', (i', j') <> (i, j) -> get2 b' i' j' = get2 b i' j'.
Proof.
intros Hb Hi Hj. assert (Hl := fun row => square_row N b i row Hb).
destruct Hb as [Hlen Hrows]. unfold set2.
destruct (lookup_lt_is_Some_2 b i) as [row Hrow]; [lia|]. rewrite Hrow.
specialize (Hl row Hrow).
destruct (decide (j < length row)%nat); [|lia].
eexists. split; [reflexivity|]. split; [|split].
- split; [rewrite length_insert; assumption|].
  apply Forall_insert; [assumption|]. rewrite length_insert. assumption.
- unfold get2. rewrite list_lookup_insert_eq by lia.
  rewrite list_lookup_insert_eq by lia. reflexivity.
- intros i' j' Hne. unfold get2.
  destruct (decide (i' = i)) as [->|Hi'].
  + rewrite list_lookup_insert_eq by lia. rewrite Hrow.
    rewrite list_lookup_insert_ne by congruence. reflexivity.
  + rewrite list_lookup_insert_ne by congruence. reflexivity.
Qed.

Lemma square_ext N (a b : list (list cell)) :
square N a -> square N b ->
(forall i j, (i < N)%nat -> (j < N)%nat -> get2 a i j = get2 b i j) ->
a = b.
Proof.
intros Ha0 Hb0 Hcells. assert (Hla := proj1 Ha0). assert (Hlb := proj1 Hb0).
apply list_eq. intros i.
destruct (decide (i < N)%nat) as [Hi|Hi].
2:{ rewrite !lookup_ge_None_2 by lia. reflexivity. }
destruct (lookup_lt_is_Some_2 a i) as [ra Ha]; [lia|].
destruct (lookup_lt_is_Some_2 b i) as [rb Hb]; [lia|].
rewrite Ha, Hb. f_equal.
assert (Hlra := square_row N a i ra Ha0 Ha).
assert (Hlrb := square_row N b i rb Hb0 Hb).
apply list_eq. intros j.
destruct (decide (j < N)%nat) as [Hj|Hj].
2:{ rewrite !lookup_ge_None_2 by lia. reflexivity. }
specialize (Hcells i j Hi Hj). unfold get2 in Hcells. rewrite Ha, Hb in Hcells.
destruct (lookup_lt_is_Some_2 ra j) as [x Hx]; [lia|].
destruct (lookup_lt_is_Some_2 rb j) as [y Hy]; [lia|].
rewrite Hx, Hy in *. congruence.
Qed.

Lemma square_blank N : square N (replicate N (replicate N AVAILABLE)).
Proof.
split; [apply length_replicate|]. apply Forall_replicate, length_replicate.
Qed.

(** The final conversion of the list of rows to a tuple of tuples. *)
Lemma rows_to_tuple (b : list (list cell)) :
for_each (seq 0 (length b)) (fun rows i =>
  match b !! i with
  | Some row => Ok (rows ++ [row])
  | None => Raise IndexError
  end) [] = Ok b.
Proof.
destruct (for_each_range (fun k rows => rows = take k b) (length b)
            (fun rows i => match b !! i with
                           | Some row => Ok (rows ++ [row])
                           | None => Raise IndexError
                           end) [])
  as (rows & -> & Hrows).
- reflexivity.
- intros k rows Hk ->.
  destruct (lookup_lt_is_Some_2 b k) as [row Hrow]; [lia|]. rewrite Hrow.
  eexists. split; [reflexivity|]. symmetry. apply take_S_r. assumption.
- rewrite Hrows, take_ge by lia. reflexivity.
Qed.

(** [rotate] on a grid: the result is a grid, and the cell [(r, c)] of the
    argument is the cell [(c, N-1-r)] of the result. *)
Lemma rotate_square N (s : list (list cell)) :
square N s ->
exists s', rotate AVAILABLE s = Ok s' /\ square N s' /\
  forall r c, (r < N)%nat -> (c < N)%nat ->
    get2 s' c (N - 1 - r) = get2 s r c.
Proof.
intros Hs. assert (Hlen := proj1 Hs). unfold rotate. rewrite Hlen.
pose (inner := fun r (b : list (list cell)) (c : nat) =>
                 x ← get2 s r c; set2 b c (N - 1 - r) x).
destruct (for_each_range
            (fun r b => square N b /\
               forall r' c', (r' < r)%nat -> (c' < N)%nat ->
                 get2 b c' (N - 1 - r') = get2 s r' c')
            N (fun b r => for_each (seq 0 N) (inner r) b)
            (replicate N (replicate N AVAILABLE)))
  as (b & Hrun & Hb & Hcells).
- split; [apply square_blank|]. intros r' c' Hr'. lia.
- intros r b Hr [Hb Hdone].
  destruct (for_each_range
              (fun c b' => square N b' /\
                 forall r' c', (r' < N)%nat -> (c' < N)%nat ->
                   (r' < r \/ (r' = r /\ c' < c))%nat ->
                   get2 b' c' (N - 1 - r') = get2 s r' c')
              N (inner r) b)
    as (b' & Hrun' & Hb' & Hcells').
  + split; [assumption|]. intros r' c' Hr' Hc' [Hlt|[_ Hlt]]; [|lia].
    apply Hdone; assumption.
  + intros c b0 Hc [Hb0 Hdone0]. unfold inner.
    destruct (square_get2 N s r c Hs Hr Hc) as [x Hx]. rewrite Hx. simpl.
    destruct (square_set2 N b0 c (N - 1 - r) x Hb0 Hc)
      as (b1 & -> & Hb1 & Hnew & Hold); [lia|].
    eexists. split; [reflexivity|]. split; [assumption|].
    intros r' c' Hr' Hc' Hcase.
    destruct (decide (r' = r /\ c' = c)) as [[-> ->]|Hne].
    * rewrite Hnew, Hx. reflexivity.
    * rewrite Hold; [apply Hdone0; [assumption | assumption | lia]|].
      intros [= -> Heq]. apply Hne. split; [lia | reflexivity].
  + exists b'. split; [assumption|]. split; [assumption|].
    intros r' c' Hr' Hc'. apply Hcells'; lia.
- unfold inner in Hrun. cbv beta in Hrun. rewrite Hrun. simpl.
  exists b. split; [|split; [assumption|]].
  + rewrite <- (proj1 Hb) at 1. apply rows_to_tuple.
  + intros r c Hr Hc. apply Hcells; assumption.
Qed.

(** Rotating a grid four times gives the grid back. *)
Lemma rotate_four_times N (s : list (list cell)) :
square N s ->
exists s1 s2 s3,
  rotate AVAILABLE s = Ok s1 /\ rotate AVAILABLE s1 = Ok s2 /\
  rotate AVAILABLE s2 = Ok s3 /\ rotate AVAILABLE s3 = Ok s.
Proof.
intros Hs.
destruct (rotate_square N s Hs) as (s1 & Hr1 & Hs1 & Hc1).
destruct (rotate_square N s1 Hs1) as (s2 & Hr2 & Hs2 & Hc2).
destruct (rotate_square N s2 Hs2) as (s3 & Hr3 & Hs3 & Hc3).
destruct (rotate_square N s3 Hs3) as (s4 & Hr4 & Hs4 & Hc4).
exists s1, s2, s3. split; [assumption|]. split; [assumption|].
split; [assumption|]. rewrite Hr4. f_equal.
apply (square_ext N); [assumption | assumption |].
intros i j Hi Hj.
specialize (Hc4 (N - 1 - j)%nat i). specialize (Hc3 (N - 1 - i)%nat (N - 1 - j)%nat).
specialize (Hc2 j (N - 1 - i)%nat). specialize (Hc1 i j).
replace (N - 1 - (N - 1 - j))%nat with j in * by lia.
replace (N - 1 - (N - 1 - i))%nat with i in * by lia.
rewrite Hc4, Hc3, Hc2, Hc1 by lia. reflexivity.
Qed.

End Rotation.

(** ** The memo dictionary *)

Section Dictionary.

Context {cell : Type} `{Countable cell}.
Variable AVAILABLE : cell.

Lemma similarStatus_unfold (s : list (list cell)) :
similarStatus AVAILABLE s =
(s1 ← rotate AVAILABLE s; s2 ← rotate AVAILABLE s1;
 s3 ← rotate AVAILABLE s2; s4 ← rotate AVAILABLE s3; Ok [s1; s2; s3; s4]).
Proof.
unfold similarStatus. cbn [for_each seq mbind res_bind].
destruct (rotate AVAILABLE s) as [s1| |]; cbn [mbind res_bind app];
  [|reflexivity..].
destruct (rotate AVAILABLE s1) as [s2| |]; cbn [mbind res_bind app];
  [|reflexivity..].
destruct (rotate AVAILABLE s2) as [s3| |]; cbn [mbind res_bind app];
  [|reflexivity..].
destruct (rotate AVAILABLE s3) as [s4| |]; reflexivity.
Qed.

Lemma similarStatus_Ok (s : list (list cell)) ks :
similarStatus AVAILABLE s = Ok ks <->
exists s1 s2 s3 s4,
  rotate AVAILABLE s = Ok s1 /\ rotate AVAILABLE s1 = Ok s2 /\
  rotate AVAILABLE s2 = Ok s3 /\ rotate AVAILABLE s3 = Ok s4 /\
  ks = [s1; s2; s3; s4].
Proof.
rewrite similarStatus_unfold. split.
- destruct (rotate AVAILABLE s) as [s1| |] eqn:E1; try discriminate.
  cbn [mbind res_bind].
  destruct (rotate AVAILABLE s1) as [s2| |] eqn:E2; try discriminate.
  cbn [mbind res_bind].
  destruct (rotate AVAILABLE s2) as [s3| |] eqn:E3; try discriminate.
  cbn [mbind res_bind].
  destruct (rotate AVAILABLE s3) as [s4| |] eqn:E4; try discriminate.
  cbn [mbind res_bind].
  intros [= <-]. exists s1, s2, s3, s4. auto.
- intros (s1 & s2 & s3 & s4 & E1 & E2 & E3 & E4 & ->).
  rewrite E1. cbn [mbind res_bind]. rewrite E2. cbn [mbind res_bind].
  rewrite E3. cbn [mbind res_bind]. rewrite E4. reflexivity.
Qed.

(** The guarded stores of [updateDP]: a key that is bound stays as it is,
    a key that is not is bound to [result]. *)
Lemma guarded_stores (result : pyval) ks : forall dp : gmap (list (list cell)) pyval,
exists dp',
  for_each ks (fun dpMap s =>
    match dpMap !! s with
    | Some _ => Ok dpMap
    | None => Ok (<[s := result]> dpMap)
    end) dp = Ok dp'
  /\ dp ⊆ dp'
  /\ (forall k, In k ks -> is_Some (dp' !! k))
  /\ (forall k v, dp' !! k = Some v ->
        dp !! k = Some v \/ (In k ks /\ v = result)).
Proof.
induction ks as [|s ks IH]; intros dp; simpl.
- exists dp. split; [reflexivity|]. split; [reflexivity|].
  split; [intros ? []|auto].
- destruct (dp !! s) as [v|] eqn:Es; simpl.
  + destruct (IH dp) as (dp' & -> & Hsub & Hin & Hfrom).
    exists dp'. split; [reflexivity|]. split; [assumption|]. split.
    * intros k [<-|Hk]; [|apply Hin; assumption].
      exists v. eapply lookup_weaken; eassumption.
    * intros k x Hk. apply Hfrom in Hk as [Hk|[Hk ->]]; auto.
  + destruct (IH (<[s := result]> dp)) as (dp' & -> & Hsub & Hin & Hfrom).
    exists dp'. split; [reflexivity|]. split; [|split].
    * etransitivity; [|exact Hsub]. apply insert_subseteq. assumption.
    * intros k [<-|Hk]; [|apply Hin; assumption].
      exists result. eapply lookup_weaken; [|exact Hsub].
      apply lookup_insert_eq.
    * intros k v Hk. apply Hfrom in Hk as [Hk|[Hk ->]]; [|auto].
      destruct (decide (s = k)) as [->|Hne].
      -- rewrite lookup_insert_eq in Hk. right. split; [auto | congruence].
      -- rewrite lookup_insert_ne in Hk by assumption. auto.
Qed.

Lemma updateDP_Ok dp status result dp' :
updateDP AVAILABLE dp status result = Ok dp' ->
exists ks, similarStatus AVAILABLE status = Ok ks
  /\ dp ⊆ dp'
  /\ (forall k, In k ks -> is_Some (dp' !! k))
  /\ (forall k v, dp' !! k = Some v ->
        dp !! k = Some v \/ (In k ks /\ v = result)).
Proof.
unfold updateDP.
destruct (similarStatus AVAILABLE status) as [ks| |] eqn:Eks; simpl;
  try discriminate.
destruct (guarded_stores result ks dp) as (dp1 & -> & Hsub & Hin & Hfrom).
intros [= <-]. exists ks. auto.
Qed.

(** The four keys of a grid: its three proper rotations and itself. *)
Lemma similarStatus_cycle (N : nat) (s : list (list cell)) ks :
square N s -> similarStatus AVAILABLE s = Ok ks ->
exists s1 s2 s3,
  ks = [s1; s2; s3; s] /\
  rotate AVAILABLE s = Ok s1 /\ rotate AVAILABLE s1 = Ok s2 /\
  rotate AVAILABLE s2 = Ok s3 /\ rotate AVAILABLE s3 = Ok s.
Proof.
intros Hs (s1 & s2 & s3 & s4 & H1 & H2 & H3 & H4 & ->)%similarStatus_Ok.
destruct (rotate_four_times AVAILABLE N s Hs)
  as (t1 & t2 & t3 & G1 & G2 & G3 & G4).
assert (t1 = s1) as -> by congruence.
assert (t2 = s2) as -> by congruence.
assert (t3 = s3) as -> by congruence.
assert (s4 = s) as -> by congruence.
exists s1, s2, s3. auto 10.
Qed.

(** With the bound keys closed under rotation, one bound key among the
    four of a grid means that all four are bound. *)
Lemma one_key_all_keys (N : nat) (dp : gmap (list (list cell)) pyval)
  (s : list (list cell)) (ks : list (list (list cell))) :
square N s -> similarStatus AVAILABLE s = Ok ks ->
rotation_closed AVAILABLE dp ->
(exists k, In k ks /\ is_Some (dp !! k)) ->
forall k, In k ks -> is_Some (dp !! k).
Proof.
intros Hs Hks Hcl (k0 & Hk0 & Hb).
destruct (similarStatus_cycle N s ks Hs Hks)
  as (s1 & s2 & s3 & -> & H1 & H2 & H3 & H4).
assert (Hstep : forall a b, rotate AVAILABLE a = Ok b ->
                  is_Some (dp !! a) -> is_Some (dp !! b))
  by (intros a b Hr Ha; exact (Hcl a b Ha Hr)).
assert (Hall : is_Some (dp !! s1) /\ is_Some (dp !! s2)
               /\ is_Some (dp !! s3) /\ is_Some (dp !! s)).
{ simpl in Hk0. destruct Hk0 as [<-|[<-|[<-|[<-|[]]]]].
  - assert (B2 := Hstep _ _ H2 Hb). assert (B3 := Hstep _ _ H3 B2).
    assert (B4 := Hstep _ _ H4 B3). auto.
  - assert (B3 := Hstep _ _ H3 Hb). assert (B4 := Hstep _ _ H4 B3).
    assert (B1 := Hstep _ _ H1 B4). auto.
  - assert (B4 := Hstep _ _ H4 Hb). assert (B1 := Hstep _ _ H1 B4).
    assert (B2 := Hstep _ _ H2 B1). auto.
  - assert (B1 := Hstep _ _ H1 Hb). assert (B2 := Hstep _ _ H2 B1).
    assert (B3 := Hstep _ _ H3 B2). auto. }
destruct Hall as (B1 & B2 & B3 & B4).
intros k Hk. simpl in Hk. destruct Hk as [<-|[<-|[<-|[<-|[]]]]]; assumption.
Qed.

(** [updateDP] on a grid keeps the bound keys closed under rotation. *)
Lemma updateDP_closed (N : nat) (dp : gmap (list (list cell)) pyval)
  (status : list (list cell)) result dp' :
square N status ->
updateDP AVAILABLE dp status result = Ok dp' ->
rotation_closed AVAILABLE dp -> rotation_closed AVAILABLE dp'.
Proof.
intros Hs (ks & Hks & Hsub & Hall & Hfrom)%updateDP_Ok Hcl k k' [v Hk] Hrot.
apply Hfrom in Hk as [Hk|[Hk _]].
- destruct (Hcl k k') as [v' Hv']; [eauto | assumption |].
  exists v'. eapply lookup_weaken; eassumption.
- destruct (similarStatus_cycle N status ks Hs Hks)
    as (s1 & s2 & s3 & -> & H1 & H2 & H3 & H4).
  apply Hall. simpl in Hk. simpl.
  destruct Hk as [<-|[<-|[<-|[<-|[]]]]].
  + right. left. congruence.
  + right. right. left. congruence.
  + right. right. right. left. congruence.
  + left. congruence.
Qed.

Lemma first_hit_None (dp : gmap (list (list cell)) pyval) ks :
first_hit dp ks = None <-> forall k, In k ks -> dp !! k = None.
Proof.
induction ks as [|s ks IH]; simpl.
- split; [intros _ ? [] | reflexivity].
- destruct (dp !! s) eqn:Es.
  + split; [discriminate|]. intros Hall. rewrite Hall in Es by auto.
    discriminate.
  + rewrite IH. split.
    * intros Hall k [<-|Hk]; auto.
    * intros Hall k Hk. apply Hall. auto.
Qed.

Lemma first_hit_Some (dp : gmap (list (list cell)) pyval) ks v :
first_hit dp ks = Some v -> exists k, In k ks /\ dp !! k = Some v.
Proof.
induction ks as [|s ks IH]; simpl; [discriminate|].
destruct (dp !! s) eqn:Es.
- intros [= <-]. exists s. auto.
- intros (k & Hk & Hv)%IH. exists k. auto.
Qed.

End Dictionary.

(** ** The search *)

Section Search.

Context {cell : Type} `{Countable cell}.
Variable AVAILABLE : cell.
Context {game player pos : Type} `{EqDecision player}.
Variable PLAYER_A : player.
Variable getStatus : game -> list (list cell).
Variable gameOver : game -> bool.
Variable currentPlayer : game -> player.
Variable getAvailablePositions : game -> list pos.
Variable move : game -> pos -> game * option Z.
Variable undo : game -> game.

Local Abbreviation self' := (@self cell _ _ game).
Local Abbreviation search' := (@search cell _ _ game).
Local Abbreviation minimax' :=
  (minimax AVAILABLE PLAYER_A getStatus gameOver currentPlayer
           getAvailablePositions move undo).
Local Abbreviation action' :=
  (action PLAYER_A getStatus gameOver currentPlayer
          getAvailablePositions move undo).
Local Abbreviation loop' := (search_loop AVAILABLE gameOver move undo).
Local Abbreviation play' := (play (cell := cell) gameOver move undo).
Local Abbreviation playable' :=
  (playable getStatus gameOver getAvailablePositions move undo).

Lemma max_search_shape rec thisState positions ret st :
max_search AVAILABLE gameOver move undo rec thisState positions ret st
= loop' (Int 1) py_max rec thisState positions ret st.
Proof.
revert ret st. induction positions as [|p rest IH]; intros ret st; simpl;
  [reflexivity|].
destruct (play' rec st p) as [[result st1]| |]; simpl; try reflexivity.
destruct (as_num result) as [r| |]; simpl; try reflexivity.
unfold num_eqb. destruct (bool_decide (py_max ret r = Int 1)) eqn:E.
- reflexivity.
- apply IH.
Qed.

Lemma min_search_shape rec thisState positions ret st :
min_search AVAILABLE gameOver move undo rec thisState positions ret st
= loop' (Int (-1)) py_min rec thisState positions ret st.
Proof.
revert ret st. induction positions as [|p rest IH]; intros ret st; simpl;
  [reflexivity|].
destruct (play' rec st p) as [[result st1]| |]; simpl; try reflexivity.
destruct (as_num result) as [r| |]; simpl; try reflexivity.
unfold num_eqb. destruct (bool_decide (py_min ret r = Int (-1))) eqn:E.
- reflexivity.
- apply IH.
Qed.

Lemma updateDP_sound dp thisState n dp' :
updateDP AVAILABLE dp thisState (Number n) = Ok dp' ->
dp ⊆ dp' /\ (numeric dp -> numeric dp').
Proof.
intros (ks & _ & Hsub & _ & Hfrom)%updateDP_Ok. split; [assumption|].
intros Hnum k v Hk.
apply Hfrom in Hk as [Hk|[_ ->]]; [eapply Hnum; eassumption|]. eauto.
Qed.

Lemma play_sound (rec : search') st p v st1 :
(forall st0 v0 st0', rec st0 = Ok (v0, st0') -> sound_call st0 v0 st0') ->
play' rec st p = Ok (v, st1) -> sound_call st v st1.
Proof.
intros Hrec. unfold play. destruct (move (self_game st) p) as [g1 [z|]].
- simpl. intros [= <- <-]. split; [reflexivity|]. simpl. eauto.
- destruct (gameOver g1); [discriminate|].
  destruct (rec _) as [[r st']| |] eqn:Er; simpl; try discriminate.
  intros [= <- <-]. apply Hrec in Er. exact Er.
Qed.

Lemma search_loop_sound stop pick (rec : search') thisState positions :
(forall st0 v0 st0', rec st0 = Ok (v0, st0') -> sound_call st0 v0 st0') ->
forall ret st v st',
loop' stop pick rec thisState positions ret st = Ok (v, st') ->
sound_call st v st'.
Proof.
intros Hrec. induction positions as [|p rest IH]; intros ret st v st'; simpl.
- destruct (updateDP _ _ _ _) as [dp| |] eqn:Eu; simpl; try discriminate.
  intros [= <- <-]. apply updateDP_sound in Eu as [Hsub Hnum].
  split; [assumption|]. simpl. eauto.
- destruct (play' rec st p) as [[result st1]| |] eqn:Ep; simpl;
    try discriminate.
  apply play_sound in Ep as [Hsub1 Hnum1]; [|assumption].
  destruct (as_num result) as [r| |]; simpl; try discriminate.
  destruct (num_eqb (pick ret r) stop).
  + destruct (updateDP _ _ _ _) as [dp| |] eqn:Eu; simpl; try discriminate.
    intros [= <- <-]. apply updateDP_sound in Eu as [Hsub Hnum].
    split; [etransitivity; eassumption|]. simpl.
    intros Hn. split; [|eauto]. apply Hnum, Hnum1, Hn.
  + intros [Hsub2 Hnum2]%IH. split; [etransitivity; eassumption|].
    intros Hn. apply Hnum2, Hnum1, Hn.
Qed.

Lemma minimax_sound fuel : forall st v st',
minimax' fuel st = Ok (v, st') -> sound_call st v st'.
Proof.
induction fuel as [|fuel IH]; intros st v st'; [discriminate|]. simpl.
destruct (similarStatus _ _) as [ks| |]; simpl; try discriminate.
destruct (first_hit _ ks) as [x|] eqn:Eh.
{ intros [= <- <-]. split; [reflexivity|]. intros Hn. split; [assumption|].
  apply first_hit_Some in Eh as (k & _ & Hk). eapply Hn. eassumption. }
destruct (gameOver _); [discriminate|].
destruct (decide _);
  [rewrite max_search_shape | rewrite min_search_shape];
  apply search_loop_sound; assumption.
Qed.

(** *** Properties of the dictionary that the search keeps *)

Lemma play_preserves (P : gmap (list (list cell)) pyval -> Prop)
  (rec : search') st p v st1 :
(forall st0 v0 st0', rec st0 = Ok (v0, st0') ->
   P (self_dpMap st0) -> P (self_dpMap st0')) ->
play' rec st p = Ok (v, st1) -> P (self_dpMap st) -> P (self_dpMap st1).
Proof.
intros Hrec. unfold play. destruct (move (self_game st) p) as [g1 [z|]].
- simpl. intros [= <- <-]. auto.
- destruct (gameOver g1); [discriminate|].
  destruct (rec _) as [[r st']| |] eqn:Er; simpl; try discriminate.
  intros [= <- <-] HP. simpl. eapply Hrec; [exact Er | exact HP].
Qed.

Lemma search_loop_preserves (P : gmap (list (list cell)) pyval -> Prop)
  stop pick (rec : search') thisState positions :
(forall st0 v0 st0', rec st0 = Ok (v0, st0') ->
   P (self_dpMap st0) -> P (self_dpMap st0')) ->
(forall dp n dp', updateDP AVAILABLE dp thisState (Number n) = Ok dp' ->
   P dp -> P dp') ->
forall ret st v st',
loop' stop pick rec thisState positions ret st = Ok (v, st') ->
P (self_dpMap st) -> P (self_dpMap st').
Proof.
intros Hrec Hupd. induction positions as [|p rest IH]; intros ret st v st'; simpl.
- destruct (updateDP _ _ _ _) as [dp| |] eqn:Eu; simpl; try discriminate.
  intros [= <- <-]. simpl. eapply Hupd. eassumption.
- destruct (play' rec st p) as [[result st1]| |] eqn:Ep; simpl;
    try discriminate.
  assert (HP1 : P (self_dpMap st) -> P (self_dpMap st1))
    by (eapply play_preserves; eassumption).
  destruct (as_num result) as [r| |]; simpl; try discriminate.
  destruct (num_eqb (pick ret r) stop).
  + destruct (updateDP _ _ _ _) as [dp| |] eqn:Eu; simpl; try discriminate.
    intros [= <- <-] HP. simpl. eapply Hupd; [eassumption|]. auto.
  + intros Hrun HP. eapply IH; [eassumption|]. auto.
Qed.

Lemma minimax_preserves (P : gmap (list (list cell)) pyval -> Prop) :
(forall g dp n dp',
   updateDP AVAILABLE dp (getStatus g) (Number n) = Ok dp' -> P dp -> P dp') ->
forall fuel st v st',
minimax' fuel st = Ok (v, st') -> P (self_dpMap st) -> P (self_dpMap st').
Proof.
intros Hupd fuel. induction fuel as [|fuel IH]; intros st v st';
  [discriminate|]. simpl.
destruct (similarStatus _ _) as [ks| |]; simpl; try discriminate.
destruct (first_hit _ ks) as [x|]; [intros [= <- <-]; auto|].
destruct (gameOver _); [discriminate|].
destruct (decide _);
  [rewrite max_search_shape | rewrite min_search_shape];
  (apply search_loop_preserves; [exact IH | intros ? ? ?; apply Hupd]).
Qed.

(** After the loop every one of the four keys of [thisState] is bound. *)
Lemma search_loop_stores stop pick (rec : search') thisState positions :
forall ret st v st',
loop' stop pick rec thisState positions ret st = Ok (v, st') ->
exists ks, similarStatus AVAILABLE thisState = Ok ks
           /\ forall k, In k ks -> is_Some (self_dpMap st' !! k).
Proof.
induction positions as [|p rest IH]; intros ret st v st'; simpl.
- destruct (updateDP _ _ _ _) as [dp| |] eqn:Eu; simpl; try discriminate.
  intros [= <- <-]. apply updateDP_Ok in Eu as (ks & Hks & _ & Hall & _).
  exists ks. auto.
- destruct (play' rec st p) as [[result st1]| |]; simpl; try discriminate.
  destruct (as_num result) as [r| |]; simpl; try discriminate.
  destruct (num_eqb (pick ret r) stop).
  + destruct (updateDP _ _ _ _) as [dp| |] eqn:Eu; simpl; try discriminate.
    intros [= <- <-]. apply updateDP_Ok in Eu as (ks & Hks & _ & Hall & _).
  exists ks. auto.
  + apply IH.
Qed.

(** A hit: the call returns the entry of the first bound key at once. *)
Lemma minimax_hit fuel st ks :
similarStatus AVAILABLE (getStatus (self_game st)) = Ok ks ->
(exists k, In k ks /\ is_Some (self_dpMap st !! k)) ->
exists v, first_hit (self_dpMap st) ks = Some v
          /\ minimax' (S fuel) st = Ok (v, st).
Proof.
intros Hks (k & Hk & Hbound). simpl. rewrite Hks. simpl.
destruct (first_hit (self_dpMap st) ks) as [v|] eqn:Eh; [eauto|].
rewrite first_hit_None in Eh. rewrite (Eh k Hk) in Hbound.
destruct Hbound as [? [=]].
Qed.

(** A miss: when the call returns, the four keys are bound. *)
Lemma minimax_miss fuel st ks v st' :
similarStatus AVAILABLE (getStatus (self_game st)) = Ok ks ->
(forall k, In k ks -> self_dpMap st !! k = None) ->
minimax' fuel st = Ok (v, st') ->
forall k, In k ks -> is_Some (self_dpMap st' !! k).
Proof.
intros Hks Hnone. destruct fuel as [|fuel]; [discriminate|]. simpl.
rewrite Hks. simpl. apply first_hit_None in Hnone. rewrite Hnone.
destruct (gameOver _); [discriminate|].
destruct (decide _);
  [rewrite max_search_shape | rewrite min_search_shape];
  intros (ks' & Hks' & Hall)%search_loop_stores;
  rewrite Hks in Hks'; injection Hks' as <-; assumption.
Qed.

(** No unpacking of a number: [action] cannot get past its first
    position when the dictionary holds numbers only. *)
Lemma action_raises dp g :
numeric dp -> gameOver g = false -> getAvailablePositions g <> [] ->
action' dp g = Raise KeyError \/ action' dp g = Raise TypeError.
Proof.
intros Hnum Hover Hpos. unfold action. rewrite Hover.
destruct (getAvailablePositions g) as [|p rest]; [contradiction|].
assert (Hpeek : peek getStatus move undo dp g p = Raise KeyError
                \/ peek getStatus move undo dp g p = Raise TypeError).
{ unfold peek. destruct (move g p) as [g1 r]. unfold dict_get.
  destruct (dp !! getStatus g1) as [v|] eqn:Ev; [|left; reflexivity].
  apply Hnum in Ev as [n ->]. right. reflexivity. }
destruct (decide _); simpl; destruct Hpeek as [-> | ->]; auto.
Qed.

(** *** The search returns *)

Lemma similarStatus_square (N : nat) (s : list (list cell)) :
square N s -> exists ks, similarStatus AVAILABLE s = Ok ks.
Proof.
intros Hs.
destruct (rotate_four_times AVAILABLE N s Hs) as (s1 & s2 & s3 & H1 & H2 & H3 & H4).
exists [s1; s2; s3; s]. apply similarStatus_Ok. exists s1, s2, s3, s. auto 10.
Qed.

Lemma updateDP_square (N : nat) (dp : gmap (list (list cell)) pyval)
  (status : list (list cell)) result :
square N status -> exists dp', updateDP AVAILABLE dp status result = Ok dp'.
Proof.
intros Hs. destruct (similarStatus_square N status Hs) as [ks Hks].
unfold updateDP. rewrite Hks. simpl.
destruct (guarded_stores result ks dp) as (dp' & -> & _). eauto.
Qed.

Lemma play_returns N size (rec : search') (g : game) st p :
playable' N size -> gameOver g = false -> In p (getAvailablePositions g) ->
(forall st0, numeric (self_dpMap st0) -> gameOver (self_game st0) = false ->
   (size (self_game st0) < size g)%nat -> returns (rec st0) (self_game st0)) ->
self_game st = g -> numeric (self_dpMap st) ->
returns (play' rec st p) g.
Proof.
intros [_ Hplay] Hover Hp Hrec Hg Hnum. unfold play. rewrite Hg.
destruct (Hplay g p Hover Hp) as [Hundo Hnone].
destruct (move g p) as [g1 [z|]]; simpl in *.
- exists (Int z). eexists. split; [reflexivity|]. auto.
- destruct (Hnone eq_refl) as [Hover1 Hsize]. rewrite Hover1.
  destruct (Hrec (Self g1 (self_dpMap st)))
    as (n & st' & -> & Hg' & Hnum'); [assumption..|].
  simpl in *. exists n. eexists. split; [reflexivity|]. simpl.
  rewrite Hg'. auto.
Qed.

Lemma search_loop_returns N size stop pick (rec : search') (g : game)
  thisState positions :
playable' N size -> gameOver g = false -> square N thisState ->
(forall p, In p positions -> In p (getAvailablePositions g)) ->
(forall st0, numeric (self_dpMap st0) -> gameOver (self_game st0) = false ->
   (size (self_game st0) < size g)%nat -> returns (rec st0) (self_game st0)) ->
forall ret st, self_game st = g -> numeric (self_dpMap st) ->
returns (loop' stop pick rec thisState positions ret st) g.
Proof.
intros Hplay Hover Hsq Hsub Hrec.
induction positions as [|p rest IH]; intros ret st Hg Hnum; simpl.
- destruct (updateDP_square N (self_dpMap st) thisState (Number ret) Hsq)
    as [dp Hu].
  rewrite Hu. simpl. exists ret. eexists. split; [reflexivity|].
  split; [assumption|]. simpl.
  apply updateDP_sound in Hu as [_ Hn]. auto.
- destruct (play_returns N size rec g st p Hplay Hover)
    as (n & st1 & -> & Hg1 & Hnum1); [apply Hsub; left; reflexivity | | | |];
    try assumption.
  simpl. destruct (num_eqb (pick ret n) stop).
  + destruct (updateDP_square N (self_dpMap st1) thisState
                (Number (pick ret n)) Hsq) as [dp Hu].
    rewrite Hu. simpl. exists stop. eexists. split; [reflexivity|].
    split; [assumption|]. simpl.
    apply updateDP_sound in Hu as [_ Hn]. auto.
  + apply IH; [|assumption..]. intros q Hq. apply Hsub. right. assumption.
Qed.

(** On a game that is [playable], with numbers only in the dictionary,
    a call on a game that is not over returns once the fuel exceeds the
    [size] of the game. *)
Lemma minimax_returns N size :
playable' N size ->
forall fuel st,
numeric (self_dpMap st) -> gameOver (self_game st) = false ->
(size (self_game st) < fuel)%nat ->
returns (minimax' fuel st) (self_game st).
Proof.
intros Hplay fuel. induction fuel as [|fuel IH]; intros st Hnum Hover Hfuel;
  [lia|].
simpl.
destruct (similarStatus_square N (getStatus (self_game st)))
  as [ks Hks]; [apply Hplay|].
rewrite Hks. simpl.
destruct (first_hit (self_dpMap st) ks) as [x|] eqn:Eh.
{ apply first_hit_Some in Eh as (k & _ & Hk).
  destruct (Hnum k x Hk) as [n ->]. exists n, st. auto. }
rewrite Hover.
assert (Hrec : forall st0, numeric (self_dpMap st0) ->
          gameOver (self_game st0) = false ->
          (size (self_game st0) < size (self_game st))%nat ->
          returns (minimax' fuel st0) (self_game st0))
  by (intros st0 Hn0 Ho0 Hs0; apply IH; [assumption | assumption | lia]).
destruct (decide _);
  [rewrite max_search_shape | rewrite min_search_shape];
  (eapply search_loop_returns;
     [exact Hplay | exact Hover | apply Hplay | auto | exact Hrec
     | reflexivity | exact Hnum]).
Qed.

End Search.

(** ** The claims about the placement game *)

(** C3, where the code departs from it: [action] does consult the
    dictionary only, but the entries it finds there are the plain numbers
    [updateDP] stored, or are missing, so that on a state with a position
    to play, after the constructor's precomputation, the unpacking
    [result, _ = self.dpMap[...]] raises and [action] returns nothing. *)
Theorem action_after_precomputation_raises
  {cell : Type} `{Countable cell} (AVAILABLE : cell)
  {game player pos : Type} `{EqDecision player} (PLAYER_A : player)
  (getStatus : game -> list (list cell)) (gameOver : game -> bool)
  (currentPlayer : game -> player) (getAvailablePositions : game -> list pos)
  (move : game -> pos -> game * option Z) (undo : game -> game)
  (fuel : nat) (g0 : game) (st : self) (r : pyval) (g : game) :
init AVAILABLE PLAYER_A getStatus gameOver currentPlayer
     getAvailablePositions move undo fuel g0 = Ok (st, r) ->
gameOver g = false -> getAvailablePositions g <> [] ->
action PLAYER_A getStatus gameOver currentPlayer getAvailablePositions
       move undo (self_dpMap st) g = Raise KeyError
\/ action PLAYER_A getStatus gameOver currentPlayer getAvailablePositions
          move undo (self_dpMap st) g = Raise TypeError.
Proof.
unfold init. intros Hinit Hover Hpos.
destruct (minimax _ _ _ _ _ _ _ _ fuel _) as [[r0 st0]| |] eqn:Erun;
  simpl in Hinit; try discriminate.
injection Hinit as <- <-.
apply minimax_sound in Erun as [_ Hnum].
apply action_raises; [|assumption..].
apply Hnum. intros k v Hk. simpl in Hk. rewrite lookup_empty in Hk.
discriminate.
Qed.

Lemma action_after_precomputation_raises_witness :
exists st r,
  Connect2.init 5 [] = Ok (st, r) /\
  Connect2.gameOver [] = false /\
  Connect2.getAvailablePositions [] <> [] /\
  (Connect2.action (self_dpMap st) [] = Raise KeyError
   \/ Connect2.action (self_dpMap st) [] = Raise TypeError).
Proof.
eexists _, _. split; [vm_compute; reflexivity|].
split; [reflexivity|]. split; [discriminate|].
eapply (action_after_precomputation_raises
          Connect2.AVAILABLE Connect2.PLAYER_A Connect2.getStatus
          Connect2.gameOver Connect2.currentPlayer
          Connect2.getAvailablePositions Connect2.move Connect2.undo 5 []);
  [vm_compute; reflexivity | reflexivity | discriminate].
Defined.

(** On the 2-by-2 game the exception is the [TypeError] of unpacking the
    number stored for the first child. *)
Lemma action_on_connect2 :
('(st, _) ← Connect2.init 5 []; Connect2.action (self_dpMap st) [])
= Raise TypeError.
Proof. vm_compute. reflexivity. Qed.

(** The pair a call returned. *)
Lemma Ok_pair_inj {A B : Type} (a a' : A) (b b' : B) :
Ok (a, b) = Ok (a', b') -> a = a' /\ b = b'.
Proof. intros [= -> ->]. auto. Qed.

(** The 2-by-2 game is [playable], with the moves left as its size. *)
Lemma connect2_playable : Connect2.playable 2 Connect2.moves_left.
Proof.
split.
- intros g. split; [reflexivity|]. repeat constructor.
- intros g p Hover _. split; [reflexivity|].
  unfold Connect2.move, Connect2.gameOver, Connect2.moves_left in *.
  cbn [fst snd length] in *.
  apply Nat.leb_gt in Hover.
  destruct (3 <=? S (length g))%nat eqn:E; [intros [=]|].
  intros _. split; [reflexivity | lia].
Qed.

(** C5: a call to [minimax] on a state one of whose four rotational keys
    is bound returns the entry of the first such key at once, without a
    recursive call and without touching the strategy.  On a [playable]
    game that is not over, with numbers only in the dictionary, a call
    with more fuel than the size of the game returns and leaves the game
    as it was; after it all four keys are bound if none of them was
    before, and also if the bound keys were closed under rotation, which
    they then still are.  And over any game: after a call that found none
    of the four bound and returns, all four are bound; and where the
    statuses are [N]-by-[N] grids and the bound keys are closed under
    rotation, all four are bound after every call that returns, and the
    bound keys stay closed. *)
Theorem four_keys_lookup_and_store
  {cell : Type} `{Countable cell} (AVAILABLE : cell)
  {game player pos : Type} `{EqDecision player} (PLAYER_A : player)
  (getStatus : game -> list (list cell)) (gameOver : game -> bool)
  (currentPlayer : game -> player) (getAvailablePositions : game -> list pos)
  (move : game -> pos -> game * option Z) (undo : game -> game)
  (N : nat) (size : game -> nat) (st : self) (ks : list (list (list cell))) :
similarStatus AVAILABLE (getStatus (self_game st)) = Ok ks ->
length ks = 4%nat /\
((exists k, In k ks /\ is_Some (self_dpMap st !! k)) ->
 exists k v, In k ks /\ self_dpMap st !! k = Some v /\
   forall fuel,
     minimax AVAILABLE PLAYER_A getStatus gameOver currentPlayer
             getAvailablePositions move undo (S fuel) st = Ok (v, st)) /\
(playable getStatus gameOver getAvailablePositions move undo N size ->
 numeric (self_dpMap st) -> gameOver (self_game st) = false ->
 forall fuel, (size (self_game st) < fuel)%nat ->
 exists v st',
   minimax AVAILABLE PLAYER_A getStatus gameOver currentPlayer
           getAvailablePositions move undo fuel st = Ok (v, st') /\
   self_game st' = self_game st /\
   ((forall k, In k ks -> self_dpMap st !! k = None) ->
    forall k, In k ks -> is_Some (self_dpMap st' !! k)) /\
   (rotation_closed AVAILABLE (self_dpMap st) ->
    rotation_closed AVAILABLE (self_dpMap st') /\
    forall k, In k ks -> is_Some (self_dpMap st' !! k))) /\
(forall fuel v st',
   (forall k, In k ks -> self_dpMap st !! k = None) ->
   minimax AVAILABLE PLAYER_A getStatus gameOver currentPlayer
           getAvailablePositions move undo fuel st = Ok (v, st') ->
   forall k, In k ks -> is_Some (self_dpMap st' !! k)) /\
((forall g, square N (getStatus g)) ->
 rotation_closed AVAILABLE (self_dpMap st) ->
 forall fuel v st',
   minimax AVAILABLE PLAYER_A getStatus gameOver currentPlayer
           getAvailablePositions move undo fuel st = Ok (v, st') ->
   rotation_closed AVAILABLE (self_dpMap st') /\
   forall k, In k ks -> is_Some (self_dpMap st' !! k)).
Proof.
intros Hks.
assert (Hsession : (forall g, square N (getStatus g)) ->
  rotation_closed AVAILABLE (self_dpMap st) ->
  forall fuel v st',
    minimax AVAILABLE PLAYER_A getStatus gameOver currentPlayer
            getAvailablePositions move undo fuel st = Ok (v, st') ->
    rotation_closed AVAILABLE (self_dpMap st') /\
    forall k, In k ks -> is_Some (self_dpMap st' !! k)).
{ intros Hsq Hcl fuel v st' Hrun. split.
  + apply (minimax_preserves AVAILABLE PLAYER_A getStatus gameOver
             currentPlayer getAvailablePositions move undo
             (rotation_closed AVAILABLE)) in Hrun; [assumption | | assumption].
    intros g dp n dp' Hupd.
    exact (updateDP_closed AVAILABLE N dp (getStatus g) (Number n) dp'
                           (Hsq g) Hupd).
  + destruct (first_hit (self_dpMap st) ks) as [x|] eqn:Eh.
    * apply first_hit_Some in Eh as (k0 & Hk0 & Hx).
      assert (Hall := one_key_all_keys AVAILABLE N (self_dpMap st) _ ks
                        (Hsq (self_game st)) Hks Hcl
                        (ex_intro _ k0 (conj Hk0 (mk_is_Some _ _ Hx)))).
      apply minimax_sound in Hrun as [Hsub _].
      intros k Hk. destruct (Hall k Hk) as [y Hy]. exists y.
      eapply lookup_weaken; eassumption.
    * rewrite first_hit_None in Eh. eapply minimax_miss; eassumption. }
split; [|split; [|split; [|split]]].
- apply similarStatus_Ok in Hks as (s1 & s2 & s3 & s4 & _ & _ & _ & _ & ->).
  reflexivity.
- intros Hbound.
  destruct (minimax_hit AVAILABLE PLAYER_A getStatus gameOver currentPlayer
              getAvailablePositions move undo O st ks Hks Hbound)
    as (v & Hhit & _).
  destruct (first_hit_Some _ _ _ Hhit) as (k & Hk & Hv).
  exists k, v. split; [assumption|]. split; [assumption|]. intros fuel.
  destruct (minimax_hit AVAILABLE PLAYER_A getStatus gameOver currentPlayer
              getAvailablePositions move undo fuel st ks Hks Hbound)
    as (v' & Hhit' & Hrun).
  congruence.
- intros Hplay Hnum Hover fuel Hfuel.
  destruct (minimax_returns AVAILABLE PLAYER_A getStatus gameOver
              currentPlayer getAvailablePositions move undo N size Hplay
              fuel st Hnum Hover Hfuel) as (n & st' & Hrun & Hg & _).
  exists (Number n), st'. split; [assumption|]. split; [assumption|]. split.
  + intros Hnone. eapply minimax_miss; eassumption.
  + intros Hcl. eapply Hsession; [apply Hplay | assumption | eassumption].
- intros fuel v st' Hnone Hrun. eapply minimax_miss; eassumption.
- exact Hsession.
Qed.

Lemma four_keys_lookup_and_store_witness :
let ks := replicate 4 Connect2.empty_grid in
(similarStatus Connect2.AVAILABLE
               (Connect2.getStatus (self_game Connect2.start)) = Ok ks /\
 Connect2.playable 2 Connect2.moves_left /\
 numeric (self_dpMap Connect2.start) /\
 Connect2.gameOver (self_game Connect2.start) = false /\
 (Connect2.moves_left (self_game Connect2.start) < 4)%nat /\
 (forall k, In k ks -> self_dpMap Connect2.start !! k = None)) /\
(Connect2.minimax 4 Connect2.start = Ok (Number (Int 1), Connect2.solved) /\
 self_game Connect2.solved = self_game Connect2.start /\
 forall k, In k ks -> is_Some (self_dpMap Connect2.solved !! k)) /\
(similarStatus Connect2.AVAILABLE
               (Connect2.getStatus (self_game Connect2.solved)) = Ok ks /\
 (exists k, In k ks /\ is_Some (self_dpMap Connect2.solved !! k)) /\
 forall fuel,
   Connect2.minimax (S fuel) Connect2.solved = Ok (Number (Int 1), Connect2.solved)).
Proof.
intros ks.
assert (Hks : similarStatus Connect2.AVAILABLE
                (Connect2.getStatus (self_game Connect2.start)) = Ok ks)
  by reflexivity.
assert (Hnum : numeric (self_dpMap Connect2.start)).
{ intros k v Hk. simpl in Hk. rewrite lookup_empty in Hk. discriminate Hk. }
assert (Hnone : forall k, In k ks -> self_dpMap Connect2.start !! k = None)
  by (intros k _; apply lookup_empty).
assert (Hks' : similarStatus Connect2.AVAILABLE
                 (Connect2.getStatus (self_game Connect2.solved)) = Ok ks)
  by (vm_compute; reflexivity).
assert (Hbound : exists k, In k ks /\ is_Some (self_dpMap Connect2.solved !! k)).
{ exists Connect2.empty_grid. split; [left; reflexivity|].
  exists (Number (Int 1)). vm_compute. reflexivity. }
split; [|split].
- split; [assumption|]. split; [apply connect2_playable|].
  split; [assumption|]. split; [reflexivity|].
  split; [unfold Connect2.moves_left; simpl; lia | assumption].
- destruct (four_keys_lookup_and_store Connect2.AVAILABLE Connect2.PLAYER_A
              Connect2.getStatus Connect2.gameOver Connect2.currentPlayer
              Connect2.getAvailablePositions Connect2.move Connect2.undo
              2 Connect2.moves_left Connect2.start ks Hks)
    as (_ & _ & Hsolve & _).
  destruct (Hsolve connect2_playable Hnum eq_refl 4%nat)
    as (v & st' & Hrun & Hg & Hstored & _); [unfold Connect2.moves_left; simpl; lia|].
  assert (Hrun' : Connect2.minimax 4 Connect2.start
                  = Ok (Number (Int 1), Connect2.solved))
    by (vm_compute; reflexivity).
  unfold Connect2.minimax in Hrun'. rewrite Hrun' in Hrun.
  apply Ok_pair_inj in Hrun as [<- <-].
  split; [exact Hrun'|]. split; [exact Hg | exact (Hstored Hnone)].
- split; [assumption|]. split; [assumption|].
  destruct (four_keys_lookup_and_store Connect2.AVAILABLE Connect2.PLAYER_A
              Connect2.getStatus Connect2.gameOver Connect2.currentPlayer
              Connect2.getAvailablePositions Connect2.move Connect2.undo
              2 Connect2.moves_left Connect2.solved ks Hks')
    as (_ & Hhit & _).
  destruct (Hhit Hbound) as (k & v & Hk & Hv & Hrun).
  assert (k = Connect2.empty_grid) as ->
    by (simpl in Hk; destruct Hk as [<-|[<-|[<-|[<-|[]]]]]; reflexivity).
  assert (Hv' : self_dpMap Connect2.solved !! Connect2.empty_grid
                = Some (Number (Int 1))) by (vm_compute; reflexivity).
  rewrite Hv' in Hv. apply (inj Some) in Hv as <-. exact Hrun.
Defined.

(** The statuses of the 2-by-2 game are grids, and no key is bound before
    the search: the session hypotheses of C5 hold of it. *)
Lemma connect2_session :
(forall g, square 2 (Connect2.getStatus g)) /\
rotation_closed Connect2.AVAILABLE (self_dpMap Connect2.start).
Proof.
split.
- intros g. split; [reflexivity|]. repeat constructor.
- intros k k' [v Hv]. simpl in Hv. rewrite lookup_empty in Hv. discriminate.
Qed.

(** The search of the 2-by-2 game from the empty grid is such a call: it
    returns, and leaves the empty grid bound. *)
Lemma connect2_root_is_stored :
exists st', Connect2.minimax 5 Connect2.start = Ok (Number (Int 1), st')
            /\ self_dpMap st' !! Connect2.empty_grid = Some (Number (Int 1)).
Proof. eexists. split; vm_compute; reflexivity. Qed.

(** C6: on every [N]-by-[N] board, [rotate] puts the cell [(r, c)] at
    [(c, N-1-r)], and four rotations give the board back. *)
Theorem rotate_four_times_is_identity {cell : Type} (AVAILABLE : cell)
  (N : nat) (s : list (list cell)) :
square N s ->
(exists s', rotate AVAILABLE s = Ok s' /\
   forall r c, (r < N)%nat -> (c < N)%nat ->
     get2 s' c (N - 1 - r) = get2 s r c) /\
(exists s1 s2 s3,
   rotate AVAILABLE s = Ok s1 /\ rotate AVAILABLE s1 = Ok s2 /\
   rotate AVAILABLE s2 = Ok s3 /\ rotate AVAILABLE s3 = Ok s).
Proof.
intros Hs. split.
- destruct (rotate_square AVAILABLE N s Hs) as (s' & Hr & _ & Hc). eauto.
- apply (rotate_four_times AVAILABLE N s Hs).
Qed.

Lemma rotate_four_times_is_identity_witness :
let s := [[1; 2; 3]; [4; 5; 6]; [7; 8; 9]]%Z in
square 3 s /\
((exists s', rotate 0%Z s = Ok s' /\
    forall r c, (r < 3)%nat -> (c < 3)%nat ->
      get2 s' c (3 - 1 - r) = get2 s r c) /\
 (exists s1 s2 s3,
    rotate 0%Z s = Ok s1 /\ rotate 0%Z s1 = Ok s2 /\
    rotate 0%Z s2 = Ok s3 /\ rotate 0%Z s3 = Ok s)).
Proof.
assert (Hs : square 3 [[1; 2; 3]; [4; 5; 6]; [7; 8; 9]]%Z)
  by (split; [reflexivity | repeat constructor]).
split; [exact Hs|].
exact (rotate_four_times_is_identity 0%Z 3 _ Hs).
Defined.

End PlannedFacts.

(** * Both memo tables *)

Module MemoSoundness.

Local Open Scope Z_scope.

(** C7: within a solving session no key of a memo table is bound to two
    values.  In the number game a completed call leaves every bound key
    with its value, and its one store, if any, goes to its own key while
    that key is still unbound; in the placement game [updateDP] stores
    under unbound keys only, so that a completed call of [minimax], and a
    completed [updateDP], leave every bound key with its entry. *)
Theorem memo_keys_are_never_rebound :
(forall (M T A : Z) (fuel : nat) (dp : CanIWin.memo) (s t : Z) (bm : bool)
        (alpha beta v : num) (dp' : CanIWin.memo),
   0 <= s ->
   CanIWin.minimax M T A fuel dp s t bm alpha beta = Ok (v, dp') ->
   CanIWin.memo_extends dp dp' /\ CanIWinInv.one_store s v dp dp')
/\
(forall (cell : Type) `(Countable cell) (AVAILABLE : cell)
        (game player pos : Type) `(EqDecision player) (PLAYER_A : player)
        (getStatus : game -> list (list cell)) (gameOver : game -> bool)
        (currentPlayer : game -> player)
        (getAvailablePositions : game -> list pos)
        (move : game -> pos -> game * option Z) (undo : game -> game)
        (fuel : nat) (st : Planned.self) (v : pyval) (st' : Planned.self),
   Planned.minimax AVAILABLE PLAYER_A getStatus gameOver currentPlayer
                   getAvailablePositions move undo fuel st = Ok (v, st') ->
   Planned.self_dpMap st ⊆ Planned.self_dpMap st')
/\
(forall (cell : Type) `(Countable cell) (AVAILABLE : cell)
        (dp : gmap (list (list cell)) pyval) (status : list (list cell))
        (result : pyval) (dp' : gmap (list (list cell)) pyval),
   Planned.updateDP AVAILABLE dp status result = Ok dp' ->
   dp ⊆ dp' /\
   forall k x, dp' !! k = Some x -> dp !! k = Some x \/ x = result).
Proof.
split; [|split].
- intros M T A fuel dp s t bm alpha beta v dp' Hs Hrun.
  apply CanIWinFacts.minimax_one_store in Hrun as Hstore; [|assumption].
  split; [|assumption].
  apply (CanIWinFacts.one_store_extends s v dp dp' Hs Hstore).
- intros cell ? ? AVAILABLE game player pos ? PLAYER_A getStatus gameOver
         currentPlayer getAvailablePositions move undo fuel st v st' Hrun.
  apply PlannedFacts.minimax_sound in Hrun as [Hsub _]. assumption.
- intros cell ? ? AVAILABLE dp status result dp' Hrun.
  apply PlannedFacts.updateDP_Ok in Hrun as (ks & _ & Hsub & _ & Hfrom).
  split; [assumption|]. intros k x Hk.
  apply Hfrom in Hk as [Hk|[_ ->]]; auto.
Qed.

Lemma memo_keys_are_never_rebound_witness :
(exists v dp',
   CanIWin.solve_root 3 2 50 = Ok (v, dp') /\
   CanIWin.memo_extends (CanIWin.fresh_dp 2) dp' /\
   CanIWinInv.one_store 0 v (CanIWin.fresh_dp 2) dp')
/\
(exists v st',
   Connect2.minimax 5 Connect2.start = Ok (v, st') /\
   Planned.self_dpMap Connect2.start ⊆ Planned.self_dpMap st').
Proof.
split.
- eexists _, _. split; [vm_compute; reflexivity|].
  apply (proj1 memo_keys_are_never_rebound 2 50 (CanIWin.all_used 2) 3%nat
               (CanIWin.fresh_dp 2) 0 0 true (Int (-1)) (Int 1));
    [lia | vm_compute; reflexivity].
- eexists _, _. split; [vm_compute; reflexivity|].
  eapply (proj1 (proj2 memo_keys_are_never_rebound) Z _ _ Connect2.AVAILABLE
                Connect2.game Z (nat * nat)%type _ Connect2.PLAYER_A
                Connect2.getStatus Connect2.gameOver Connect2.currentPlayer
                Connect2.getAvailablePositions Connect2.move Connect2.undo
                5%nat Connect2.start).
  vm_compute. reflexivity.
Defined.

End MemoSoundness.

(** * Further properties of the number-selection game *)

Module CanIWinMore.

Import CanIWin Reference CanIWinInv CanIWinFacts MoreInv.
Local Open Scope Z_scope.

(** ** The range of the Values *)

Lemma ranged_memo_insert M dp k x :
ranged_memo M dp -> ternary x -> ranged_memo M (<[k := Some x]> dp).
Proof.
intros [Hlen Hr] Hx. split; [rewrite length_insert; assumption|].
intros j y. destruct (decide (k = j)) as [->|Hne].
- destruct (decide (j < length dp)%nat).
  + rewrite list_lookup_insert_eq by assumption. congruence.
  + rewrite list_insert_ge by lia. apply Hr.
- rewrite list_lookup_insert_ne by assumption. apply Hr.
Qed.

Lemma loop_ranged T sc init step (I : memo -> Prop) rec s t bm L :
0 <= s < Z.of_nat L ->
(forall dp, I dp -> length dp = L) ->
ternary sc ->
(forall value r a b, value = init \/ ternary value -> ternary r ->
   exists v' a' b', step value r a b = (v', a', b') /\ ternary v') ->
forall cands,
(forall i dp0 a b, In i cands -> unused s i = true -> I dp0 ->
   exists r dp1, rec dp0 (new_status s i) (t + i) (negb bm) a b = Ok (r, dp1)
                 /\ ternary r /\ I dp1) ->
forall value alpha beta dp,
value = init \/ ternary value -> I dp ->
exists z' dpm,
  loop T sc step rec s t bm cands value alpha beta dp
  = Ok (z', <[Z.to_nat s := Some z']> dpm)
  /\ I dpm
  /\ (ternary z' \/ (z' = value /\ forall i, In i cands -> unused s i = false)).
Proof.
intros Hs HL Hsc Hstep cands. induction cands as [|i rest IH];
  intros Hrec value alpha beta dp Hval HI; simpl.
- rewrite dp_set_in_range by (rewrite (HL dp HI); assumption). simpl.
  exists value, dp. split; [reflexivity|]. split; [assumption|].
  right. split; [reflexivity|]. intros ? [].
- assert (IH' := IH (fun k dp0 a b Hk => Hrec k dp0 a b (or_intror Hk))).
  destruct (unused s i) eqn:Hu.
  + destruct (t + i >=? T).
    { rewrite dp_set_in_range by (rewrite (HL dp HI); assumption). simpl.
      exists sc, dp. auto. }
    destruct (Hrec i dp alpha beta) as (r & dp1 & -> & Hr & HI1);
      [left; reflexivity | assumption | assumption |]. simpl.
    destruct (Hstep value r alpha beta Hval Hr) as (v' & a' & b' & -> & Hv').
    destruct (num_geb a' b').
    * rewrite dp_set_in_range by (rewrite (HL dp1 HI1); assumption). simpl.
      exists v', dp1. auto.
    * destruct (IH' v' a' b' dp1) as (z' & dpm & -> & HIm & Hz);
        [auto | assumption |].
      exists z', dpm. split; [reflexivity|]. split; [assumption|].
      left. destruct Hz as [|[-> _]]; assumption.
  + destruct (IH' value alpha beta dp Hval HI) as (z' & dpm & -> & HIm & Hz).
    exists z', dpm. split; [reflexivity|]. split; [assumption|].
    destruct Hz as [|[-> Hall]]; [auto|]. right. split; [reflexivity|].
    intros k [<-|Hk]; [assumption | apply Hall; assumption].
Qed.

Lemma step_max_ranged value r a b :
value = NegInf \/ ternary value -> ternary r ->
exists v' a' b', step_max value r a b = (v', a', b') /\ ternary v'.
Proof.
intros Hv Hr. unfold step_max. eexists _, _, _. split; [reflexivity|].
unfold ternary in *.
destruct Hv as [->|[->|[->| ->]]], Hr as [->|[->| ->]]; simpl; auto.
Qed.

Lemma step_min_ranged value r a b :
value = PosInf \/ ternary value -> ternary r ->
exists v' a' b', step_min value r a b = (v', a', b') /\ ternary v'.
Proof.
intros Hv Hr. unfold step_min. eexists _, _, _. split; [reflexivity|].
unfold ternary in *.
destruct Hv as [->|[->|[->| ->]]], Hr as [->|[->| ->]]; simpl; auto.
Qed.

Lemma minimax_ranged M T fuel : forall dp s t bm alpha beta,
valid M s -> (count_free M s < fuel)%nat -> ranged_memo M dp ->
exists v dp', minimax M T (all_used M) fuel dp s t bm alpha beta = Ok (v, dp')
              /\ ternary v /\ ranged_memo M dp'.
Proof.
induction fuel as [|fuel IH]; intros dp s t bm alpha beta Hv Hfuel Hr; [lia|].
assert (Hs := valid_le M s Hv). assert (Hlen := proj1 Hr).
simpl. unfold minimax_body.
destruct (dp_get_in_range dp s) as [e He]; [lia|]. rewrite He. simpl.
destruct e as [x|].
{ apply dp_get_Ok in He; [|lia]. exists x, dp. split; [reflexivity|].
  split; [|assumption]. eapply (proj2 Hr). eassumption. }
destruct (Z.eqb_spec s (all_used M)) as [Heq|Hne].
{ exists (Int 0), dp. split; [reflexivity|]. split; [|assumption].
  right. left. reflexivity. }
assert (Hrec : forall i dp0 a b, In i (range 1 (M + 1)) -> unused s i = true ->
          ranged_memo M dp0 ->
          exists r dp1, minimax M T (all_used M) fuel dp0 (new_status s i)
                                (t + i) (negb bm) a b = Ok (r, dp1)
                        /\ ternary r /\ ranged_memo M dp1).
{ intros i dp0 a b Hi%in_candidates Hu Hr0. apply IH; try assumption.
  - apply valid_new_status; assumption.
  - rewrite (count_free_child M s i) in Hfuel by assumption. lia. }
assert (Hfinish : forall z' dpm (init : num),
          ranged_memo M dpm ->
          ternary z' \/ (z' = init /\
             forall i, In i (range 1 (M + 1)) -> unused s i = false) ->
          exists v dp', Ok (z', <[Z.to_nat s := Some z']> dpm) = Ok (v, dp')
                        /\ ternary v /\ ranged_memo M dp').
{ intros z' dpm init Hrm [Hz|[_ Hall]].
  - eexists _, _. split; [reflexivity|]. split; [assumption|].
    apply ranged_memo_insert; assumption.
  - exfalso. apply Hne, valid_all_taken; assumption. }
destruct bm; [rewrite max_loop_shape | rewrite min_loop_shape].
- destruct (loop_ranged T (Int 1) NegInf step_max (ranged_memo M)
              (minimax M T (all_used M) fuel) s t true
              (Z.to_nat (all_used M + 1))) with (cands := range 1 (M + 1))
      (value := NegInf) (alpha := alpha) (beta := beta) (dp := dp)
    as (z' & dpm & -> & Hrm & Hcase);
    try (assumption || lia || (left; reflexivity)).
  + intros ? [? _]. assumption.
  + right. right. reflexivity.
  + apply step_max_ranged.
  + eapply Hfinish; eassumption.
- destruct (loop_ranged T (Int (-1)) PosInf step_min (ranged_memo M)
              (minimax M T (all_used M) fuel) s t false
              (Z.to_nat (all_used M + 1))) with (cands := range 1 (M + 1))
      (value := PosInf) (alpha := alpha) (beta := beta) (dp := dp)
    as (z' & dpm & -> & Hrm & Hcase);
    try (assumption || lia || (left; reflexivity)).
  + intros ? [? _]. assumption.
  + apply step_min_ranged.
  + eapply Hfinish; eassumption.
Qed.

(** X1: on every status of the game, with a memo list that holds Values
    only, whatever the running total, the player and the window passed,
    [minimax] returns one of -1, 0 and 1, never an infinity, and leaves a
    memo list that holds Values only. *)
Theorem minimax_value_range (M T : Z) (fuel : nat) (dp : memo) (s t : Z)
  (bm : bool) (alpha beta : num) :
valid M s -> (Z.to_nat M < fuel)%nat -> ranged_memo M dp ->
exists v dp', minimax M T (all_used M) fuel dp s t bm alpha beta = Ok (v, dp')
              /\ ternary v /\ ranged_memo M dp'.
Proof.
intros Hv Hfuel Hr. apply minimax_ranged; try assumption.
assert (Hle := count_free_le M s). lia.
Qed.

Lemma fresh_dp_ranged M : ranged_memo M (fresh_dp M).
Proof.
split; [apply fresh_dp_length|]. intros k x Hk.
destruct (fresh_dp_lookup M k x Hk).
Qed.

Lemma minimax_value_range_witness :
valid 3 2 /\ (Z.to_nat 3 < 4)%nat /\ ranged_memo 3 (fresh_dp 3) /\
exists v dp', minimax 3 5 (all_used 3) 4 (fresh_dp 3) 2 7 false PosInf NegInf
              = Ok (v, dp')
              /\ ternary v /\ ranged_memo 3 dp'.
Proof.
assert (Hv : valid 3 2).
{ split; [lia|]. intros k Hk. change 2 with (2 ^ 1) in Hk.
  rewrite Z.pow2_bits_eqb in Hk by lia. lia. }
split; [exact Hv|]. split; [simpl; lia|]. split; [apply fresh_dp_ranged|].
apply (minimax_value_range 3 5 4 (fresh_dp 3) 2 7 false PosInf NegInf Hv);
  [simpl; lia | apply fresh_dp_ranged].
Defined.

(** ** Closed forms of [allUsed] and of the sum of the integers *)

Lemma range_snoc n :
range 1 (Z.of_nat (S n) + 1) = range 1 (Z.of_nat n + 1) ++ [Z.of_nat n + 1].
Proof.
unfold range.
replace (Z.to_nat (Z.of_nat (S n) + 1 - 1)) with (S n) by lia.
replace (Z.to_nat (Z.of_nat n + 1 - 1)) with n by lia.
rewrite seq_S, map_app. simpl. f_equal. f_equal. lia.
Qed.

Lemma range_empty lo hi : hi <= lo -> range lo hi = [].
Proof.
intros H. unfold range. replace (Z.to_nat (hi - lo)) with O by lia.
reflexivity.
Qed.

Lemma all_used_nat n : all_used (Z.of_nat n) = 2 ^ (Z.of_nat n + 1) - 2.
Proof.
induction n as [|n IH]; [reflexivity|].
unfold all_used in *. rewrite range_snoc, fold_left_app. simpl.
rewrite IH. fold (new_status (2 ^ (Z.of_nat n + 1) - 2) (Z.of_nat n + 1)).
rewrite new_status_add; [| lia |].
- replace (Z.of_nat (S n) + 1) with (Z.succ (Z.of_nat n + 1)) by lia.
  rewrite Z.pow_succ_r by lia. lia.
- rewrite <- IH. fold (all_used (Z.of_nat n)). rewrite all_used_testbit. lia.
Qed.

Lemma sum_all_nat n : 2 * sum_all (Z.of_nat n) = Z.of_nat n * (Z.of_nat n + 1).
Proof.
induction n as [|n IH]; [reflexivity|].
unfold sum_all in *. rewrite range_snoc, fold_right_app. simpl.
assert (Hshift : forall l a, fold_right Z.add a l = fold_right Z.add 0 l + a).
{ induction l as [|x l IHl]; intros a; simpl; [lia|]. rewrite IHl. lia. }
rewrite Hshift. lia.
Qed.

(** X2: for [maxChoosableInteger >= 0] the loop of [canIWin] leaves
    [allUsed = 2^(maxChoosableInteger+1) - 2], the memo list has
    [2^(maxChoosableInteger+1) - 1] entries, all [None], and the integers
    of the game add up to [maxChoosableInteger (maxChoosableInteger+1) / 2]. *)
Theorem all_used_closed_form (M : Z) :
0 <= M ->
all_used M = 2 ^ (M + 1) - 2 /\
fresh_dp M = replicate (Z.to_nat (2 ^ (M + 1) - 1)) None /\
2 * sum_all M = M * (M + 1).
Proof.
intros HM. rewrite <- (Z2Nat.id M HM). split; [|split].
- apply all_used_nat.
- unfold fresh_dp. rewrite all_used_nat. f_equal. lia.
- apply sum_all_nat.
Qed.

Lemma all_used_closed_form_witness :
0 <= 4 /\
(all_used 4 = 2 ^ (4 + 1) - 2 /\
 fresh_dp 4 = replicate (Z.to_nat (2 ^ (4 + 1) - 1)) None /\
 2 * sum_all 4 = 4 * (4 + 1)).
Proof. split; [lia|]. apply (all_used_closed_form 4). lia. Defined.

(** ** Draws *)

(** X3: for [maxChoosableInteger >= 1] the root Value is one of -1, 0, 1,
    and it is the draw 0 exactly when all the integers together stay
    below the target, [maxChoosableInteger (maxChoosableInteger+1) / 2 <
    desiredTotal]; so [canIWin] returns [False] then, and a [False] in any
    other case means that the second player can force a win. *)
Theorem root_draw_iff_unreachable (M T : Z) (fuel : nat) :
1 <= M -> (Z.to_nat M < fuel)%nat ->
exists z dp',
  solve_root fuel M T = Ok (Int z, dp') /\
  (z = -1 \/ z = 0 \/ z = 1) /\
  (z = 0 <-> M * (M + 1) < 2 * T) /\
  canIWin fuel M T = Ok (bool_decide (z = 1)).
Proof.
intros HM Hfuel.
assert (Hsum := sum_all_nat (Z.to_nat M)). rewrite Z2Nat.id in Hsum by lia.
assert (Hcan : forall z dp', solve_root fuel M T = Ok (Int z, dp') ->
          canIWin fuel M T = Ok (bool_decide (z = 1))).
{ intros z dp' Hrun. unfold canIWin. rewrite Hrun. simpl. f_equal.
  unfold num_eqb. apply bool_decide_ext. split; [intros [= ->]|intros ->];
    reflexivity. }
destruct (Z_le_gt_dec T (sum_all M)) as [Hle|Hgt].
- destruct (root_decisive M T fuel HM Hle Hfuel) as (z & dp' & Hrun & Hz & _).
  exists z, dp'. split; [assumption|]. split; [lia|]. split; [lia|]. eauto.
- destruct (root_drawn M T fuel) as (dp' & Hrun & _); [lia | assumption |].
  exists 0, dp'. split; [assumption|]. split; [lia|]. split; [lia|]. eauto.
Qed.

Lemma root_draw_iff_unreachable_witness :
1 <= 3 /\ (Z.to_nat 3 < 4)%nat /\
exists z dp',
  solve_root 4 3 7 = Ok (Int z, dp') /\
  (z = -1 \/ z = 0 \/ z = 1) /\
  (z = 0 <-> 3 * (3 + 1) < 2 * 7) /\
  canIWin 4 3 7 = Ok (bool_decide (z = 1)).
Proof.
split; [lia|]. split; [simpl; lia|].
apply (root_draw_iff_unreachable 3 7 4); [lia | simpl; lia].
Defined.

(** X4: with no integer to choose from ([maxChoosableInteger <= 0]) the
    root status is already [allUsed = 0]: the root call returns the draw
    without storing anything and [canIWin] returns [False], also when
    [desiredTotal <= 0]. *)
Theorem canIWin_without_integers (M T : Z) (fuel : nat) :
M <= 0 ->
solve_root (S fuel) M T = Ok (Int 0, [None]) /\
canIWin (S fuel) M T = Ok false.
Proof.
intros HM.
assert (Hrun : solve_root (S fuel) M T = Ok (Int 0, [None])).
{ unfold solve_root, fresh_dp, all_used. rewrite range_empty by lia.
  reflexivity. }
split; [assumption|]. unfold canIWin. rewrite Hrun. reflexivity.
Qed.

Lemma canIWin_without_integers_witness :
0 <= 0 /\
(solve_root 1 0 (-3) = Ok (Int 0, [None]) /\ canIWin 1 0 (-3) = Ok false).
Proof. split; [lia|]. apply (canIWin_without_integers 0 (-3) 0). lia. Defined.

(** ** The memo list after a call *)

Lemma minimax_stores M T A fuel dp s t bm alpha beta v dp' :
0 <= s -> s <> A ->
minimax M T A fuel dp s t bm alpha beta = Ok (v, dp') ->
dp_get dp' s = Ok (Some v).
Proof.
intros Hs Hne Hrun. destruct fuel as [|fuel]; [discriminate|].
simpl in Hrun. unfold minimax_body in Hrun.
destruct (dp_get dp s) as [[x|]| |] eqn:Hget; simpl in Hrun;
  try discriminate.
{ injection Hrun as <- <-. assumption. }
destruct (Z.eqb_spec s A); [contradiction|].
assert (Hstore : exists dpm, memo_extends dp dpm /\
                   memo_frame (s + 1) dp dpm /\ dp_set dpm s v = Ok dp').
{ destruct bm;
    [rewrite max_loop_shape in Hrun | rewrite min_loop_shape in Hrun];
    (eapply (loop_store T); [exact Hs | | | exact Hrun]);
    try (intros i Hi%in_range; lia);
    (intros i dp0 a b r dp1 Hi%in_range Hu Hr;
     exact (one_store_extends _ _ _ _ (new_status_nonneg s i Hs)
              (minimax_one_store M T A _ _ _ _ _ _ _ _ _
                 (new_status_nonneg s i Hs) Hr))). }
destruct Hstore as (dpm & _ & _ & Hset).
apply dp_set_Ok in Hset as [-> Hlt]; [|assumption].
apply dp_get_lookup; [assumption|].
apply list_lookup_insert_eq. assumption.
Qed.

(** X5: a call on a status other than [allUsed] that returns leaves its
    Value bound under that status, and from then on every call on that
    status returns that Value at once and leaves the memo list alone,
    whatever running total, player and window it is passed. *)
Theorem memoized_value_is_replayed (M T A : Z) (fuel : nat) (dp : memo)
  (s t : Z) (bm : bool) (alpha beta v : num) (dp' : memo) :
0 <= s -> s <> A ->
minimax M T A fuel dp s t bm alpha beta = Ok (v, dp') ->
dp_get dp' s = Ok (Some v) /\
forall fuel' t' bm' alpha' beta',
  minimax M T A (S fuel') dp' s t' bm' alpha' beta' = Ok (v, dp').
Proof.
intros Hs Hne Hrun.
assert (Hget := minimax_stores M T A fuel dp s t bm alpha beta v dp' Hs Hne Hrun).
split; [assumption|]. intros fuel' t' bm' alpha' beta'.
simpl. unfold minimax_body. rewrite Hget. reflexivity.
Qed.

Lemma memoized_value_is_replayed_witness :
exists v dp',
  0 <= 0 /\ 0 <> all_used 3 /\
  minimax 3 5 (all_used 3) 4 (fresh_dp 3) 0 0 true (Int (-1)) (Int 1)
  = Ok (v, dp') /\
  (dp_get dp' 0 = Ok (Some v) /\
   forall fuel' t' bm' alpha' beta',
     minimax 3 5 (all_used 3) (S fuel') dp' 0 t' bm' alpha' beta'
     = Ok (v, dp')).
Proof.
eexists _, _. split; [lia|]. split; [vm_compute; discriminate|].
split; [vm_compute; reflexivity|].
apply (memoized_value_is_replayed 3 5 (all_used 3) 4 (fresh_dp 3) 0 0 true
         (Int (-1)) (Int 1));
  [lia | vm_compute; discriminate | vm_compute; reflexivity].
Defined.

(** X6: when the root call of [canIWin] has returned, every entry of the
    memo list under a status of the game is the Value the exhaustive
    search gives that status (with the running total and the player that
    go with it): pruning has stored no bound in place of a Value. *)
Theorem final_memo_is_exact (M T : Z) (fuel : nat) (v : num) (dp' : memo) :
1 <= M -> (Z.to_nat M < fuel)%nat ->
solve_root fuel M T = Ok (v, dp') ->
forall s x, valid M s -> dp' !! Z.to_nat s = Some (Some x) ->
exists z, x = Int z /\
  forall fr, (count_free M s < fr)%nat ->
    exhaustive M T fr s (sum_used M s) (Nat.even (count_used M s)) = Some z.
Proof.
intros HM Hfuel Hrun s x Hv Hx. unfold solve_root in Hrun.
destruct (Z_le_gt_dec T (sum_all M)) as [Hle|Hgt].
- destruct (minimax_decisive M T fuel (fresh_dp M) 0 0 true)
    as (z & dp1 & Hrun1 & _ & _ & Hex);
    auto using valid_zero, count_free_root, fresh_dp_exact, zero_not_all_used.
  { symmetry. apply sum_used_zero. }
  { rewrite count_used_zero. reflexivity. }
  rewrite Hrun1 in Hrun. injection Hrun as <- <-.
  destruct Hex as [_ Hex]. apply (Hex s x); [apply Hv | assumption].
- destruct (minimax_drawn M T fuel (fresh_dp M) 0 0 true (Int (-1)) (Int 1))
    as (dp1 & Hrun1 & Hz);
    auto using valid_zero, count_free_root, fresh_dp_zero; [lia | |].
  { symmetry. apply sum_used_zero. }
  rewrite Hrun1 in Hrun. injection Hrun as <- <-.
  destruct Hz as [_ Hz]. apply Hz in Hx as ->. exists 0.
  split; [reflexivity|]. intros fr Hfr.
  apply exhaustive_drawn; [lia | assumption | reflexivity | assumption].
Qed.

Lemma final_memo_is_exact_witness :
exists v dp',
  1 <= 3 /\ (Z.to_nat 3 < 4)%nat /\
  solve_root 4 3 5 = Ok (v, dp') /\
  forall s x, valid 3 s -> dp' !! Z.to_nat s = Some (Some x) ->
  exists z, x = Int z /\
    forall fr, (count_free 3 s < fr)%nat ->
      exhaustive 3 5 fr s (sum_used 3 s) (Nat.even (count_used 3 s)) = Some z.
Proof.
eexists _, _. split; [lia|]. split; [simpl; lia|].
split; [vm_compute; reflexivity|].
eapply (final_memo_is_exact 3 5 4);
  [lia | simpl; lia | vm_compute; reflexivity].
Defined.

End CanIWinMore.

(** * Further properties of the placement game *)

Module PlannedMore.

Import Planned PlannedFacts MoreInv.

(** ** Loops that fail *)

Lemma for_each_index_error_only {A S : Type} (xs : list A) body :
(forall (st : S) x, index_error_only (body st x)) ->
forall st, index_error_only (for_each xs body st).
Proof.
intros Hbody. induction xs as [|x xs IH]; intros st; simpl; [exact I|].
specialize (Hbody st x). destruct (body st x) as [st1|e|]; simpl in *;
  [apply IH | assumption | contradiction].
Qed.

Lemma for_each_Ok_inv {A S : Type} (xs : list A) body : forall (st st' : S),
for_each xs body st = Ok st' ->
forall x, In x xs -> exists st0 st1, body st0 x = Ok st1.
Proof.
induction xs as [|y xs IH]; intros st st' Hrun x Hx; [destruct Hx|].
simpl in Hrun. destruct (body st y) as [st1| |] eqn:Ey; simpl in Hrun;
  try discriminate.
destruct Hx as [<-|Hx]; [eauto | eapply IH; eassumption].
Qed.

(** ** Rotation of boards that are not square *)

Section RotationMore.

Context {cell : Type}.
Variable AVAILABLE : cell.

Lemma wide_get2 (s : list (list cell)) r c :
Forall (fun row => (length s <= length row)%nat) s ->
(r < length s)%nat -> (c < length s)%nat -> exists x, get2 s r c = Ok x.
Proof.
intros Hw Hr Hc. unfold get2.
destruct (lookup_lt_is_Some_2 s r) as [row Hrow]; [lia|]. rewrite Hrow.
assert (Hl := Forall_lookup_1 (fun row => (length s <= length row)%nat)
                s r row Hw Hrow). simpl in Hl.
destruct (lookup_lt_is_Some_2 row c) as [x Hx]; [lia|]. rewrite Hx. eauto.
Qed.

Lemma rotate_wide (s : list (list cell)) :
Forall (fun row => (length s <= length row)%nat) s ->
exists s', rotate AVAILABLE s = Ok s' /\ square (length s) s' /\
  forall r c, (r < length s)%nat -> (c < length s)%nat ->
    get2 s' c (length s - 1 - r) = get2 s r c.
Proof.
intros Hw. unfold rotate. set (N := length s) in *.
pose (inner := fun r (b : list (list cell)) (c : nat) =>
                 x ← get2 s r c; set2 b c (N - 1 - r) x).
destruct (for_each_range
            (fun r b => square N b /\
               forall r' c', (r' < r)%nat -> (c' < N)%nat ->
                 get2 b c' (N - 1 - r') = get2 s r' c')
            N (fun b r => for_each (seq 0 N) (inner r) b)
            (replicate N (replicate N AVAILABLE)))
  as (b & Hrun & Hb & Hcells).
- split; [apply square_blank|]. intros r' c' Hr'. lia.
- intros r b Hr [Hb Hdone].
  destruct (for_each_range
              (fun c b' => square N b' /\
                 forall r' c', (r' < N)%nat -> (c' < N)%nat ->
                   (r' < r \/ (r' = r /\ c' < c))%nat ->
                   get2 b' c' (N - 1 - r') = get2 s r' c')
              N (inner r) b)
    as (b' & Hrun' & Hb' & Hcells').
  + split; [assumption|]. intros r' c' Hr' Hc' [Hlt|[_ Hlt]]; [|lia].
    apply Hdone; assumption.
  + intros c b0 Hc [Hb0 Hdone0]. unfold inner.
    destruct (wide_get2 s r c Hw Hr Hc) as [x Hx]. rewrite Hx. simpl.
    destruct (square_set2 N b0 c (N - 1 - r) x Hb0 Hc)
      as (b1 & -> & Hb1 & Hnew & Hold); [lia|].
    eexists. split; [reflexivity|]. split; [assumption|].
    intros r' c' Hr' Hc' Hcase.
    destruct (decide (r' = r /\ c' = c)) as [[-> ->]|Hne].
    * rewrite Hnew, Hx. reflexivity.
    * rewrite Hold; [apply Hdone0; [assumption | assumption | lia]|].
      intros [= -> Heq]. apply Hne. split; [lia | reflexivity].
  + exists b'. split; [assumption|]. split; [assumption|].
    intros r' c' Hr' Hc'. apply Hcells'; lia.
- unfold inner in Hrun. cbv beta in Hrun. rewrite Hrun. simpl.
  exists b. split; [|split; [assumption|]].
  + rewrite <- (proj1 Hb) at 1. apply rows_to_tuple.
  + intros r c Hr Hc. apply Hcells; assumption.
Qed.

Lemma get2_index_error_only (s : list (list cell)) r c :
index_error_only (get2 s r c).
Proof.
unfold get2. destruct (s !! r) as [row|]; [|reflexivity].
destruct (row !! c); [exact I | reflexivity].
Qed.

Lemma set2_index_error_only (b : list (list cell)) i j x :
index_error_only (set2 b i j x).
Proof.
unfold set2. destruct (b !! i) as [row|]; [|reflexivity].
destruct (decide _); [exact I | reflexivity].
Qed.

Lemma rotate_index_error_only (s : list (list cell)) :
index_error_only (rotate AVAILABLE s).
Proof.
unfold rotate.
assert (H1 := for_each_index_error_only (seq 0 (length s))
  (fun b r => for_each (seq 0 (length s)) (fun b c =>
     x ← get2 s r c; set2 b c (length s - 1 - r) x) b)).
match type of H1 with ?P -> _ => assert (Hb : P) end.
{ intros st r. apply for_each_index_error_only. intros st0 c.
  assert (Hg := get2_index_error_only s r c).
  destruct (get2 s r c) as [x| |]; simpl in *;
    [apply set2_index_error_only | assumption | contradiction]. }
specialize (H1 Hb (replicate (length s) (replicate (length s) AVAILABLE))).
destruct (for_each _ _ _) as [b| |]; simpl in *;
  [| assumption | contradiction].
apply for_each_index_error_only. intros rows i.
destruct (b !! i); [exact I | reflexivity].
Qed.

Lemma rotate_short_row (s : list (list cell)) :
Exists (fun row => (length row < length s)%nat) s ->
rotate AVAILABLE s = Raise IndexError.
Proof.
intros Hshort. assert (Hk := rotate_index_error_only s).
destruct (rotate AVAILABLE s) as [s'|e|] eqn:Erot; simpl in Hk;
  [| congruence | contradiction].
exfalso. apply Exists_exists in Hshort as (row & Hin & Hlt).
apply list_elem_of_lookup in Hin as [r Hrow].
assert (Hr : (r < length s)%nat) by (eapply lookup_lt_Some; eassumption).
unfold rotate in Erot.
destruct (for_each (seq 0 (length s)) _ _) as [b| |] eqn:Eouter;
  simpl in Erot; try discriminate.
destruct (for_each_Ok_inv _ _ _ _ Eouter r) as (st0 & st1 & Hinner);
  [apply in_seq; lia|].
destruct (for_each_Ok_inv _ _ _ _ Hinner (length row)) as (st2 & st3 & Hcell);
  [apply in_seq; lia|].
unfold get2 in Hcell. rewrite Hrow in Hcell.
rewrite lookup_ge_None_2 in Hcell by lia. discriminate.
Qed.

End RotationMore.

(** X7: [rotate] takes [N = len(s)] and reads the first [N] cells of
    every row.  When every row has at least [N] cells it returns an
    [N]-by-[N] board whose cell [(c, N-1-r)] is the cell [(r, c)] of the
    argument, the cells beyond the [N]-th of a row being dropped; when a
    row has fewer it raises [IndexError]. *)
Theorem rotate_on_any_board {cell : Type} (AVAILABLE : cell)
  (s : list (list cell)) :
(Forall (fun row => (length s <= length row)%nat) s ->
 exists s', rotate AVAILABLE s = Ok s' /\ square (length s) s' /\
   forall r c, (r < length s)%nat -> (c < length s)%nat ->
     get2 s' c (length s - 1 - r) = get2 s r c) /\
(Exists (fun row => (length row < length s)%nat) s ->
 rotate AVAILABLE s = Raise IndexError).
Proof.
split; [apply rotate_wide | apply rotate_short_row].
Qed.

Lemma rotate_on_any_board_witness :
rotate 0%Z [[1; 2; 3]; [4; 5; 6]]%Z = Ok [[4; 1]; [5; 2]]%Z /\
rotate 0%Z [[1; 2]; [3]]%Z = Raise IndexError.
Proof.
split.
- destruct (proj1 (rotate_on_any_board 0%Z [[1; 2; 3]; [4; 5; 6]]%Z))
    as (s' & Hrun & _); [repeat constructor|].
  vm_compute in Hrun. vm_compute. reflexivity.
- apply (proj2 (rotate_on_any_board 0%Z [[1; 2]; [3]]%Z)).
  apply Exists_cons_tl, Exists_cons_hd. simpl. lia.
Defined.

(** X8: on [N]-by-[N] boards [rotate] loses nothing: two boards with the
    same rotation are the same board, and three more rotations undo one. *)
Theorem rotate_is_injective {cell : Type} (AVAILABLE : cell) (N : nat)
  (s t : list (list cell)) :
square N s -> square N t ->
rotate AVAILABLE s = rotate AVAILABLE t -> s = t.
Proof.
intros Hs Ht Heq.
destruct (rotate_four_times AVAILABLE N s Hs) as (s1 & s2 & s3 & S1 & S2 & S3 & S4).
destruct (rotate_four_times AVAILABLE N t Ht) as (t1 & t2 & t3 & T1 & T2 & T3 & T4).
assert (s1 = t1) as -> by congruence.
assert (s2 = t2) as -> by congruence.
assert (s3 = t3) as -> by congruence.
congruence.
Qed.

Lemma rotate_is_injective_witness :
square 2 [[1; 2]; [3; 4]]%Z /\ square 2 [[1; 2]; [3; 4]]%Z /\
rotate 0%Z [[1; 2]; [3; 4]]%Z = rotate 0%Z [[1; 2]; [3; 4]]%Z /\
[[1; 2]; [3; 4]]%Z = [[1; 2]; [3; 4]]%Z.
Proof.
assert (Hs : square 2 [[1; 2]; [3; 4]]%Z)
  by (split; [reflexivity | repeat constructor]).
split; [exact Hs|]. split; [exact Hs|]. split; [reflexivity|].
exact (rotate_is_injective 0%Z 2 _ _ Hs Hs eq_refl).
Defined.

(** X9: the four keys of an [N]-by-[N] status are its three proper
    rotations, each the [rotate] of the one before, followed by the status
    itself, and the keys of its rotation are the same four, one place on:
    a status and its rotations share their memo keys. *)
Theorem rotations_share_keys {cell : Type} `{Countable cell}
  (AVAILABLE : cell) (N : nat) (s : list (list cell)) :
square N s ->
exists s1 s2 s3,
  rotate AVAILABLE s = Ok s1 /\ rotate AVAILABLE s1 = Ok s2 /\
  rotate AVAILABLE s2 = Ok s3 /\
  similarStatus AVAILABLE s = Ok [s1; s2; s3; s] /\
  similarStatus AVAILABLE s1 = Ok [s2; s3; s; s1] /\
  similarStatus AVAILABLE s2 = Ok [s3; s; s1; s2] /\
  similarStatus AVAILABLE s3 = Ok [s; s1; s2; s3].
Proof.
intros Hs.
destruct (rotate_four_times AVAILABLE N s Hs) as (s1 & s2 & s3 & S1 & S2 & S3 & S4).
exists s1, s2, s3. do 3 (split; [assumption|]).
repeat split; apply similarStatus_Ok; eauto 10.
Qed.

Lemma rotations_share_keys_witness :
square 2 [[1; 2]; [3; 4]]%Z /\
exists s1 s2 s3,
  rotate 0%Z [[1; 2]; [3; 4]]%Z = Ok s1 /\ rotate 0%Z s1 = Ok s2 /\
  rotate 0%Z s2 = Ok s3 /\
  similarStatus 0%Z [[1; 2]; [3; 4]]%Z = Ok [s1; s2; s3; [[1; 2]; [3; 4]]%Z] /\
  similarStatus 0%Z s1 = Ok [s2; s3; [[1; 2]; [3; 4]]%Z; s1] /\
  similarStatus 0%Z s2 = Ok [s3; [[1; 2]; [3; 4]]%Z; s1; s2] /\
  similarStatus 0%Z s3 = Ok [[[1; 2]; [3; 4]]%Z; s1; s2; s3].
Proof.
assert (Hs : square 2 [[1; 2]; [3; 4]]%Z)
  by (split; [reflexivity | repeat constructor]).
split; [exact Hs|]. exact (rotations_share_keys 0%Z 2 _ Hs).
Defined.

(** ** The guarded stores *)

Section UpdateMore.

Context {cell : Type} `{Countable cell}.
Variable AVAILABLE : cell.

Lemma guarded_stores_noop (result : pyval) (ks : list (list (list cell)))
  (dp : gmap (list (list cell)) pyval) :
(forall k, In k ks -> is_Some (dp !! k)) ->
for_each ks (fun dpMap s =>
  match dpMap !! s with
  | Some _ => Ok dpMap
  | None => Ok (<[s := result]> dpMap)
  end) dp = Ok dp.
Proof.
induction ks as [|s ks IH]; intros Hall; simpl; [reflexivity|].
destruct (Hall s) as [v Hv]; [left; reflexivity|]. rewrite Hv. simpl.
apply IH. intros k Hk. apply Hall. right. assumption.
Qed.

Lemma updateDP_binds (dp : gmap (list (list cell)) pyval)
  (status : list (list cell)) (result : pyval)
  (dp' : gmap (list (list cell)) pyval) :
updateDP AVAILABLE dp status result = Ok dp' ->
exists ks, similarStatus AVAILABLE status = Ok ks /\
  (forall k, In k ks ->
     dp' !! k = Some (default result (dp !! k))) /\
  (forall k, ~ In k ks -> dp' !! k = dp !! k).
Proof.
intros (ks & Hks & Hsub & Hall & Hfrom)%updateDP_Ok. exists ks.
split; [assumption|]. split.
- intros k Hk. destruct (dp !! k) as [v|] eqn:Ek; simpl.
  + eapply lookup_weaken; eassumption.
  + destruct (Hall k Hk) as [v Hv]. rewrite Hv.
    apply Hfrom in Hv as [Hv|[_ ->]]; [congruence | reflexivity].
- intros k Hk. destruct (dp' !! k) as [v|] eqn:Ek'.
  + apply Hfrom in Ek' as [Ek'|[Hin _]]; [congruence | contradiction].
  + destruct (dp !! k) as [v|] eqn:Ek; [|reflexivity].
    rewrite (lookup_weaken _ _ _ _ Ek Hsub) in Ek'. discriminate.
Qed.

End UpdateMore.

(** X10: [updateDP(status, result)] binds each of the four keys of
    [status] that is not bound yet to [result], leaves the entry of every
    key that is bound and every other key alone, and is idempotent: after
    it, [updateDP] on the same status with any result changes nothing. *)
Theorem updateDP_binds_once {cell : Type} `{Countable cell}
  (AVAILABLE : cell) (dp : gmap (list (list cell)) pyval)
  (status : list (list cell)) (result : pyval)
  (dp' : gmap (list (list cell)) pyval) :
updateDP AVAILABLE dp status result = Ok dp' ->
(exists ks, similarStatus AVAILABLE status = Ok ks /\
   (forall k, In k ks -> dp' !! k = Some (default result (dp !! k))) /\
   (forall k, ~ In k ks -> dp' !! k = dp !! k)) /\
forall result', updateDP AVAILABLE dp' status result' = Ok dp'.
Proof.
intros Hrun. split; [apply updateDP_binds; assumption|].
intros result'.
apply updateDP_Ok in Hrun as (ks & Hks & _ & Hall & _).
unfold updateDP. rewrite Hks. simpl.
apply guarded_stores_noop. assumption.
Qed.

Lemma updateDP_binds_once_witness :
exists dp',
  updateDP 0%Z (∅ : gmap (list (list Z)) pyval) [[1; 0]; [0; 0]]%Z
           (Number (Int 1)) = Ok dp' /\
  ((exists ks, similarStatus 0%Z [[1; 0]; [0; 0]]%Z = Ok ks /\
      (forall k, In k ks ->
         dp' !! k = Some (default (Number (Int 1))
                            ((∅ : gmap (list (list Z)) pyval) !! k))) /\
      (forall k, ~ In k ks ->
         dp' !! k = (∅ : gmap (list (list Z)) pyval) !! k)) /\
   forall result', updateDP 0%Z dp' [[1; 0]; [0; 0]]%Z result' = Ok dp').
Proof.
eexists. split; [vm_compute; reflexivity|].
apply (updateDP_binds_once 0%Z ∅ [[1; 0]; [0; 0]]%Z (Number (Int 1))).
vm_compute. reflexivity.
Defined.

(** ** The search on any game *)

Section SearchMore.

Context {cell : Type} `{Countable cell}.
Variable AVAILABLE : cell.
Context {game player pos : Type} `{EqDecision player}.
Variable PLAYER_A : player.
Variable getStatus : game -> list (list cell).
Variable gameOver : game -> bool.
Variable currentPlayer : game -> player.
Variable getAvailablePositions : game -> list pos.
Variable move : game -> pos -> game * option Z.
Variable undo : game -> game.

Local Abbreviation self' := (@self cell _ _ game).
Local Abbreviation search' := (@search cell _ _ game).
Local Abbreviation minimax' :=
  (minimax AVAILABLE PLAYER_A getStatus gameOver currentPlayer
           getAvailablePositions move undo).
Local Abbreviation action' :=
  (action PLAYER_A getStatus gameOver currentPlayer
          getAvailablePositions move undo).
Local Abbreviation loop' := (search_loop AVAILABLE gameOver move undo).
Local Abbreviation play' := (play (cell := cell) gameOver move undo).

(** *** Every move is undone *)

Hypothesis undo_move : forall g p, undo (fst (move g p)) = g.

Lemma play_restores (rec : search') st p v st1 :
(forall st0 v0 st0', rec st0 = Ok (v0, st0') ->
   self_game st0' = self_game st0) ->
play' rec st p = Ok (v, st1) -> self_game st1 = self_game st.
Proof.
intros Hrec. unfold play. assert (Hu := undo_move (self_game st) p).
destruct (move (self_game st) p) as [g1 [z|]]; simpl in Hu.
- simpl. intros [= <- <-]. assumption.
- destruct (gameOver g1); [discriminate|].
  destruct (rec _) as [[r st']| |] eqn:Er; simpl; try discriminate.
  intros [= <- <-]. simpl. apply Hrec in Er. simpl in Er. congruence.
Qed.

Lemma search_loop_restores stop pick (rec : search') thisState positions :
(forall st0 v0 st0', rec st0 = Ok (v0, st0') ->
   self_game st0' = self_game st0) ->
forall ret st v st',
loop' stop pick rec thisState positions ret st = Ok (v, st') ->
self_game st' = self_game st.
Proof.
intros Hrec. induction positions as [|p rest IH]; intros ret st v st'; simpl.
- destruct (updateDP _ _ _ _) as [dp| |]; simpl; try discriminate.
  intros [= <- <-]. reflexivity.
- destruct (play' rec st p) as [[result st1]| |] eqn:Ep; simpl;
    try discriminate.
  apply play_restores in Ep; [|assumption].
  destruct (as_num result) as [r| |]; simpl; try discriminate.
  destruct (num_eqb (pick ret r) stop).
  + destruct (updateDP _ _ _ _) as [dp| |]; simpl; try discriminate.
    intros [= <- <-]. assumption.
  + intros Hrun%IH. congruence.
Qed.

Lemma minimax_restores fuel : forall st v st',
minimax' fuel st = Ok (v, st') -> self_game st' = self_game st.
Proof.
induction fuel as [|fuel IH]; intros st v st'; [discriminate|]. simpl.
destruct (similarStatus _ _) as [ks| |]; simpl; try discriminate.
destruct (first_hit _ ks) as [x|]; [intros [= <- <-]; reflexivity|].
destruct (gameOver _); [discriminate|].
destruct (decide _);
  [rewrite max_search_shape | rewrite min_search_shape];
  apply search_loop_restores; assumption.
Qed.

(** X11: the search undoes every move it makes, on every way out of its
    loops: with a game whose [undo] takes back a [move], a call of
    [minimax] that returns leaves the game object as it found it. *)
Theorem minimax_restores_game (fuel : nat) (st : self') (v : pyval)
  (st' : self') :
minimax' fuel st = Ok (v, st') -> self_game st' = self_game st.
Proof. apply minimax_restores. Qed.

End SearchMore.

Lemma minimax_restores_game_witness :
exists v st',
  (forall g p, Connect2.undo (fst (Connect2.move g p)) = g) /\
  Connect2.minimax 5 Connect2.start = Ok (v, st') /\
  self_game st' = self_game Connect2.start.
Proof.
eexists _, _. split; [reflexivity|]. split; [vm_compute; reflexivity|].
eapply (minimax_restores_game Connect2.AVAILABLE Connect2.PLAYER_A
          Connect2.getStatus Connect2.gameOver Connect2.currentPlayer
          Connect2.getAvailablePositions Connect2.move Connect2.undo
          (fun g p => eq_refl) 5 Connect2.start).
vm_compute. reflexivity.
Defined.

Section ActionMore.

Context {cell : Type} `{Countable cell}.
Variable AVAILABLE : cell.
Context {game player pos : Type} `{EqDecision player}.
Variable PLAYER_A : player.
Variable getStatus : game -> list (list cell).
Variable gameOver : game -> bool.
Variable currentPlayer : game -> player.
Variable getAvailablePositions : game -> list pos.
Variable move : game -> pos -> game * option Z.
Variable undo : game -> game.

Local Abbreviation self' := (@self cell _ _ game).
Local Abbreviation minimax' :=
  (minimax AVAILABLE PLAYER_A getStatus gameOver currentPlayer
           getAvailablePositions move undo).
Local Abbreviation action' :=
  (action PLAYER_A getStatus gameOver currentPlayer
          getAvailablePositions move undo).

(** X12: the assertions.  A call of [minimax] that finds none of the
    four keys bound raises [AssertionError] on a game that is over, and
    also when its first move returns no result although the game is over
    after it; [action] raises it on a game that is over. *)
Theorem game_over_asserts (st : self') (ks : list (list (list cell))) :
similarStatus AVAILABLE (getStatus (self_game st)) = Ok ks ->
(forall k, In k ks -> self_dpMap st !! k = None) ->
(gameOver (self_game st) = true ->
 forall fuel, minimax' (S fuel) st = Raise AssertionError) /\
(gameOver (self_game st) = false ->
 forall p rest g1,
   getAvailablePositions (self_game st) = p :: rest ->
   move (self_game st) p = (g1, None) -> gameOver g1 = true ->
   forall fuel, minimax' (S fuel) st = Raise AssertionError) /\
(forall dp g, gameOver g = true -> action' dp g = Raise AssertionError).
Proof.
intros Hks Hnone. apply first_hit_None in Hnone. split; [|split].
- intros Hover fuel. simpl. rewrite Hks. simpl. rewrite Hnone, Hover.
  reflexivity.
- intros Hover p rest g1 Hpos Hmove Hover1 fuel. simpl. rewrite Hks. simpl.
  rewrite Hnone, Hover, Hpos.
  destruct (decide _); simpl; unfold play; rewrite Hmove, Hover1; reflexivity.
- intros dp g Hover. unfold action. rewrite Hover. reflexivity.
Qed.

(** X13: with a dictionary that holds numbers only, as the search leaves
    it, [action] on a game that is not over returns exactly when there is
    no position to play, and then returns minus infinity for [PLAYER_A]
    and plus infinity for the other player, with [None] for the move. *)
Theorem action_returns_iff_no_position (dp : gmap (list (list cell)) pyval)
  (g : game) :
numeric dp -> gameOver g = false ->
((exists r, action' dp g = Ok r) <-> getAvailablePositions g = []) /\
(getAvailablePositions g = [] ->
 action' dp g
 = Ok ((if decide (currentPlayer g = PLAYER_A) then NegInf else PosInf,
        None), g)).
Proof.
intros Hnum Hover.
assert (Hempty : getAvailablePositions g = [] ->
          action' dp g
          = Ok ((if decide (currentPlayer g = PLAYER_A) then NegInf
                 else PosInf, None), g)).
{ intros Hpos. unfold action. rewrite Hover, Hpos.
  destruct (decide _); reflexivity. }
split; [|assumption]. split.
- intros [r Hr]. destruct (getAvailablePositions g) as [|p rest] eqn:Hpos;
    [reflexivity|].
  destruct (action_raises PLAYER_A getStatus gameOver currentPlayer
              getAvailablePositions move undo dp g Hnum Hover) as [He|He];
    [rewrite Hpos; discriminate | congruence | congruence].
- intros Hpos. eexists. apply Hempty. assumption.
Qed.

(** X14: the search stores and returns numbers only: from a dictionary of
    numbers, a call of [minimax] that returns leaves a dictionary of
    numbers and returns a number, never a pair. *)
Theorem minimax_keeps_numbers (fuel : nat) (st : self') (v : pyval)
  (st' : self') :
numeric (self_dpMap st) ->
minimax' fuel st = Ok (v, st') ->
numeric (self_dpMap st') /\ exists n, v = Number n.
Proof.
intros Hnum Hrun. apply minimax_sound in Hrun as [_ Hn]. apply Hn, Hnum.
Qed.

(** *** [action] on a dictionary of pairs *)

Lemma for_each_prefix {A S : Type} (P : list A -> S -> Prop) xs body :
(forall pre x st0, In x xs -> P pre st0 ->
   exists st1, body st0 x = Ok st1 /\ P (pre ++ [x]) st1) ->
forall pre (st : S), P pre st ->
exists st', for_each xs body st = Ok st' /\ P (pre ++ xs) st'.
Proof.
induction xs as [|x xs IH]; intros Hbody pre st Hst; simpl.
- exists st. rewrite app_nil_r. auto.
- destruct (Hbody pre x st) as (st1 & -> & Hst1); [left; reflexivity | assumption |].
  simpl. destruct (IH (fun pre' y st0 Hy => Hbody pre' y st0 (or_intror Hy))
                      (pre ++ [x]) st1 Hst1) as (st' & Hrun & Hst').
  exists st'. split; [assumption|]. rewrite <- app_assoc in Hst'. exact Hst'.
Qed.

Variable g : game.
Variable dp : gmap (list (list cell)) pyval.
Variables (val : pos -> Z) (hint : pos -> pyval).

Hypothesis entries :
  forall p, In p (getAvailablePositions g) ->
    undo (fst (move g p)) = g /\
    dp !! getStatus (fst (move g p))
    = Some (Pair (Number (Int (val p))) (hint p)).

Lemma peek_pair p :
In p (getAvailablePositions g) ->
peek getStatus move undo dp g p = Ok (Number (Int (val p)), g).
Proof.
intros Hp. destruct (entries p Hp) as [Hu Hd]. unfold peek.
destruct (move g p) as [g1 r]. simpl in *. unfold dict_get. rewrite Hd.
simpl. rewrite Hu. reflexivity.
Qed.

Lemma max_pass :
exists st', for_each (getAvailablePositions g)
  (fun '((ret, bestMove), g0) pos0 =>
     '(result, g') ← peek getStatus move undo dp g0 pos0;
     result ← as_num result;
     let ret := py_max ret result in
     Ok ((ret, if num_eqb ret result then Some pos0 else bestMove), g'))
  ((NegInf, None), g) = Ok st'
  /\ best_so_far g val (fun z z' => (z' <= z)%Z) NegInf (getAvailablePositions g) st'.
Proof.
apply (for_each_prefix (best_so_far g val (fun z z' => (z' <= z)%Z) NegInf)
         (getAvailablePositions g) _) with (pre := []).
2:{ split; [reflexivity|]. left. auto. }
intros pre x [[ret bm] g0] Hx [Hg Hcase]. simpl in Hg. subst g0.
rewrite (peek_pair x Hx). simpl.
destruct Hcase as [[-> [= -> ->]]|(z & b & [= -> ->] & Hb & Hvb & Hall)].
- simpl. unfold num_eqb. rewrite bool_decide_eq_true_2 by reflexivity.
  eexists. split; [reflexivity|]. split; [reflexivity|]. right.
  exists (val x), x. simpl. split; [reflexivity|]. split; [auto|].
  split; [reflexivity|]. intros p [<-|[]]. lia.
- unfold py_max. simpl. destruct (Z.ltb_spec z (val x)) as [Hlt|Hge].
  + unfold num_eqb. rewrite bool_decide_eq_true_2 by reflexivity.
    eexists. split; [reflexivity|]. split; [reflexivity|]. right.
    exists (val x), x. split; [reflexivity|].
    split; [apply in_or_app; right; left; reflexivity|].
    split; [reflexivity|].
    intros p [Hp|[<-|[]]]%in_app_or; [apply Hall in Hp; lia | lia].
  + unfold num_eqb. destruct (decide (Int z = Int (val x))) as [Heq|Hne].
    * rewrite bool_decide_eq_true_2 by assumption. injection Heq as Heq.
      eexists. split; [reflexivity|]. split; [reflexivity|]. right.
      exists z, x. split; [reflexivity|].
      split; [apply in_or_app; right; left; reflexivity|].
      split; [congruence|].
      intros p [Hp|[<-|[]]]%in_app_or; [apply Hall in Hp; lia | lia].
    * rewrite bool_decide_eq_false_2 by assumption.
      eexists. split; [reflexivity|]. split; [reflexivity|]. right.
      exists z, b. split; [reflexivity|].
      split; [apply in_or_app; left; assumption|].
      split; [assumption|].
      intros p [Hp|[<-|[]]]%in_app_or; [apply Hall in Hp; lia | lia].
Qed.

Lemma min_pass :
exists st', for_each (getAvailablePositions g)
  (fun '((ret, bestMove), g0) pos0 =>
     '(result, g') ← peek getStatus move undo dp g0 pos0;
     result ← as_num result;
     let ret := py_min ret result in
     Ok ((ret, if num_eqb ret result then Some pos0 else bestMove), g'))
  ((PosInf, None), g) = Ok st'
  /\ best_so_far g val (fun z z' => (z <= z')%Z) PosInf (getAvailablePositions g) st'.
Proof.
apply (for_each_prefix (best_so_far g val (fun z z' => (z <= z')%Z) PosInf)
         (getAvailablePositions g) _) with (pre := []).
2:{ split; [reflexivity|]. left. auto. }
intros pre x [[ret bm] g0] Hx [Hg Hcase]. simpl in Hg. subst g0.
rewrite (peek_pair x Hx). simpl.
destruct Hcase as [[-> [= -> ->]]|(z & b & [= -> ->] & Hb & Hvb & Hall)].
- simpl. unfold num_eqb. rewrite bool_decide_eq_true_2 by reflexivity.
  eexists. split; [reflexivity|]. split; [reflexivity|]. right.
  exists (val x), x. simpl. split; [reflexivity|]. split; [auto|].
  split; [reflexivity|]. intros p [<-|[]]. lia.
- unfold py_min. simpl. destruct (Z.ltb_spec (val x) z) as [Hlt|Hge].
  + unfold num_eqb. rewrite bool_decide_eq_true_2 by reflexivity.
    eexists. split; [reflexivity|]. split; [reflexivity|]. right.
    exists (val x), x. split; [reflexivity|].
    split; [apply in_or_app; right; left; reflexivity|].
    split; [reflexivity|].
    intros p [Hp|[<-|[]]]%in_app_or; [apply Hall in Hp; lia | lia].
  + unfold num_eqb. destruct (decide (Int z = Int (val x))) as [Heq|Hne].
    * rewrite bool_decide_eq_true_2 by assumption. injection Heq as Heq.
      eexists. split; [reflexivity|]. split; [reflexivity|]. right.
      exists z, x. split; [reflexivity|].
      split; [apply in_or_app; right; left; reflexivity|].
      split; [congruence|].
      intros p [Hp|[<-|[]]]%in_app_or; [apply Hall in Hp; lia | lia].
    * rewrite bool_decide_eq_false_2 by assumption.
      eexists. split; [reflexivity|]. split; [reflexivity|]. right.
      exists z, b. split; [reflexivity|].
      split; [apply in_or_app; left; assumption|].
      split; [assumption|].
      intros p [Hp|[<-|[]]]%in_app_or; [apply Hall in Hp; lia | lia].
Qed.

(** X15: what [action] computes when the entries it reads are pairs.  On
    a game that is not over and has a position to play, with [undo] taking
    back each of these moves and every child status bound to a pair whose
    first component is an integer, [action] returns the largest of these
    integers for [PLAYER_A], the smallest for the other player, with a
    position whose entry has it, and leaves the game as it was. *)
Theorem action_on_pair_entries :
gameOver g = false -> getAvailablePositions g <> [] ->
exists z best,
  action' dp g = Ok ((Int z, Some best), g) /\
  In best (getAvailablePositions g) /\ val best = z /\
  forall p, In p (getAvailablePositions g) ->
    if decide (currentPlayer g = PLAYER_A) then (val p <= z)%Z
    else (z <= val p)%Z.
Proof.
intros Hover Hpos. unfold action. rewrite Hover.
destruct (decide (currentPlayer g = PLAYER_A)).
- destruct max_pass as ([[ret bm] g0] & Hrun & Hg & Hcase). simpl in Hg.
  subst g0. destruct Hcase as [[Hnil _]|(z & b & [= -> ->] & Hb & Hvb & Hall)];
    [contradiction|].
  exists z, b. split; [exact Hrun | auto].
- destruct min_pass as ([[ret bm] g0] & Hrun & Hg & Hcase). simpl in Hg.
  subst g0. destruct Hcase as [[Hnil _]|(z & b & [= -> ->] & Hb & Hvb & Hall)];
    [contradiction|].
  exists z, b. split; [exact Hrun | auto].
Qed.

End ActionMore.

Lemma game_over_asserts_witness :
exists ks,
  similarStatus Connect2.AVAILABLE (Connect2.getStatus finished) = Ok ks /\
  (forall k, In k ks ->
     (∅ : gmap (list (list Z)) pyval) !! k = None) /\
  ((Connect2.gameOver finished = true ->
    forall fuel,
      Connect2.minimax (S fuel) (Self finished ∅) = Raise AssertionError) /\
   (Connect2.gameOver finished = false ->
    forall p rest g1,
      Connect2.getAvailablePositions finished = p :: rest ->
      Connect2.move finished p = (g1, None) ->
      Connect2.gameOver g1 = true ->
      forall fuel,
        Connect2.minimax (S fuel) (Self finished ∅) = Raise AssertionError) /\
   (forall dp g, Connect2.gameOver g = true ->
      Connect2.action dp g = Raise AssertionError)).
Proof.
eexists. split; [vm_compute; reflexivity|].
split; [intros; apply lookup_empty|].
eapply (game_over_asserts Connect2.AVAILABLE Connect2.PLAYER_A
          Connect2.getStatus Connect2.gameOver Connect2.currentPlayer
          Connect2.getAvailablePositions Connect2.move Connect2.undo
          (Self finished ∅));
  [vm_compute; reflexivity | intros; apply lookup_empty].
Defined.

Lemma numeric_empty : numeric (∅ : gmap (list (list Z)) pyval).
Proof. intros k v Hk. rewrite lookup_empty in Hk. discriminate. Qed.

Lemma action_returns_iff_no_position_witness :
numeric (∅ : gmap (list (list Z)) pyval) /\
Connect2.gameOver [] = false /\
(((exists r, Connect2.action ∅ [] = Ok r)
  <-> Connect2.getAvailablePositions [] = []) /\
 (Connect2.getAvailablePositions [] = [] ->
  Connect2.action ∅ []
  = Ok ((if decide (Connect2.currentPlayer [] = Connect2.PLAYER_A)
         then NegInf else PosInf, None), []))).
Proof.
split; [exact numeric_empty|]. split; [reflexivity|].
exact (action_returns_iff_no_position Connect2.PLAYER_A
         Connect2.getStatus Connect2.gameOver Connect2.currentPlayer
         Connect2.getAvailablePositions Connect2.move Connect2.undo
         ∅ [] numeric_empty eq_refl).
Defined.

Lemma minimax_keeps_numbers_witness :
exists v st',
  numeric (self_dpMap Connect2.start) /\
  Connect2.minimax 5 Connect2.start = Ok (v, st') /\
  (numeric (self_dpMap st') /\ exists n, v = Number n).
Proof.
eexists _, _. split; [exact numeric_empty|].
split; [vm_compute; reflexivity|].
eapply (minimax_keeps_numbers Connect2.AVAILABLE Connect2.PLAYER_A
          Connect2.getStatus Connect2.gameOver Connect2.currentPlayer
          Connect2.getAvailablePositions Connect2.move Connect2.undo
          5 Connect2.start);
  [exact numeric_empty | vm_compute; reflexivity].
Defined.

Lemma pair_table_entries p :
In p (Connect2.getAvailablePositions []) ->
Connect2.undo (fst (Connect2.move [] p)) = [] /\
pair_table !! Connect2.getStatus (fst (Connect2.move [] p))
= Some (Pair (Number (Int (pair_value p))) (Number (Int 0))).
Proof.
intros Hp. split; [reflexivity|]. simpl in Hp.
destruct Hp as [<-|[<-|[<-|[<-|[]]]]]; vm_compute; reflexivity.
Qed.

Lemma action_on_pair_entries_witness :
(forall p, In p (Connect2.getAvailablePositions []) ->
   Connect2.undo (fst (Connect2.move [] p)) = [] /\
   pair_table !! Connect2.getStatus (fst (Connect2.move [] p))
   = Some (Pair (Number (Int (pair_value p))) (Number (Int 0)))) /\
Connect2.gameOver [] = false /\
Connect2.getAvailablePositions [] <> [] /\
exists z best,
  Connect2.action pair_table [] = Ok ((Int z, Some best), []) /\
  In best (Connect2.getAvailablePositions []) /\ pair_value best = z /\
  forall p, In p (Connect2.getAvailablePositions []) ->
    if decide (Connect2.currentPlayer [] = Connect2.PLAYER_A)
    then (pair_value p <= z)%Z else (z <= pair_value p)%Z.
Proof.
split; [exact pair_table_entries|]. split; [reflexivity|].
split; [discriminate|].
apply (action_on_pair_entries Connect2.PLAYER_A
         Connect2.getStatus Connect2.gameOver Connect2.currentPlayer
         Connect2.getAvailablePositions Connect2.move Connect2.undo
         [] pair_table pair_value (fun _ => Number (Int 0))
         pair_table_entries);
  [reflexivity | discriminate].
Defined.

(** On that dictionary [action] returns 1 with the move [(1, 0)]. *)
Lemma action_on_pair_table :
Connect2.action pair_table [] = Ok ((Int 1, Some (1, 0)%nat), []).
Proof. vm_compute. reflexivity. Qed.

End PlannedMore.
